(** * Deals table: view state, derived data and action dispatch

    A shallow embedding of [src/app/_dash/_components/deals-table.tsx].

    Conventions of the embedding.
    - A JS string is a [string] (a sequence of 8-bit characters); the text
      handled by the table is taken to be ASCII, so [toLowerCase] maps
      [A-Z] to [a-z] and leaves every other character alone, and [<] on
      strings is the lexicographic order on character codes.
    - A JS [number] holding a monetary value is an integer [Z] (the seed
      data and the cell editor, which goes through [parseInt], only produce
      integers; [NaN] is outside the model).  Quotients are exact rationals
      [Qc].
    - A JS object used as a dictionary is a [gmap string _]: an absent key
      is [None], and keys inherited from [Object.prototype] are not
      modelled.
    - React state is threaded explicitly: every handler is a function from
      the previous component state to the next one. *)

From Stdlib Require Import ZArith List Ascii String QArith Qcanon.
From stdpp Require Import base numbers list gmap strings pretty sorting.

Local Open Scope string_scope.
Local Open Scope list_scope.
Local Open Scope Z_scope.

(** ** Strings *)

Module Str.

(** [String.prototype.toLowerCase], on ASCII text. *)
Definition lower_char (c : ascii) : ascii :=
  let n := N_of_ascii c in
  if ((65 <=? n) && (n <=? 90))%N then ascii_of_N (n + 32) else c.

Fixpoint toLowerCase (s : string) : string :=
  match s with
  | EmptyString => EmptyString
  | String c r => String (lower_char c) (toLowerCase r)
  end.

(** [s.startsWith(p)], used to define [s.includes(p)]. *)
Fixpoint startsWith (p s : string) : bool :=
  match p, s with
  | EmptyString, _ => true
  | String _ _, EmptyString => false
  | String a p', String b s' => bool_decide (a = b) && startsWith p' s'
  end.

(** [s.includes(p)]: [p] occurs in [s] at some offset. *)
Fixpoint includes (s p : string) : bool :=
  startsWith p s ||
  match s with
  | EmptyString => false
  | String _ s' => includes s' p
  end.

(** The specification-side notion: [p] is a contiguous part of [s]. *)
Definition substring_of (p s : string) : Prop :=
  ∃ pre post, s = pre +:+ p +:+ post.

(** JS truthiness of a string: only the empty string is falsy. *)
Definition truthy (s : string) : bool := negb (bool_decide (s = "")).

End Str.

(** ** Data model *)

(** [type Deal]. *)
Record Deal := mkDeal {
  id : string;
  deal : string;
  activitiesTimeline : string;
  stage : string;
  dealValue : Z;
  contacts : string;
  owner : string;
  accounts : string;
  expectedClose : string;
  forecastValue : Z;
}.

Global Instance Deal_eq_dec : EqDecision Deal.
Proof. solve_decision. Defined.

(** [interface ColumnConfig]; the optional members are [option]s. *)
Record ColumnConfig := mkColumnConfig {
  col_id : string;
  col_label : string;
  col_visible : bool;
  col_locked : option bool;
  col_width : option Z;
}.

(** [interface FilterState]. *)
Record FilterState := mkFilterState {
  search : string;
  f_stage : list string;
  f_owner : list string;
  dealValueRange : Z * Z;
}.

(** [interface SortState]: at run time the column is whatever string the
    header passes, so it is a [string] here. *)
Inductive Direction := asc | desc.

Global Instance Direction_eq_dec : EqDecision Direction.
Proof. solve_decision. Defined.

Record SortState := mkSortState {
  column : string;
  direction : Direction;
}.

Global Instance SortState_eq_dec : EqDecision SortState.
Proof. solve_decision. Defined.

(** [interface UIState]. *)
Record UIState := mkUIState {
  rowSelection : gmap string bool;
  columnConfig : list ColumnConfig;
  headerValues : gmap string string;
  selectedTemplates : list string;
  expandedRows : list string;
  filters : FilterState;
  sorts : list SortState;
  columnWidths : gmap string Z;
}.

(** The component state touched by the handlers: [tableData], [uiState]
    and [announcementMessage]. *)
Record AppState := mkAppState {
  tableData : list Deal;
  uiState : UIState;
  announcementMessage : string;
}.

(** [const mockData]. *)
Definition mockData : list Deal := [
  mkDeal "1" "Enterprise Software License" "" "Proposal" 125000
         "John Smith, Mary Johnson" "Alex Chen" "TechCorp Inc. - Enterprise"
         "2024-03-15" 112500;
  mkDeal "2" "Cloud Migration Project" "" "Negotiation" 85000
         "Sarah Johnson, Mike Davis, Lisa Wong" "Sam Wilson"
         "DataFlow Systems - Mid-Market" "2024-02-28" 76500;
  mkDeal "3" "Marketing Automation Setup" "" "Proposal" 45000
         "Mike Davis, Jennifer Lee" "Emma Brown" "GrowthCo - Small Business"
         "2024-02-15" 40500;
  mkDeal "4" "Security Audit & Compliance" "" "Closed Won" 95000
         "Lisa Chen, Robert Kim, David Park" "James Liu"
         "SecureBank - Financial Services" "2024-01-30" 95000;
  mkDeal "5" "Custom Dashboard Development" "" "Discovery" 65000
         "Tom Wilson, Anna Martinez" "Chris Taylor"
         "Analytics Pro - Technology" "2024-03-30" 58500
].

(** The filter state of the default view state and of [onClearFilters]. *)
Definition noFilters : FilterState := mkFilterState "" [] [] (0, 200000).

(** ** Derived data: filter *)

(** [Array.prototype.includes] on an array of strings. *)
Definition arr_includes (l : list string) (x : string) : bool :=
  bool_decide (x ∈ l).

(** [Array.prototype.some]. *)
Definition some {A} (p : A → bool) (l : list A) : bool := existsb p l.

(** [Array.prototype.every]. *)
Definition every {A} (p : A → bool) (l : list A) : bool := forallb p l.

(** The callback of [tableData.filter] in [filteredData]: each [if] of the
    source that returns [false] is one conjunct. *)
Definition passesFilters (f : FilterState) (d : Deal) : bool :=
  (if Str.truthy (search f) then
     let searchLower := Str.toLowerCase (search f) in
     let searchableFields := [deal d; owner d; accounts d; contacts d] in
     some (λ field, Str.includes (Str.toLowerCase field) searchLower)
          searchableFields
   else true)
  && negb ((0 <? Z.of_nat (length (f_stage f)))
           && negb (arr_includes (f_stage f) (stage d)))
  && negb ((0 <? Z.of_nat (length (f_owner f)))
           && negb (arr_includes (f_owner f) (owner d)))
  && negb ((dealValue d <? fst (dealValueRange f))
           || (snd (dealValueRange f) <? dealValue d)).

(** [filteredData]. *)
Definition filteredData (f : FilterState) (data : list Deal) : list Deal :=
  List.filter (passesFilters f) data.

(** ** Derived data: sort *)

(** What [a[sort.column]] can evaluate to: a string, a number, or
    [undefined] ([None]) when the column is not a member of [Deal]. *)
Inductive value := VStr (s : string) | VNum (n : Z).

Definition getField (col : string) (d : Deal) : option value :=
  if String.eqb col "id" then Some (VStr (id d))
  else if String.eqb col "deal" then Some (VStr (deal d))
  else if String.eqb col "activitiesTimeline" then
    Some (VStr (activitiesTimeline d))
  else if String.eqb col "stage" then Some (VStr (stage d))
  else if String.eqb col "dealValue" then Some (VNum (dealValue d))
  else if String.eqb col "contacts" then Some (VStr (contacts d))
  else if String.eqb col "owner" then Some (VStr (owner d))
  else if String.eqb col "accounts" then Some (VStr (accounts d))
  else if String.eqb col "expectedClose" then Some (VStr (expectedClose d))
  else if String.eqb col "forecastValue" then Some (VNum (forecastValue d))
  else None.

(** The [typeof aVal === "string" && typeof bVal === "string"] block. *)
Definition lowerBoth (aVal bVal : option value) : option value * option value :=
  match aVal, bVal with
  | Some (VStr a), Some (VStr b) =>
      (Some (VStr (Str.toLowerCase a)), Some (VStr (Str.toLowerCase b)))
  | _, _ => (aVal, bVal)
  end.

(** The relational operator [<] on the values above; a comparison with
    [undefined] is false.  Both operands always come from the same column,
    so a string is never compared with a number. *)
Definition js_lt (x y : option value) : bool :=
  match x, y with
  | Some (VStr s), Some (VStr t) => String.ltb s t
  | Some (VNum m), Some (VNum n) => m <? n
  | _, _ => false
  end.

(** The comparator passed to [sort] in [sortedData]: the [for] loop over
    [sorts] returns at the first key that tells the rows apart. *)
Fixpoint compareDeals (sorts : list SortState) (a b : Deal) : Z :=
  match sorts with
  | [] => 0
  | sort :: rest =>
      let '(aVal, bVal) :=
        lowerBoth (getField (column sort) a) (getField (column sort) b) in
      if js_lt aVal bVal then
        (if decide (direction sort = asc) then -1 else 1)
      else if js_lt bVal aVal then
        (if decide (direction sort = asc) then 1 else -1)
      else compareDeals rest a b
  end.

(** [Array.prototype.sort] is a built-in of the language: it is stable
    and orders by the sign of the comparator.  It is embedded as the
    insertion sort that puts an element in front of the first one it does
    not exceed. *)
Fixpoint sort_insert {A} (comparefn : A → A → Z) (x : A) (l : list A) : list A :=
  match l with
  | [] => [x]
  | y :: l' =>
      if comparefn x y <=? 0 then x :: y :: l'
      else y :: sort_insert comparefn x l'
  end.

Definition Array_sort {A} (comparefn : A → A → Z) (l : list A) : list A :=
  foldr (sort_insert comparefn) [] l.

(** [sortedData]: the copy [[...filteredData]] is what gets sorted. *)
Definition sortedData (sorts : list SortState) (filtered : list Deal) : list Deal :=
  if (Z.of_nat (length sorts) =? 0) then filtered
  else Array_sort (compareDeals sorts) filtered.

(** ** View-state updates *)

Definition set_sorts (v : list SortState) (s : UIState) : UIState :=
  mkUIState (rowSelection s) (columnConfig s) (headerValues s)
            (selectedTemplates s) (expandedRows s) (filters s) v
            (columnWidths s).

Definition set_rowSelection (v : gmap string bool) (s : UIState) : UIState :=
  mkUIState v (columnConfig s) (headerValues s) (selectedTemplates s)
            (expandedRows s) (filters s) (sorts s) (columnWidths s).

Definition set_filters (v : FilterState) (s : UIState) : UIState :=
  mkUIState (rowSelection s) (columnConfig s) (headerValues s)
            (selectedTemplates s) (expandedRows s) v (sorts s)
            (columnWidths s).

Definition set_expandedRows (v : list string) (s : UIState) : UIState :=
  mkUIState (rowSelection s) (columnConfig s) (headerValues s)
            (selectedTemplates s) v (filters s) (sorts s) (columnWidths s).

(** The sort indicator a header is given:
    [sorts.find((s) => s.column === col.id)]. *)
Definition sortState (columnId : string) (sorts : list SortState) : option SortState :=
  List.find (λ s, bool_decide (column s = columnId)) sorts.

(** The body of [handleSort] that computes [newSorts]. *)
Definition toggleSort (columnId : string) (currentSorts : list SortState) : list SortState :=
  match List.find (λ s, bool_decide (column s = columnId)) currentSorts with
  | Some existingSort =>
      if decide (direction existingSort = asc) then
        List.map (λ s, if bool_decide (column s = columnId)
                       then mkSortState (column s) desc else s)
                 currentSorts
      else
        List.filter (λ s, negb (bool_decide (column s = columnId))) currentSorts
  | None => currentSorts ++ [mkSortState columnId asc]
  end.

(** The entries of the columns other than [columnId]. *)
Definition otherColumn (columnId : string) (s : SortState) : bool :=
  negb (bool_decide (column s = columnId)).

(** [handleSort]. *)
Definition handleSort (columnId : string) (prev : UIState) : UIState :=
  set_sorts (toggleSort columnId (sorts prev)) prev.

(** [onFiltersChange] and [onClearFilters] of the toolbar. *)
Definition onFiltersChange (newFilters : FilterState) (prev : UIState) : UIState :=
  set_filters newFilters prev.

Definition onClearFilters (prev : UIState) : UIState :=
  set_filters noFilters prev.

(** ** Selection *)

(** [rowSelection[id]] read as a condition: [undefined] and [false] are
    both falsy. *)
Definition isSelected (sel : gmap string bool) (rowId : string) : bool :=
  default false (sel !! rowId).

(** [handleSelectRow]. *)
Definition handleSelectRow (rowId : string) (prev : UIState) : UIState :=
  set_rowSelection (<[rowId := negb (isSelected (rowSelection prev) rowId)]>
                      (rowSelection prev)) prev.

(** The [reduce] of [handleSelectAll]: every row of [rows] set to [true],
    starting from the empty object. *)
Definition selectRows (rows : list Deal) : gmap string bool :=
  fold_left (λ acc row, <[id row := true]> acc) rows ∅.

(** [handleSelectAll]. *)
Definition handleSelectAll (rows : list Deal) (prev : UIState) : UIState :=
  let currentSelection := rowSelection prev in
  let allSelected := every (λ row, isSelected currentSelection (id row)) rows in
  set_rowSelection (if allSelected then ∅ else selectRows rows) prev.

(** [new Set(array)] followed by [Array.from]: the members in the order
    of their first occurrence. *)
Definition Set_from (l : list string) : list string :=
  fold_left (λ acc x, if bool_decide (x ∈ acc) then acc else acc ++ [x]) l [].

(** [toggleRowExpansion]: through a [Set], so a present id is removed and
    an absent one is added at the end. *)
Definition toggleRowExpansion (rowId : string) (prev : UIState) : UIState :=
  let newExpanded := Set_from (expandedRows prev) in
  set_expandedRows
    (if bool_decide (rowId ∈ newExpanded)
     then List.filter (λ x, negb (bool_decide (x = rowId))) newExpanded
     else newExpanded ++ [rowId])
    prev.

(** ** Action dispatcher *)

(** [Object.keys] of a dictionary.  Only the length of the result and
    membership in it are used, so the enumeration order is immaterial. *)
Definition Object_keys {V} (o : gmap string V) : list string :=
  (map_to_list o).*1.

(** [`deal${n !== 1 ? 's' : ''}`]. *)
Definition plural (n : nat) : string :=
  "deal" +:+ (if decide (n ≠ 1%nat) then "s" else "").

(** [stageMap[value] || value] and [ownerMap[value] || value], for a
    [value] that is none of the names every object inherits (see
    [Object_prototype_names] below). *)
Definition stageMap : list (string * string) := [
  ("discovery", "Discovery"); ("proposal", "Proposal");
  ("negotiation", "Negotiation"); ("closed-won", "Closed Won");
  ("closed-lost", "Closed Lost") ].

Definition ownerMap : list (string * string) := [
  ("alex-chen", "Alex Chen"); ("sam-wilson", "Sam Wilson");
  ("emma-brown", "Emma Brown"); ("james-liu", "James Liu");
  ("chris-taylor", "Chris Taylor") ].

Definition lookupOr (table : list (string * string)) (value : string) : string :=
  match List.find (λ kv, String.eqb (fst kv) value) table with
  | Some kv => snd kv
  | None => value
  end.

Definition set_stage (v : string) (d : Deal) : Deal :=
  mkDeal (id d) (deal d) (activitiesTimeline d) v (dealValue d) (contacts d)
         (owner d) (accounts d) (expectedClose d) (forecastValue d).

Definition set_owner (v : string) (d : Deal) : Deal :=
  mkDeal (id d) (deal d) (activitiesTimeline d) (stage d) (dealValue d)
         (contacts d) v (accounts d) (expectedClose d) (forecastValue d).

Inductive BulkAction :=
  | BulkDelete | BulkArchive | BulkChangeStage | BulkChangeOwner | BulkEmail.

(** [handleBulkAction].  [value] is the optional second argument;
    [if (value)] holds for a present, non-empty string. *)
Definition handleBulkAction (action : BulkAction) (value : option string)
    (st : AppState) : AppState :=
  let selectedRowIds := Object_keys (rowSelection (uiState st)) in
  let n := length selectedRowIds in
  match action with
  | BulkDelete =>
      mkAppState
        (List.filter (λ d, negb (arr_includes selectedRowIds (id d)))
                     (tableData st))
        (set_rowSelection ∅ (uiState st))
        ("Deleted " +:+ pretty n +:+ " " +:+ plural n)
  | BulkArchive =>
      mkAppState (tableData st) (uiState st)
        ("Archived " +:+ pretty n +:+ " " +:+ plural n)
  | BulkChangeStage =>
      match value with
      | Some v =>
          if Str.truthy v then
            mkAppState
              (List.map (λ d, if arr_includes selectedRowIds (id d)
                              then set_stage (lookupOr stageMap v) d else d)
                        (tableData st))
              (uiState st)
              ("Changed " +:+ pretty n +:+ " " +:+ plural n +:+ " to "
                 +:+ lookupOr stageMap v)
          else st
      | None => st
      end
  | BulkChangeOwner =>
      match value with
      | Some v =>
          if Str.truthy v then
            mkAppState
              (List.map (λ d, if arr_includes selectedRowIds (id d)
                              then set_owner (lookupOr ownerMap v) d else d)
                        (tableData st))
              (uiState st)
              ("Assigned " +:+ pretty n +:+ " " +:+ plural n +:+ " to "
                 +:+ lookupOr ownerMap v)
          else st
      | None => st
      end
  | BulkEmail =>
      mkAppState (tableData st) (uiState st)
        ("Preparing email for " +:+ pretty n +:+ " " +:+ plural n)
  end.

(** The number shown next to the bulk buttons and in the totals bar:
    [Object.keys(rowSelection).filter(id => rowSelection[id]).length]. *)
Definition selectedCount (sel : gmap string bool) : nat :=
  length (List.filter (λ k, isSelected sel k) (Object_keys sel)).

Inductive RowAction :=
  | RowEdit | RowDuplicate | RowChangeOwner | RowChangeStage | RowEmail
  | RowCall | RowMeeting | RowArchive | RowDelete.

(** The object literal built by the [duplicate] case; [now] is the value
    of [Date.now()], a count of milliseconds. *)
Definition copyOf (originalDeal : Deal) (dealId : string) (now : N) : Deal :=
  mkDeal (dealId +:+ "-copy-" +:+ pretty now)
         (deal originalDeal +:+ " (Copy)")
         (activitiesTimeline originalDeal) (stage originalDeal)
         (dealValue originalDeal) (contacts originalDeal)
         (owner originalDeal) (accounts originalDeal)
         (expectedClose originalDeal) (forecastValue originalDeal).

Definition set_message (m : string) (st : AppState) : AppState :=
  mkAppState (tableData st) (uiState st) m.

(** [handleRowAction], with the clock reading [now] made an argument. *)
Definition handleRowAction (action : RowAction) (dealId : string)
    (value : option string) (now : N) (st : AppState) : AppState :=
  match action with
  | RowEdit => set_message "Editing deal" st
  | RowDuplicate =>
      match List.find (λ d, bool_decide (id d = dealId)) (tableData st) with
      | Some originalDeal =>
          mkAppState (tableData st ++ [copyOf originalDeal dealId now])
                     (uiState st) "Deal duplicated successfully"
      | None => st
      end
  | RowChangeOwner =>
      match value with
      | Some v =>
          if Str.truthy v then
            mkAppState
              (List.map (λ d, if bool_decide (id d = dealId)
                              then set_owner v d else d) (tableData st))
              (uiState st) ("Deal owner changed to " +:+ v)
          else st
      | None => st
      end
  | RowChangeStage =>
      match value with
      | Some v =>
          if Str.truthy v then
            mkAppState
              (List.map (λ d, if bool_decide (id d = dealId)
                              then set_stage v d else d) (tableData st))
              (uiState st) ("Deal stage changed to " +:+ v)
          else st
      | None => st
      end
  | RowEmail => set_message "Preparing email for deal" st
  | RowCall => set_message "Scheduling call for deal" st
  | RowMeeting => set_message "Scheduling meeting for deal" st
  | RowArchive => set_message "Deal archived" st
  | RowDelete =>
      mkAppState
        (List.filter (λ d, negb (bool_decide (id d = dealId))) (tableData st))
        (uiState st) "Deal deleted"
  end.

(** ** Totals *)

(** The [reduce] that builds [stageBreakdown] and [ownerBreakdown]:
    [acc[k] = (acc[k] || 0) + 1]. *)
Definition breakdown (key : Deal → string) (rows : list Deal) : gmap string nat :=
  fold_left (λ acc d, <[key d := (default 0 (acc !! key d) + 1)%nat]> acc)
            rows ∅.

Record Totals := mkTotals {
  visible : nat;
  total : nat;
  selected : nat;
  dealValueSum : Z;
  forecastValueSum : Z;
  stageBreakdown : gmap string nat;
  ownerBreakdown : gmap string nat;
  averageDealValue : Qc;
  conversionRate : Qc;
}.

Definition Qc_of_nat (n : nat) : Qc := Qc_of_Z (Z.of_nat n).

(** [totals].  The average and the rate are exact quotients where the
    code has double-precision numbers; what is stated of them are their
    formulas, their zero cases and bounds that rounding keeps. *)
Definition totals (sortedData tableData : list Deal)
    (rowSelection : gmap string bool) : Totals :=
  let visible := length sortedData in
  let dealValueSum := fold_left (λ sum d, sum + dealValue d) sortedData 0 in
  let forecastValueSum :=
    fold_left (λ sum d, sum + forecastValue d) sortedData 0 in
  let stageBreakdown := breakdown stage sortedData in
  let ownerBreakdown := breakdown owner sortedData in
  mkTotals visible (length tableData) (selectedCount rowSelection)
    dealValueSum forecastValueSum stageBreakdown ownerBreakdown
    (if (0 <? Z.of_nat visible)
     then (Qc_of_Z dealValueSum / Qc_of_nat visible)%Qc else 0%Qc)
    (match stageBreakdown !! "Closed Won" with
     | Some (S k) => (Qc_of_nat (S k) / Qc_of_nat visible * Qc_of_Z 100)%Qc
     | _ => 0%Qc
     end).


(** ** Identifiers of copies *)

(** [c] does not occur in [s]. *)
Fixpoint noChar (c : ascii) (s : string) : bool :=
  match s with
  | EmptyString => true
  | String a r => negb (bool_decide (a = c)) && noChar c r
  end.

(** Every identifier of the store that has the form of a copy,
    [<source>-copy-<stamp>], carries a stamp older than [now]. *)
Definition stampsBelow (now : N) (store : list Deal) : Prop :=
  ∀ d source stamp,
    d ∈ store → id d = source +:+ "-copy-" +:+ pretty stamp →
    (stamp < now)%N.

(** A run of [duplicate] actions, each with the id it is asked to copy and
    the clock reading at which it happens. *)
Definition duplicateAll (clicks : list (string * N)) (st : AppState) : AppState :=
  fold_left (λ s click, handleRowAction RowDuplicate click.1 None click.2 s)
            clicks st.

(** ** Specification-side counts for the totals *)

(** The sum of the monetary values of a row list. *)
Definition valueSum (rows : list Deal) : Z :=
  foldr (λ d acc, dealValue d + acc) 0 rows.

(** The number of rows whose key is [k]. *)
Definition countKey (key : Deal → string) (k : string) (rows : list Deal) : nat :=
  length (List.filter (λ d, bool_decide (key d = k)) rows).

(** ** Specification-side notions for the sort *)

(** A consistent comparator in the sense the language asks of the argument
    of [sort]: swapping the arguments negates the result, and "does not
    come after" is transitive. *)
Definition Consistent {A} (comparefn : A → A → Z) : Prop :=
  (∀ a b, comparefn b a = - comparefn a b)
  ∧ (∀ a b c, comparefn a b ≤ 0 → comparefn b c ≤ 0 → comparefn a c ≤ 0).

(** Lexicographic combination: the second comparator decides only the
    ties of the first. *)
Definition lex {A} (c1 c2 : A → A → Z) (a b : A) : Z :=
  if c1 a b =? 0 then c2 a b else c1 a b.

(** A three-way comparison as the number a comparator returns. *)
Definition toZ (c : comparison) : Z :=
  match c with Lt => -1 | Eq => 0 | Gt => 1 end.

(** The sign a direction gives to a key comparison. *)
Definition sign (d : Direction) : Z :=
  match d with asc => 1 | desc => -1 end.

(** The three-way comparison of two rows on one column, case folded. *)
Definition keyCompare (col : string) (a b : Deal) : comparison :=
  match getField col a, getField col b with
  | Some (VStr x), Some (VStr y) =>
      String.compare (Str.toLowerCase x) (Str.toLowerCase y)
  | Some (VNum m), Some (VNum n) => Z.compare m n
  | _, _ => Eq
  end.

(** A record with every string member lower-cased. *)
Definition foldCase (d : Deal) : Deal :=
  mkDeal (Str.toLowerCase (id d)) (Str.toLowerCase (deal d))
         (Str.toLowerCase (activitiesTimeline d)) (Str.toLowerCase (stage d))
         (dealValue d) (Str.toLowerCase (contacts d))
         (Str.toLowerCase (owner d)) (Str.toLowerCase (accounts d))
         (Str.toLowerCase (expectedClose d)) (forecastValue d).

(** ** Persisted view state *)

(** *** Exceptions *)

(** A computation either returns a value or throws. *)
Inductive outcome (A : Type) :=
  | Returns (a : A)
  | Throws (error : string).
Global Arguments Returns {A} a.
Global Arguments Throws {A} error.

Definition bind {A B} (m : outcome A) (k : A → outcome B) : outcome B :=
  match m with
  | Returns a => k a
  | Throws e => Throws e
  end.

(** [try { body } catch (error) { handler }]. *)
Definition tryCatch {A} (body : outcome A) (handler : string → outcome A) : outcome A :=
  match body with
  | Returns a => Returns a
  | Throws e => handler e
  end.

Global Instance outcome_ret : MRet outcome := λ A a, Returns a.
Global Instance outcome_bind : MBind outcome := λ A B k m, bind m k.

(** *** JSON values and [JSON.parse]

    [JSON.parse] is a built-in of the language.  It is embedded as a
    scanner, one character at a time, followed by a stack parser over the
    tokens; both follow the JSON grammar.  A number keeps its decimal
    digits as mantissa and exponent; a [\u] escape is stored in UTF-8. *)

#[local] Set Warnings "-register-all".

Inductive json :=
  | JNull
  | JBool (b : bool)
  | JNum (mantissa exponent : Z)
  | JStr (s : string)
  | JArr (elements : list json)
  | JObj (members : list (string * json)).

Module Json.

Definition dquote : ascii := ascii_of_N 34.
Definition quoted (s : string) : string :=
  String dquote s +:+ String dquote "".

Inductive token :=
  | TLBrace | TRBrace | TLBracket | TRBracket | TColon | TComma
  | TScalar (v : json).

Definition code (c : ascii) : N := N_of_ascii c.

Definition is_ws (c : ascii) : bool :=
  let n := code c in
  ((n =? 32) || (n =? 9) || (n =? 10) || (n =? 13))%N.

Definition digitVal (c : ascii) : option N :=
  let n := code c in
  if ((48 <=? n) && (n <=? 57))%N then Some (n - 48)%N else None.

Definition hexVal (c : ascii) : option N :=
  let n := code c in
  if ((48 <=? n) && (n <=? 57))%N then Some (n - 48)%N
  else if ((65 <=? n) && (n <=? 70))%N then Some (n - 55)%N
  else if ((97 <=? n) && (n <=? 102))%N then Some (n - 87)%N
  else None.

Definition isNumChar (c : ascii) : bool :=
  match digitVal c with
  | Some _ => true
  | None =>
      match c with
      | "-"%char | "+"%char | "."%char | "e"%char | "E"%char => true
      | _ => false
      end
  end.

(** The leading digits of a string and what follows them. *)
Fixpoint spanDigits (s : string) : list N * string :=
  match s with
  | EmptyString => ([], EmptyString)
  | String c r =>
      match digitVal c with
      | Some d => let '(ds, rest) := spanDigits r in (d :: ds, rest)
      | None => ([], s)
      end
  end.

Definition digitsValue (ds : list N) : Z :=
  fold_left (λ acc d, 10 * acc + Z.of_N d) ds 0.

(** The grammar of a number: an optional minus; the integer part, a
    single 0 or digits that do not start with 0; an optional fraction, a
    point and at least one digit; an optional exponent, e or E, an
    optional sign and at least one digit. *)
Definition parseNumber (s : string) : option json :=
  let '(negative, s1) :=
    match s with
    | String "-"%char r => (true, r)
    | _ => (false, s)
    end in
  let '(intDigits, s2) := spanDigits s1 in
  let intOk :=
    match intDigits with
    | [] => false
    | [_] => true
    | d :: _ => negb (d =? 0)%N
    end in
  let fraction :=
    match s2 with
    | String "."%char r =>
        let '(ds, rest) := spanDigits r in
        match ds with [] => None | _ => Some (ds, rest) end
    | _ => Some ([], s2)
    end in
  match fraction with
  | None => None
  | Some (fracDigits, s3) =>
      let exponent :=
        match s3 with
        | String c r =>
            if bool_decide (c = "e"%char) || bool_decide (c = "E"%char) then
              let '(expNegative, r1) :=
                match r with
                | String "-"%char r' => (true, r')
                | String "+"%char r' => (false, r')
                | _ => (false, r)
                end in
              let '(ds, rest) := spanDigits r1 in
              match ds with
              | [] => None
              | _ => Some ((if expNegative : bool then - digitsValue ds
                            else digitsValue ds), rest)
              end
            else Some (0, s3)
        | EmptyString => Some (0, s3)
        end in
      match exponent with
      | Some (e, EmptyString) =>
          if intOk then
            let m := digitsValue (intDigits ++ fracDigits) in
            Some (JNum (if negative : bool then - m else m)
                       (e - Z.of_nat (length fracDigits)))
          else None
      | _ => None
      end
  end.

(** The UTF-8 bytes of a 16-bit code unit. *)
Definition utf8 (n : N) : string :=
  if (n <? 128)%N then String (ascii_of_N n) ""
  else if (n <? 2048)%N then
    String (ascii_of_N (192 + n / 64))
      (String (ascii_of_N (128 + n mod 64)) "")
  else
    String (ascii_of_N (224 + n / 4096))
      (String (ascii_of_N (128 + (n / 64) mod 64))
         (String (ascii_of_N (128 + n mod 64)) "")).

(** Where the scanner is: between tokens, inside a literal name, a
    number, a string, after a backslash, or inside a [\u] escape.  The
    text read so far is kept reversed. *)
Inductive mode :=
  | LNormal
  | LWord (rest : string) (v : json)
  | LNum (lexeme : string)
  | LStr (text : string)
  | LEsc (text : string)
  | LHex (text : string) (digits : list N).

Definition scanNormal (c : ascii) : option (mode * list token) :=
  if is_ws c then Some (LNormal, [])
  else if bool_decide (c = dquote) then Some (LStr "", [])
  else if isNumChar c then
    match c with
    | "+"%char | "."%char | "e"%char | "E"%char => None
    | _ => Some (LNum (String c ""), [])
    end
  else
    match c with
    | "{"%char => Some (LNormal, [TLBrace])
    | "}"%char => Some (LNormal, [TRBrace])
    | "["%char => Some (LNormal, [TLBracket])
    | "]"%char => Some (LNormal, [TRBracket])
    | ":"%char => Some (LNormal, [TColon])
    | ","%char => Some (LNormal, [TComma])
    | "n"%char => Some (LWord "ull" JNull, [])
    | "t"%char => Some (LWord "rue" (JBool true), [])
    | "f"%char => Some (LWord "alse" (JBool false), [])
    | _ => None
    end.

Definition scanStep (m : mode) (c : ascii) : option (mode * list token) :=
  match m with
  | LNormal => scanNormal c
  | LWord EmptyString _ => None
  | LWord (String e r) v =>
      if bool_decide (c = e) then
        match r with
        | EmptyString => Some (LNormal, [TScalar v])
        | _ => Some (LWord r v, [])
        end
      else None
  | LNum lexeme =>
      if isNumChar c then Some (LNum (String c lexeme), [])
      else
        match parseNumber (String.rev lexeme), scanNormal c with
        | Some v, Some (m', ts) => Some (m', TScalar v :: ts)
        | _, _ => None
        end
  | LStr text =>
      if bool_decide (c = dquote) then
        Some (LNormal, [TScalar (JStr (String.rev text))])
      else if bool_decide (c = "\"%char) then Some (LEsc text, [])
      else if (code c <? 32)%N then None
      else Some (LStr (String c text), [])
  | LEsc text =>
      if bool_decide (c = dquote) then Some (LStr (String c text), [])
      else
        match c with
        | "\"%char | "/"%char => Some (LStr (String c text), [])
        | "b"%char => Some (LStr (String (ascii_of_N 8) text), [])
        | "f"%char => Some (LStr (String (ascii_of_N 12) text), [])
        | "n"%char => Some (LStr (String (ascii_of_N 10) text), [])
        | "r"%char => Some (LStr (String (ascii_of_N 13) text), [])
        | "t"%char => Some (LStr (String (ascii_of_N 9) text), [])
        | "u"%char => Some (LHex text [], [])
        | _ => None
        end
  | LHex text digits =>
      match hexVal c with
      | Some d =>
          match digits with
          | [d1; d2; d3] =>
              let n := (((d1 * 16 + d2) * 16 + d3) * 16 + d)%N in
              Some (LStr (String.rev (utf8 n) +:+ text), [])
          | _ => Some (LHex text (digits ++ [d]), [])
          end
      | None => None
      end
  end.

Fixpoint scan (m : mode) (s : string) : option (list token) :=
  match s with
  | EmptyString =>
      match m with
      | LNormal => Some []
      | LNum lexeme =>
          match parseNumber (String.rev lexeme) with
          | Some v => Some [TScalar v]
          | None => None
          end
      | _ => None
      end
  | String c r =>
      match scanStep m c with
      | Some (m', ts) =>
          match scan m' r with
          | Some rest => Some (ts ++ rest)
          | None => None
          end
      | None => None
      end
  end.

(** An open array or object: what it holds so far, latest first, and
    for an object the key that waits for its value. *)
Inductive frame :=
  | FArr (elements : list json)
  | FObj (members : list (string * json)) (key : option string).

(** Where the parser is: before a value, before a key, before a colon,
    after a value, or done. *)
Inductive pstate :=
  | PValue (stack : list frame) (first : bool)
  | PKey (stack : list frame) (first : bool)
  | PColon (stack : list frame)
  | PAfter (stack : list frame)
  | PDone (v : json).

(** A member set twice keeps its first position and its last value. *)
Fixpoint setMember (k : string) (v : json) (members : list (string * json))
    : list (string * json) :=
  match members with
  | [] => [(k, v)]
  | (k', v') :: rest =>
      if String.eqb k k' then (k, v) :: rest
      else (k', v') :: setMember k v rest
  end.

(** A finished value goes to the enclosing container, or is the result. *)
Definition complete (v : json) (stack : list frame) : option pstate :=
  match stack with
  | [] => Some (PDone v)
  | FArr es :: st => Some (PAfter (FArr (v :: es) :: st))
  | FObj ms (Some k) :: st =>
      Some (PAfter (FObj (setMember k v ms) None :: st))
  | FObj _ None :: _ => None
  end.

Definition parseStep (p : pstate) (t : token) : option pstate :=
  match p, t with
  | PValue st _, TScalar v => complete v st
  | PValue st _, TLBracket => Some (PValue (FArr [] :: st) true)
  | PValue st _, TLBrace => Some (PKey (FObj [] None :: st) true)
  | PValue (FArr [] :: st) true, TRBracket => complete (JArr []) st
  | PKey (FObj ms None :: st) _, TScalar (JStr k) =>
      Some (PColon (FObj ms (Some k) :: st))
  | PKey (FObj _ None :: st) true, TRBrace => complete (JObj []) st
  | PColon st, TColon => Some (PValue st false)
  | PAfter (FArr es :: st), TComma => Some (PValue (FArr es :: st) false)
  | PAfter (FArr es :: st), TRBracket => complete (JArr (rev es)) st
  | PAfter (FObj ms None :: st), TComma =>
      Some (PKey (FObj ms None :: st) false)
  | PAfter (FObj ms None :: st), TRBrace => complete (JObj ms) st
  | _, _ => None
  end.

Fixpoint parseTokens (p : pstate) (ts : list token) : option json :=
  match ts with
  | [] => match p with PDone v => Some v | _ => None end
  | t :: rest =>
      match parseStep p t with
      | Some p' => parseTokens p' rest
      | None => None
      end
  end.

End Json.

(** [JSON.parse(text)]: the value, or a [SyntaxError]. *)
Definition JSON_parse (text : string) : outcome json :=
  match Json.scan Json.LNormal text with
  | Some tokens =>
      match Json.parseTokens (Json.PValue [] false) tokens with
      | Some v => Returns v
      | None => Throws "SyntaxError"
      end
  | None => Throws "SyntaxError"
  end.

(** *** The initial view state *)

(** What the page finds when it starts: whether there is a [window], and
    the storage slot of the table, which may be empty.  Storage that
    refuses to be read makes [getItem] throw. *)
Inductive Storage :=
  | StorageDenied
  | StorageSlot (content : option string).

Record Env := mkEnv {
  hasWindow : bool;
  localStorage : Storage;
}.

Definition getItem (s : Storage) : outcome (option string) :=
  match s with
  | StorageDenied => Throws "SecurityError"
  | StorageSlot content => Returns content
  end.

(** The object literal the initializer returns when nothing is loaded. *)
Definition defaultUIState : json :=
  JObj [
    ("rowSelection", JObj []);
    ("columnConfig", JArr []);
    ("headerValues", JObj []);
    ("selectedTemplates", JArr []);
    ("expandedRows", JArr []);
    ("filters", JObj [
       ("search", JStr "");
       ("stage", JArr []);
       ("owner", JArr []);
       ("dealValueRange", JArr [JNum 0 0; JNum 200000 0]) ]);
    ("sorts", JArr []);
    ("columnWidths", JObj []) ].

(** The [try] block of the initializer: [Some v] is [return v] from
    inside it, [None] is falling out of it. *)
Definition loadSaved (storage : Storage) : outcome (option json) :=
  saved ← getItem storage;
  match saved with
  | Some text =>
      if Str.truthy text then v ← JSON_parse text; mret (Some v)
      else mret None
  | None => mret None
  end.

(** The initializer of [uiState].  What it returns is a run-time value:
    the type annotation [UIState] is not checked. *)
Definition initUIState (env : Env) : outcome json :=
  loaded ←
    (if hasWindow env then
       tryCatch (loadSaved (localStorage env))
                (λ error, (* console.error *) mret None)
     else mret None);
  match loaded with
  | Some v => mret v
  | None => mret defaultUIState
  end.

(** Whether a value has the members of [interface UIState], each of its
    declared kind (objects for the dictionaries, arrays for the lists). *)
Definition member (k : string) (v : json) : option json :=
  match v with
  | JObj ms => snd <$> List.find (λ kv, String.eqb (fst kv) k) ms
  | _ => None
  end.

Definition isObject (o : option json) : bool :=
  match o with Some (JObj _) => true | _ => false end.

Definition isArray (o : option json) : bool :=
  match o with Some (JArr _) => true | _ => false end.

Definition isString (o : option json) : bool :=
  match o with Some (JStr _) => true | _ => false end.

Definition isRange (o : option json) : bool :=
  match o with Some (JArr [JNum _ _; JNum _ _]) => true | _ => false end.

Definition matchesUIState (v : json) : bool :=
  isObject (member "rowSelection" v)
  && isArray (member "columnConfig" v)
  && isObject (member "headerValues" v)
  && isArray (member "selectedTemplates" v)
  && isArray (member "expandedRows" v)
  && match member "filters" v with
     | Some f =>
         isString (member "search" f) && isArray (member "stage" f)
         && isArray (member "owner" f) && isRange (member "dealValueRange" f)
     | None => false
     end
  && isArray (member "sorts" v)
  && isObject (member "columnWidths" v).

(** The text [JSON.stringify] writes for the default view state. *)
Definition defaultUIStateText : string :=
  let q := Json.quoted in
  "{" +:+ q "rowSelection" +:+ ":{}," +:+ q "columnConfig" +:+ ":[],"
  +:+ q "headerValues" +:+ ":{}," +:+ q "selectedTemplates" +:+ ":[],"
  +:+ q "expandedRows" +:+ ":[]," +:+ q "filters" +:+ ":{"
  +:+ q "search" +:+ ":" +:+ q "" +:+ "," +:+ q "stage" +:+ ":[],"
  +:+ q "owner" +:+ ":[]," +:+ q "dealValueRange" +:+ ":[0,200000]},"
  +:+ q "sorts" +:+ ":[]," +:+ q "columnWidths" +:+ ":{}}".

(** ** Columns *)

(** [type Template]. *)
Record Template := mkTemplate {
  t_id : string;
  t_label : string;
  t_description : string;
}.

(** [const availableTemplates]. *)
Definition availableTemplates : list Template := [
  mkTemplate "activitiesTimeline" "Activities Timeline"
    "Timeline of activities and interactions for this deal";
  mkTemplate "stage" "Stage"
    "Current stage of the deal in the sales pipeline";
  mkTemplate "dealValue" "Deal Value" "Total monetary value of the deal";
  mkTemplate "contacts" "Contacts" "Key contacts involved in this deal";
  mkTemplate "owner" "Owner"
    "Sales representative responsible for this deal";
  mkTemplate "accounts" "Accounts" "Account information and classification";
  mkTemplate "expectedClose" "Expected Close"
    "Anticipated closing date for this deal";
  mkTemplate "forecastValue" "Forecast Value"
    "Projected value based on probability and stage"
].

(** [DEFAULT_COLUMN_WIDTHS.template]. *)
Definition DEFAULT_COLUMN_WIDTHS_template : Z := 180.

(** The objects [getDynamicColumns] builds. *)
Record DynamicColumn := mkDynamicColumn {
  dc_id : string;
  dc_label : string;
  dc_width : Z;
}.

(** [a || b] on strings and on numbers: the left operand unless it is
    missing, empty or zero. *)
Definition orString (a : option string) (b : string) : string :=
  match a with
  | Some s => if Str.truthy s then s else b
  | None => b
  end.

Definition orNumber (a : option Z) (b : Z) : Z :=
  match a with
  | Some n => if n =? 0 then b else n
  | None => b
  end.

(** The callback of [selectedTemplates.map] in [getDynamicColumns];
    [None] is the [null] it returns. *)
Definition dynamicColumn (ui : UIState) (templateId : string) : option DynamicColumn :=
  let template :=
    List.find (λ t, bool_decide (t_id t = templateId)) availableTemplates in
  let columnConfigItem :=
    List.find (λ col, bool_decide (col_id col = templateId)) (columnConfig ui) in
  match template with
  | None => None
  | Some t =>
      match columnConfigItem with
      | Some item =>
          if negb (col_visible item) then None
          else Some (mkDynamicColumn templateId
                       (orString (headerValues ui !! templateId) (t_label t))
                       (orNumber (columnWidths ui !! templateId)
                                 DEFAULT_COLUMN_WIDTHS_template))
      | None =>
          Some (mkDynamicColumn templateId
                  (orString (headerValues ui !! templateId) (t_label t))
                  (orNumber (columnWidths ui !! templateId)
                            DEFAULT_COLUMN_WIDTHS_template))
      end
  end.

(** [getDynamicColumns]: the [map] followed by the [filter] that drops
    the [null]s. *)
Definition getDynamicColumns (ui : UIState) : list DynamicColumn :=
  omap (dynamicColumn ui) (selectedTemplates ui).

(** [visibleColumns]. *)
Definition visibleColumns (ui : UIState) : list ColumnConfig :=
  List.filter col_visible (columnConfig ui).

Definition set_columnWidths (v : gmap string Z) (s : UIState) : UIState :=
  mkUIState (rowSelection s) (columnConfig s) (headerValues s)
            (selectedTemplates s) (expandedRows s) (filters s) (sorts s) v.

Definition set_columnConfig (v : list ColumnConfig) (s : UIState) : UIState :=
  mkUIState (rowSelection s) v (headerValues s) (selectedTemplates s)
            (expandedRows s) (filters s) (sorts s) (columnWidths s).

(** [handleColumnResize]. *)
Definition handleColumnResize (columnId : string) (width : Z) (prev : UIState) : UIState :=
  set_columnWidths (<[columnId := width]> (columnWidths prev)) prev.

(** The [width] a header of the static columns is given:
    [columnWidths[col.id] || col.width || DEFAULT_COLUMN_WIDTHS.template]. *)
Definition headerWidth (ui : UIState) (col : ColumnConfig) : Z :=
  orNumber (columnWidths ui !! col_id col)
           (orNumber (col_width col) DEFAULT_COLUMN_WIDTHS_template).

Definition set_visible (v : bool) (c : ColumnConfig) : ColumnConfig :=
  mkColumnConfig (col_id c) (col_label c) v (col_locked c) (col_width c).

(** The new column list of [onColumnToggle]. *)
Definition onColumnToggle (columnId : string) (visible : bool)
    (config : list ColumnConfig) : list ColumnConfig :=
  List.map (λ col, if bool_decide (col_id col = columnId)
                   then set_visible visible col else col) config.

(** [array.splice(start, 1)] on a copy: the removed element, if there is
    one at [start], and what is left. *)
Definition spliceOut {A} (start : nat) (l : list A) : option A * list A :=
  (l !! start, delete start l).

(** [array.splice(start, 0, x)]: [x] goes in at [start], or at the end
    when [start] is past it. *)
Definition spliceIn {A} (start : nat) (x : A) (l : list A) : list A :=
  take start l ++ x :: drop start l.

(** The new column list of [onColumnReorder], for indexes counted from
    the front.  When nothing sits at [fromIndex] the destructured [moved]
    is [undefined], and that is what gets inserted: the members of the
    result are therefore optional. *)
Definition onColumnReorder (fromIndex toIndex : nat)
    (config : list ColumnConfig) : list (option ColumnConfig) :=
  let '(moved, newConfig) := spliceOut fromIndex config in
  spliceIn toIndex moved (Some <$> newConfig).

(** ** Keyboard navigation *)

(** The four values of [direction]. *)
Inductive Arrow := ArrowUp | ArrowDown | ArrowLeft | ArrowRight.

(** [focusedCell]: [{ row, col }]. *)
Record Cell := mkCell { cell_row : Z; cell_col : Z }.

(** The body of [handleKeyboardNavigation] from [let newRow] to
    [setFocusedCell]; [maxRow] and [maxCol] are the two bounds it reads. *)
Definition handleKeyboardNavigation (maxRow maxCol : Z)
    (direction : Arrow) (focusedCell : Cell) : Cell :=
  let newRow := cell_row focusedCell in
  let newCol := cell_col focusedCell in
  match direction with
  | ArrowUp => mkCell (Z.max 0 (cell_row focusedCell - 1)) newCol
  | ArrowDown => mkCell (Z.min maxRow (cell_row focusedCell + 1)) newCol
  | ArrowLeft => mkCell newRow (Z.max 0 (cell_col focusedCell - 1))
  | ArrowRight => mkCell newRow (Z.min maxCol (cell_col focusedCell + 1))
  end.

(** ** Column actions *)

Inductive ColumnAction :=
  | ColSort | ColFilter | ColHide | ColPin | ColMove | ColResize.

(** [handleColumnAction].  The setters [setSorts] and [setColumnConfig]
    it calls are not declared in the file; they are taken to replace the
    [sorts] and the [columnConfig] of the view state, where the rest of the
    component reads them. *)
Definition handleColumnAction (action : ColumnAction) (columnId : string)
    (value : option string) (st : AppState) : AppState :=
  match action with
  | ColSort =>
      match value with
      | Some v =>
          if String.eqb v "asc" then
            mkAppState (tableData st)
              (set_sorts [mkSortState columnId asc] (uiState st))
              ("Sorted by " +:+ columnId +:+ " ascending")
          else if String.eqb v "desc" then
            mkAppState (tableData st)
              (set_sorts [mkSortState columnId desc] (uiState st))
              ("Sorted by " +:+ columnId +:+ " descending")
          else st
      | None => st
      end
  | ColFilter => set_message ("Filtering by " +:+ columnId) st
  | ColHide =>
      mkAppState (tableData st)
        (set_columnConfig
           (List.map (λ col, if bool_decide (col_id col = columnId)
                             then set_visible false col else col)
                     (columnConfig (uiState st)))
           (uiState st))
        ("Hidden " +:+ columnId +:+ " column")
  | ColPin => set_message (columnId +:+ " column pinned") st
  | ColMove =>
      set_message ("Moved " +:+ columnId +:+ " column "
                     +:+ default "undefined" value) st
  | ColResize =>
      match value with
      | Some v =>
          if String.eqb v "auto" || String.eqb v "fit" then
            set_message ("Auto-resized " +:+ columnId +:+ " column") st
          else st
      | None => st
      end
  end.

(** The names an object literal inherits from [Object.prototype].
    [stageMap] and [ownerMap] are object literals, so [stageMap[value]]
    with one of these names finds the inherited member, a function or an
    object and not a string; [lookupOr] is the lookup for every other
    value. *)
Definition Object_prototype_names : list string := [
  "constructor"; "hasOwnProperty"; "isPrototypeOf"; "propertyIsEnumerable";
  "toLocaleString"; "toString"; "valueOf"; "__proto__";
  "__defineGetter__"; "__defineSetter__"; "__lookupGetter__";
  "__lookupSetter__" ].


(** ** Writing the view state *)

(** *** [JSON.stringify]

    The other direction of the built-in: a value is written as its tokens,
    one after the other, without white space.  Numbers are integers and
    are written in plain decimal. *)

Module JsonOut.

(** A hexadecimal digit, in lower case. *)
Definition hexChar (d : N) : ascii :=
  if (d <? 10)%N then ascii_of_N (48 + d) else ascii_of_N (87 + d).

(** How one character of a string is written: the quote and the backslash
    behind a backslash, the control characters by their short escape or as
    [\u00XX], every other character as it is. *)
Definition escapeChar (c : ascii) : string :=
  let n := Json.code c in
  if (n =? 34)%N then String "\"%char (String c "")
  else if (n =? 92)%N then "\\"
  else if (n =? 8)%N then "\b"
  else if (n =? 12)%N then "\f"
  else if (n =? 10)%N then "\n"
  else if (n =? 13)%N then "\r"
  else if (n =? 9)%N then "\t"
  else if (n <? 32)%N then
    "\u00" +:+ String (hexChar (n / 16)) (String (hexChar (n mod 16)) "")
  else String c "".

Fixpoint escape (s : string) : string :=
  match s with
  | EmptyString => EmptyString
  | String c r => escapeChar c +:+ escape r
  end.

Definition quoteString (s : string) : string :=
  String Json.dquote (escape s +:+ String Json.dquote "").

(** The text of one token. *)
Definition printToken (t : Json.token) : string :=
  match t with
  | Json.TLBrace => "{"
  | Json.TRBrace => "}"
  | Json.TLBracket => "["
  | Json.TRBracket => "]"
  | Json.TColon => ":"
  | Json.TComma => ","
  | Json.TScalar JNull => "null"
  | Json.TScalar (JBool true) => "true"
  | Json.TScalar (JBool false) => "false"
  | Json.TScalar (JNum m _) => pretty m
  | Json.TScalar (JStr s) => quoteString s
  | Json.TScalar _ => ""
  end.

Fixpoint printTokens (ts : list Json.token) : string :=
  match ts with
  | [] => ""
  | t :: rest => printToken t +:+ printTokens rest
  end.

(** The elements of an array after the first, each behind a comma. *)
Definition moreElements (f : json → list Json.token) : list json → list Json.token :=
  fix more (xs : list json) : list Json.token :=
    match xs with
    | [] => []
    | x :: rest => Json.TComma :: f x ++ more rest
    end.

(** The members of an object after the first, each behind a comma. *)
Definition moreMembers (f : json → list Json.token) : list (string * json) → list Json.token :=
  fix more (ms : list (string * json)) : list Json.token :=
    match ms with
    | [] => []
    | kv :: rest =>
        Json.TComma :: Json.TScalar (JStr (fst kv)) :: Json.TColon
          :: f (snd kv) ++ more rest
    end.

(** The tokens of a value. *)
Fixpoint tokens (v : json) : list Json.token :=
  match v with
  | JArr [] => [Json.TLBracket; Json.TRBracket]
  | JArr (x :: rest) =>
      Json.TLBracket :: tokens x ++ moreElements tokens rest
        ++ [Json.TRBracket]
  | JObj [] => [Json.TLBrace; Json.TRBrace]
  | JObj (kv :: rest) =>
      Json.TLBrace :: Json.TScalar (JStr (fst kv)) :: Json.TColon
        :: tokens (snd kv) ++ moreMembers tokens rest ++ [Json.TRBrace]
  | scalar => [Json.TScalar scalar]
  end.

End JsonOut.

(** [JSON.stringify(value)]. *)
Definition JSON_stringify (v : json) : string :=
  JsonOut.printTokens (JsonOut.tokens v).

(** *** Values that are written and read back *)

(** The values [JSON.stringify] writes in the form modelled here, and
    that a JS object can be: numbers are integers of at most 21 digits,
    and no object has a key twice. *)
Fixpoint printable (v : json) : Prop :=
  match v with
  | JNum m e => e = 0 ∧ Z.abs m < 10 ^ 21
  | JArr xs =>
      (fix all (xs : list json) : Prop :=
         match xs with
         | [] => True
         | x :: rest => printable x ∧ all rest
         end) xs
  | JObj ms =>
      NoDup (fst <$> ms)
      ∧ (fix all (ms : list (string * json)) : Prop :=
           match ms with
           | [] => True
           | kv :: rest => printable (snd kv) ∧ all rest
           end) ms
  | _ => True
  end.

(** Running the scanner over text that completes no token. *)
Fixpoint quiet (m : Json.mode) (s : string) : option Json.mode :=
  match s with
  | EmptyString => Some m
  | String c r =>
      match Json.scanStep m c with
      | Some (m', []) => quiet m' r
      | _ => None
      end
  end.

(** Text in front of which a number ends: the end of the input, or a
    character that cannot continue a number. *)
Definition endsNumber (s : string) : Prop :=
  match s with
  | EmptyString => True
  | String c _ => Json.isNumChar c = false
  end.

(** The text of a list of decimal digits. *)
Fixpoint digitsString (ds : list N) : string :=
  match ds with
  | [] => EmptyString
  | d :: rest => String (pretty_N_char d) (digitsString rest)
  end.

(** The scanner reads the text of a value back into its tokens, whatever
    text follows that its own scanning accepts. *)
Definition scansBack (v : json) : Prop :=
  printable v → ∀ rest tr,
    endsNumber rest → Json.scan Json.LNormal rest = Some tr →
    Json.scan Json.LNormal (JsonOut.printTokens (JsonOut.tokens v) +:+ rest)
    = Some (JsonOut.tokens v ++ tr).

(** The parser turns the tokens of a value back into the value, as the
    next value of whatever it was in the middle of. *)
Definition parsesBack (v : json) : Prop :=
  printable v → ∀ stack first rest,
    Json.parseTokens (Json.PValue stack first) (JsonOut.tokens v ++ rest)
    = match Json.complete v stack with
      | Some p => Json.parseTokens p rest
      | None => None
      end.

(** *** The view state as [JSON.stringify] sees it *)

(** A dictionary is written with its members in the order the map
    enumerates them. *)
Definition encodeMap {V} (f : V → json) (m : gmap string V) : json :=
  JObj ((λ kv, (fst kv, f (snd kv))) <$> map_to_list m).

Definition encodeStrings (l : list string) : json := JArr (JStr <$> l).

Definition encodeNumber (n : Z) : json := JNum n 0.

(** An optional member that is [undefined] is left out. *)
Definition optionalMember {V} (k : string) (f : V → json) (o : option V)
    : list (string * json) :=
  match o with
  | Some x => [(k, f x)]
  | None => []
  end.

Definition encodeColumnConfig (c : ColumnConfig) : json :=
  JObj ([("id", JStr (col_id c)); ("label", JStr (col_label c));
         ("visible", JBool (col_visible c))]
        ++ optionalMember "locked" JBool (col_locked c)
        ++ optionalMember "width" encodeNumber (col_width c)).

Definition encodeFilters (f : FilterState) : json :=
  JObj [("search", JStr (search f));
        ("stage", encodeStrings (f_stage f));
        ("owner", encodeStrings (f_owner f));
        ("dealValueRange",
         JArr [encodeNumber (fst (dealValueRange f));
               encodeNumber (snd (dealValueRange f))])].

Definition encodeSort (s : SortState) : json :=
  JObj [("column", JStr (column s));
        ("direction", JStr (match direction s with
                            | asc => "asc"
                            | desc => "desc"
                            end))].

Definition encodeUIState (ui : UIState) : json :=
  JObj [("rowSelection", encodeMap JBool (rowSelection ui));
        ("columnConfig", JArr (encodeColumnConfig <$> columnConfig ui));
        ("headerValues", encodeMap JStr (headerValues ui));
        ("selectedTemplates", encodeStrings (selectedTemplates ui));
        ("expandedRows", encodeStrings (expandedRows ui));
        ("filters", encodeFilters (filters ui));
        ("sorts", JArr (encodeSort <$> sorts ui));
        ("columnWidths", encodeMap encodeNumber (columnWidths ui))].

(** The numbers a view state holds. *)
Definition numbersOf (ui : UIState) : list Z :=
  (snd <$> map_to_list (columnWidths ui))
  ++ omap col_width (columnConfig ui)
  ++ [fst (dealValueRange (filters ui)); snd (dealValueRange (filters ui))].

(** *** [saveUIState] *)

(** [localStorage.setItem]: it throws when the storage refuses access and
    when the text does not fit the room that is left. *)
Definition setItem (s : Storage) (capacity : option nat) (text : string)
    : outcome Storage :=
  match s with
  | StorageDenied => Throws "SecurityError"
  | StorageSlot _ =>
      match capacity with
      | Some room =>
          if (room <? String.length text)%nat
          then Throws "QuotaExceededError"
          else Returns (StorageSlot (Some text))
      | None => Returns (StorageSlot (Some text))
      end
  end.

(** [saveUIState]: the new state and what the storage holds afterwards. *)
Definition saveUIState (updater : UIState → UIState) (capacity : option nat)
    (env : Env) (prevState : UIState) : outcome (UIState * Env) :=
  let newState := updater prevState in
  env' ←
    (if hasWindow env then
       tryCatch
         (s ← setItem (localStorage env) capacity
                (JSON_stringify (encodeUIState newState));
          mret (mkEnv (hasWindow env) s))
         (λ error, (* console.error *) mret env)
     else mret env);
  mret (newState, env').

(** ** The contacts cell *)

(** [s.split(", ")]: the pieces between the occurrences of the separator,
    found from the left; [piece] is the piece being read, reversed. *)
Fixpoint split_go (s : string) (piece : string) : list string :=
  match s with
  | EmptyString => [String.rev piece]
  | String c r =>
      match r with
      | String c' r' =>
          if bool_decide (c = ","%char) && bool_decide (c' = " "%char)
          then String.rev piece :: split_go r' ""
          else split_go r (String c piece)
      | EmptyString => split_go r (String c piece)
      end
  end.

Definition split_contacts (s : string) : list string := split_go s "".

(** [contacts.join(", ")]. *)
Fixpoint join_contacts (l : list string) : string :=
  match l with
  | [] => ""
  | [x] => x
  | x :: rest => x +:+ ", " +:+ join_contacts rest
  end.
(** * Properties *)

(** ** Strings *)

Lemma startsWith_spec p s :
  Str.startsWith p s = true ↔ ∃ post, s = p +:+ post.
Proof.
  revert s. induction p as [|a p IH]; intros s; simpl.
  - split; [intros _; by exists s | done].
  - destruct s as [|b s]; simpl.
    + split; [done | intros [post ?]; discriminate].
    + rewrite andb_true_iff, bool_decide_eq_true, IH. split.
      * intros [-> [post ->]]. by exists post.
      * intros [post [= -> ->]]. eauto.
Qed.

Lemma includes_spec s p :
  Str.includes s p = true ↔ Str.substring_of p s.
Proof.
  unfold Str.substring_of. induction s as [|c s IH].
  - simpl. rewrite orb_false_r, startsWith_spec. split.
    + intros [post ->]. by exists "", post.
    + intros [[|? pre] [post Heq]]; simpl in Heq; [eauto | discriminate].
  - cbn [Str.includes]. rewrite orb_true_iff, startsWith_spec, IH. split.
    + intros [[post ->] | (pre & post & ->)].
      * by exists "", post.
      * by exists (String c pre), post.
    + intros ([|c' pre] & post & Heq); simpl in Heq.
      * left. eauto.
      * right. injection Heq as -> ->. eauto.
Qed.

Lemma truthy_spec s : Str.truthy s = false ↔ s = "".
Proof.
  unfold Str.truthy. rewrite negb_false_iff. apply bool_decide_eq_true.
Qed.

(** ** Filter *)

Lemma length_pos_false {A} (l : list A) :
  (0 <? Z.of_nat (length l)) = false ↔ l = [].
Proof.
  destruct l; simpl; [done|]. split; [|done].
  intros H. apply Z.ltb_ge in H. lia.
Qed.

Lemma set_guard_spec (l : list string) (x : string) :
  negb ((0 <? Z.of_nat (length l)) && negb (arr_includes l x)) = true
  ↔ l = [] ∨ x ∈ l.
Proof.
  rewrite negb_true_iff, andb_false_iff, length_pos_false, negb_false_iff.
  unfold arr_includes. by rewrite bool_decide_eq_true.
Qed.

Lemma search_guard_spec (q : string) (fields : list string) :
  (if Str.truthy q
   then some (λ field, Str.includes (Str.toLowerCase field)
                                    (Str.toLowerCase q)) fields
   else true) = true
  ↔ q = "" ∨ ∃ field, field ∈ fields ∧
       Str.substring_of (Str.toLowerCase q) (Str.toLowerCase field).
Proof.
  destruct (Str.truthy q) eqn:Hq.
  - unfold some. rewrite existsb_exists. split.
    + intros (field & Hin & Hinc). right. exists field.
      by rewrite list_elem_of_In, <-includes_spec.
    + intros [-> | (field & Hin & Hsub)]; [done|].
      exists field. by rewrite <-list_elem_of_In, includes_spec.
  - apply truthy_spec in Hq. tauto.
Qed.

Lemma passesFilters_spec f d :
  passesFilters f d = true ↔
    (search f = "" ∨
     ∃ field, field ∈ [deal d; owner d; accounts d; contacts d] ∧
       Str.substring_of (Str.toLowerCase (search f)) (Str.toLowerCase field))
    ∧ (f_stage f = [] ∨ stage d ∈ f_stage f)
    ∧ (f_owner f = [] ∨ owner d ∈ f_owner f)
    ∧ fst (dealValueRange f) ≤ dealValue d ≤ snd (dealValueRange f).
Proof.
  unfold passesFilters.
  rewrite !andb_true_iff, search_guard_spec, !set_guard_spec.
  rewrite negb_true_iff, orb_false_iff, !Z.ltb_ge. tauto.
Qed.

(** C1.  A record is in the filtered output exactly when it is a record of
    the store for which: the search string is empty or, lower-cased, a
    substring of the lower-cased title, owner, account or contacts string;
    the stage list is empty or holds its stage; the owner list is empty or
    holds its owner; and its value lies in the inclusive range.  On the
    records with ids 1 and 2 (values 125000 and 85000) and the range
    [100000, 200000] only id 1 passes. *)
Theorem filteredData_spec :
  (∀ (f : FilterState) (data : list Deal) (d : Deal),
     d ∈ filteredData f data ↔
       d ∈ data
       ∧ (search f = "" ∨
          ∃ field, field ∈ [deal d; owner d; accounts d; contacts d] ∧
            Str.substring_of (Str.toLowerCase (search f))
                             (Str.toLowerCase field))
       ∧ (f_stage f = [] ∨ stage d ∈ f_stage f)
       ∧ (f_owner f = [] ∨ owner d ∈ f_owner f)
       ∧ fst (dealValueRange f) ≤ dealValue d ≤ snd (dealValueRange f))
  ∧ id <$> filteredData (mkFilterState "" [] [] (100000, 200000))
                        (take 2 mockData) = ["1"].
Proof.
  split; [|reflexivity].
  intros f data d. unfold filteredData.
  rewrite list_elem_of_In, filter_In, <-list_elem_of_In, passesFilters_spec.
  tauto.
Qed.

(** ** Header-click sort toggle *)

Lemma sortState_None columnId (l : list SortState) :
  sortState columnId l = None ↔ columnId ∉ column <$> l.
Proof.
  unfold sortState. induction l as [|s l IH]; simpl.
  - split; [intros _; apply not_elem_of_nil | done].
  - rewrite not_elem_of_cons. case_bool_decide as Hs.
    + split; [done | intros [Hne _]; by destruct Hne].
    + rewrite IH. split; [by split | by intros [_ ?]].
Qed.

Lemma sortState_Some columnId (l : list SortState) e :
  sortState columnId l = Some e → e ∈ l ∧ column e = columnId.
Proof.
  unfold sortState. intros H. apply find_some in H as [Hin He].
  apply bool_decide_eq_true in He. by rewrite list_elem_of_In.
Qed.

Lemma others_app_new columnId d (l : list SortState) :
  List.filter (otherColumn columnId) (l ++ [mkSortState columnId d])
  = List.filter (otherColumn columnId) l.
Proof.
  rewrite List.filter_app. simpl. unfold otherColumn at 2. simpl.
  rewrite bool_decide_eq_true_2 by done. apply app_nil_r.
Qed.

Lemma others_flip columnId (l : list SortState) :
  List.filter (otherColumn columnId)
    (List.map (λ s, if bool_decide (column s = columnId)
                    then mkSortState (column s) desc else s) l)
  = List.filter (otherColumn columnId) l.
Proof.
  induction l as [|s l IH]; [done|].
  cbn [List.map List.filter]. rewrite IH.
  unfold otherColumn.
  by destruct (bool_decide (column s = columnId)) eqn:Hs; simpl; rewrite ?Hs.
Qed.

Lemma others_idem columnId (l : list SortState) :
  List.filter (otherColumn columnId) (List.filter (otherColumn columnId) l)
  = List.filter (otherColumn columnId) l.
Proof.
  induction l as [|s l IH]; simpl; [done|].
  destruct (otherColumn columnId s) eqn:Hs; simpl; [|done].
  by rewrite Hs, IH.
Qed.

Lemma removed_absent columnId (l : list SortState) :
  columnId ∉ column <$> List.filter (otherColumn columnId) l.
Proof.
  intros (s & Hc & Hin)%list_elem_of_fmap.
  apply list_elem_of_In, filter_In in Hin as [_ Hs].
  unfold otherColumn in Hs. apply negb_true_iff, bool_decide_eq_false in Hs.
  by apply Hs.
Qed.

Lemma flip_lookup columnId (l : list SortState) (i : nat) :
  List.map (λ s, if bool_decide (column s = columnId)
                 then mkSortState (column s) desc else s) l !! i
  = (λ s, if bool_decide (column s = columnId)
          then mkSortState (column s) desc else s) <$> l !! i.
Proof. apply list_lookup_fmap. Qed.

(** C2.  A click on a column header changes the sort specification as
    follows.  A column that is absent is appended, ascending, as the last
    (lowest-precedence) key.  A column whose entry is ascending keeps its
    position and becomes descending, every other position being left as it
    was.  A column whose entry is descending is no longer present
    afterwards.  In all three cases the entries of the other columns are
    the same, in the same order, and nothing else of the view state
    changes. *)
Theorem handleSort_spec (columnId : string) (prev : UIState) :
  let old := sorts prev in
  let new := sorts (handleSort columnId prev) in
  handleSort columnId prev = set_sorts new prev
  ∧ (columnId ∉ column <$> old → new = old ++ [mkSortState columnId asc])
  ∧ (sortState columnId old = Some (mkSortState columnId asc) →
       length new = length old
       ∧ ∀ i s, old !! i = Some s →
           new !! i = Some (if bool_decide (column s = columnId)
                            then mkSortState columnId desc else s))
  ∧ (sortState columnId old = Some (mkSortState columnId desc) →
       columnId ∉ column <$> new)
  ∧ List.filter (otherColumn columnId) new
    = List.filter (otherColumn columnId) old.
Proof.
  intros old new. split; [reflexivity|].
  assert (new = toggleSort columnId old) as -> by reflexivity.
  clearbody old.
  unfold toggleSort. fold (sortState columnId old) (otherColumn columnId).
  destruct (sortState columnId old) as [e|] eqn:He.
  - pose proof (sortState_Some _ _ _ He) as [_ Hcol].
    split; [|split; [|split]]; try done.
    + intros Habs. apply sortState_None in Habs. congruence.
    + intros [= ->]. simpl. split; [apply length_map|].
      intros i s Hi. rewrite flip_lookup, Hi. simpl.
      case_bool_decide; by subst.
    + intros [= ->]. simpl. apply removed_absent.
    + destruct (decide (direction e = asc));
        [apply others_flip | apply others_idem].
  - split; [|split; [|split]]; try done. apply others_app_new.
Qed.

(** The three cases of a header click on a two-key specification. *)
Lemma handleSort_spec_witness :
  let st l := mkUIState ∅ [] ∅ [] [] noFilters l ∅ in
  let owner_asc := mkSortState "owner" asc in
  sorts (handleSort "stage" (st [owner_asc]))
    = [owner_asc; mkSortState "stage" asc]
  ∧ sorts (handleSort "stage" (st [owner_asc; mkSortState "stage" asc])) !! 1%nat
    = Some (mkSortState "stage" desc)
  ∧ "stage" ∉ column <$>
      sorts (handleSort "stage" (st [owner_asc; mkSortState "stage" desc])).
Proof.
  intros st owner_asc. split; [|split].
  - apply (handleSort_spec "stage" (st [owner_asc])). vm_compute.
    intros H. by repeat (inversion H as [|?? ? H']; clear H; rename H' into H).
  - destruct (handleSort_spec "stage"
                (st [owner_asc; mkSortState "stage" asc])) as (_ & _ & H & _). destruct H as [_ H]; [reflexivity|].
    apply (H 1%nat (mkSortState "stage" asc)). reflexivity.
  - apply (handleSort_spec "stage" (st [owner_asc; mkSortState "stage" desc])).
    reflexivity.
Defined.

(** ** Selection *)

Lemma selectRows_fold_lookup (rows : list Deal) (acc : gmap string bool) k :
  fold_left (λ acc row, <[id row := true]> acc) rows acc !! k
  = if decide (k ∈ id <$> rows) then Some true else acc !! k.
Proof.
  revert acc. induction rows as [|r rows IH]; intros acc.
  - done.
  - cbn [fold_left]. rewrite fmap_cons, IH.
    destruct (decide (k ∈ id <$> rows)) as [Hin|Hout].
    + rewrite decide_True; [done | by right].
    + destruct (decide (k = id r)) as [->|Hne].
      * rewrite decide_True by left. apply lookup_insert_eq.
      * rewrite decide_False by (rewrite not_elem_of_cons; done).
        by apply lookup_insert_ne.
Qed.

Lemma selectRows_lookup (rows : list Deal) k :
  selectRows rows !! k = if decide (k ∈ id <$> rows) then Some true else None.
Proof. unfold selectRows. by rewrite selectRows_fold_lookup, lookup_empty. Qed.

Lemma every_spec {A} (p : A → bool) (l : list A) :
  every p l = true ↔ ∀ x, x ∈ l → p x = true.
Proof.
  unfold every. rewrite forallb_forall.
  by setoid_rewrite list_elem_of_In.
Qed.

Lemma selectRows_all (rows : list Deal) :
  every (λ row, isSelected (selectRows rows) (id row)) rows = true.
Proof.
  apply every_spec. intros r Hr. unfold isSelected.
  rewrite selectRows_lookup, decide_True; [done|].
  apply list_elem_of_fmap. eauto.
Qed.

Lemma none_selected_in_empty (rows : list Deal) :
  every (λ row, isSelected ∅ (id row)) rows = true ↔ rows = [].
Proof.
  destruct rows as [|r rows]; [done|]. split; [|done].
  simpl. unfold isSelected at 1. by rewrite lookup_empty.
Qed.

Lemma selectRows_nil_iff (rows : list Deal) : selectRows rows = ∅ ↔ rows = [].
Proof.
  split; [|by intros ->].
  destruct rows as [|r rows]; [done|]. intros H.
  apply (f_equal (λ m : gmap string bool, m !! id r)) in H.
  rewrite selectRows_lookup, lookup_empty, decide_True in H; [done | left].
Qed.

(** C3.  The select-all toggle over the visible rows: when every visible
    row is selected the new selection map is empty, so no visible row is
    selected any more; otherwise every visible row is mapped to [true] (and
    the map holds no other key).  Changing or clearing the filters leaves
    the selection map as it was. *)
Theorem handleSelectAll_spec (rows : list Deal) (prev : UIState) :
  let sel := rowSelection prev in
  let new := rowSelection (handleSelectAll rows prev) in
  ((∀ r, r ∈ rows → isSelected sel (id r) = true) →
     new = ∅ ∧ ∀ r, r ∈ rows → isSelected new (id r) = false)
  ∧ (¬ (∀ r, r ∈ rows → isSelected sel (id r) = true) →
       (∀ r, r ∈ rows → new !! id r = Some true)
       ∧ ∀ k, k ∉ id <$> rows → new !! k = None)
  ∧ (∀ newFilters,
       rowSelection (onFiltersChange newFilters prev) = sel)
  ∧ rowSelection (onClearFilters prev) = sel.
Proof.
  intros sel new. subst new. unfold handleSelectAll. simpl. fold sel.
  split; [|split; [|done]].
  - intros Hall. apply (every_spec (λ row, isSelected sel (id row))) in Hall.
    rewrite Hall. split; [done|]. intros r _. unfold isSelected.
    by rewrite lookup_empty.
  - intros Hnot.
    destruct (every (λ row, isSelected sel (id row)) rows) eqn:Hev.
    { destruct Hnot. by apply (every_spec (λ row, isSelected sel (id row))). }
    split.
    + intros r Hr. rewrite selectRows_lookup, decide_True; [done|].
      apply list_elem_of_fmap. eauto.
    + intros k Hk. by rewrite selectRows_lookup, decide_False.
Qed.

(** Both branches of the select-all toggle on the first two seed rows. *)
Lemma handleSelectAll_spec_witness :
  let rows := take 2 mockData in
  let st sel := mkUIState sel [] ∅ [] [] noFilters [] ∅ in
  rowSelection (handleSelectAll rows
                  (st {[ "1" := true; "2" := true; "3" := true ]})) = ∅
  ∧ rowSelection (handleSelectAll rows (st {[ "3" := true ]})) !! "2"
    = Some true.
Proof.
  intros rows st. split.
  - apply (handleSelectAll_spec rows
             (st {[ "1" := true; "2" := true; "3" := true ]})).
    intros r Hr. unfold rows in Hr. simpl in Hr.
    apply elem_of_cons in Hr as [->|Hr]; [reflexivity|].
    apply elem_of_cons in Hr as [->|Hr]; [reflexivity|].
    by apply elem_of_nil in Hr.
  - destruct (handleSelectAll_spec rows (st {[ "3" := true ]}))
      as (_ & H & _).
    destruct H as [H _].
    + intros Hall. specialize (Hall (mkDeal "1" "Enterprise Software License"
        "" "Proposal" 125000 "John Smith, Mary Johnson" "Alex Chen"
        "TechCorp Inc. - Enterprise" "2024-03-15" 112500)).
      discriminate Hall. left.
    + apply (H (mkDeal "2" "Cloud Migration Project" "" "Negotiation" 85000
        "Sarah Johnson, Mike Davis, Lisa Wong" "Sam Wilson"
        "DataFlow Systems - Mid-Market" "2024-02-28" 76500)).
      right. left.
Defined.

Lemma set_rowSelection_inj v (s : UIState) :
  set_rowSelection v s = s ↔ v = rowSelection s.
Proof.
  destruct s; unfold set_rowSelection; simpl. split; [by intros [= ->] | by intros ->].
Qed.

Lemma handleSelectAll_twice_value (rows : list Deal) (prev : UIState) :
  rowSelection (handleSelectAll rows (handleSelectAll rows prev))
  = if every (λ row, isSelected (rowSelection prev) (id row)) rows
    then selectRows rows else ∅.
Proof.
  unfold handleSelectAll. simpl.
  destruct (every (λ row, isSelected (rowSelection prev) (id row)) rows).
  - destruct (every (λ row, isSelected ∅ (id row)) rows) eqn:Hev; [|done].
    apply none_selected_in_empty in Hev. by subst.
  - by rewrite selectRows_all.
Qed.

(** C4 as the code has it.  Two clicks on select-all over the same visible
    rows change nothing but the selection map.  They bring the map back to
    its prior value exactly when that prior value is empty or is the map
    that selects precisely the visible rows.  From every prior selection
    the result is determined: it is the empty map when some visible row was
    not selected, and the map that selects the visible rows alone when all
    of them were; so a selection of rows that are not visible, and a
    partial selection of the visible ones, is lost. *)
Theorem handleSelectAll_twice (rows : list Deal) (prev : UIState) :
  (handleSelectAll rows (handleSelectAll rows prev) = prev
   ↔ rowSelection prev = ∅ ∨ rowSelection prev = selectRows rows)
  ∧ handleSelectAll rows (handleSelectAll rows prev)
    = set_rowSelection
        (rowSelection (handleSelectAll rows (handleSelectAll rows prev))) prev
  ∧ ((∃ row, row ∈ rows ∧ isSelected (rowSelection prev) (id row) = false) →
     rowSelection (handleSelectAll rows (handleSelectAll rows prev)) = ∅)
  ∧ ((∀ row, row ∈ rows → isSelected (rowSelection prev) (id row) = true) →
     rowSelection (handleSelectAll rows (handleSelectAll rows prev))
     = selectRows rows)
  ∧ (rowSelection (handleSelectAll rows (handleSelectAll rows prev)) = ∅
     ∨ rowSelection (handleSelectAll rows (handleSelectAll rows prev))
       = selectRows rows)
  ∧ ∀ k, rowSelection (handleSelectAll rows (handleSelectAll rows prev)) !! k
         = if every (λ row, isSelected (rowSelection prev) (id row)) rows
              && bool_decide (k ∈ id <$> rows)
           then Some true else None.
Proof.
  assert (handleSelectAll rows (handleSelectAll rows prev)
          = set_rowSelection
              (rowSelection (handleSelectAll rows (handleSelectAll rows prev)))
              prev) as Hframe by (by destruct prev).
  pose proof (handleSelectAll_twice_value rows prev) as Hvalue.
  split; [|split; [done|]].
  { rewrite Hframe at 1. rewrite set_rowSelection_inj, Hvalue.
    destruct (every (λ row, isSelected (rowSelection prev) (id row)) rows) eqn:Hev.
    - split; [intros <-; by right|].
      intros [Hemp| ->]; [|done]. rewrite Hemp in Hev.
      apply none_selected_in_empty in Hev. by subst.
    - split; [intros <-; by left|].
      intros [->| Hsel]; [done|]. rewrite Hsel, selectRows_all in Hev. done. }
  rewrite Hvalue.
  destruct (every (λ row, isSelected (rowSelection prev) (id row)) rows) eqn:Hev.
  - split; [|split; [done|split; [by right|]]].
    + intros (row & Hrow & Hsel). rewrite every_spec in Hev.
      rewrite (Hev row Hrow) in Hsel. done.
    + intros k. rewrite selectRows_lookup. simpl.
      by destruct (decide (k ∈ id <$> rows));
        [rewrite bool_decide_eq_true_2 | rewrite bool_decide_eq_false_2].
  - split; [done|split; [|split; [by left|]]].
    + intros Hall. apply every_spec in Hall. by rewrite Hall in Hev.
    + intros k. by rewrite lookup_empty.
Qed.

Lemma handleSelectAll_twice_witness :
  let st := mkUIState ∅ [] ∅ [] [] noFilters [] ∅ in
  handleSelectAll mockData (handleSelectAll mockData st) = st.
Proof.
  intros st.
  apply (proj1 (handleSelectAll_twice mockData st)). by left.
Defined.

(** C4 as stated fails: with row 1 selected and rows 1 and 2 visible, the
    first click selects both rows and the second one clears the map, so
    row 1 is no longer selected. *)
Lemma handleSelectAll_twice_counterexample :
  let st := mkUIState {[ "1" := true ]} [] ∅ [] [] noFilters [] ∅ in
  let rows := take 2 mockData in
  rowSelection (handleSelectAll rows (handleSelectAll rows st)) = ∅
  ∧ handleSelectAll rows (handleSelectAll rows st) ≠ st.
Proof.
  intros st rows.
  assert (rowSelection (handleSelectAll rows (handleSelectAll rows st)) = ∅)
    as Hempty by (by rewrite handleSelectAll_twice_value).
  split; [done|]. intros Heq. rewrite Heq in Hempty.
  apply (f_equal (λ m : gmap string bool, m !! "1")) in Hempty.
  discriminate Hempty.
Qed.

(** ** Bulk delete *)

Lemma Object_keys_spec {V} (o : gmap string V) k :
  k ∈ Object_keys o ↔ is_Some (o !! k).
Proof.
  unfold Object_keys. rewrite list_elem_of_fmap. split.
  - intros ([k' v] & -> & Hin). apply elem_of_map_to_list in Hin. eauto.
  - intros [v Hv]. exists (k, v). split; [done|].
    by apply elem_of_map_to_list.
Qed.

Lemma Object_keys_length {V} (o : gmap string V) :
  length (Object_keys o) = size o.
Proof. unfold Object_keys. by rewrite length_fmap, length_map_to_list. Qed.

(** What the [delete] case of [handleBulkAction] does in general: it
    drops the records whose id is a key of the selection map, whatever
    that key is mapped to, empties the map and reports the number of
    keys. *)
Lemma handleBulkAction_delete (value : option string) (st : AppState) :
  let st' := handleBulkAction BulkDelete value st in
  let n := size (rowSelection (uiState st)) in
  (∀ d, d ∈ tableData st' ↔
          d ∈ tableData st ∧ rowSelection (uiState st) !! id d = None)
  ∧ uiState st' = set_rowSelection ∅ (uiState st)
  ∧ announcementMessage st' = "Deleted " +:+ pretty n +:+ " " +:+ plural n.
Proof.
  simpl. rewrite Object_keys_length. split; [|done].
  intros d. rewrite list_elem_of_In, filter_In, <-list_elem_of_In.
  unfold arr_includes. rewrite negb_true_iff, bool_decide_eq_false.
  by rewrite Object_keys_spec, <-eq_None_not_Some.
Qed.

(** C5 on the code.  With rows 1 and 2 in the store, row 1 ticked and
    row 2 ticked and then unticked, one row counts as selected; the bulk
    delete nevertheless removes both rows and announces two. *)
Theorem handleBulkAction_delete_unticked :
  let ui0 := mkUIState ∅ [] ∅ [] [] noFilters [] ∅ in
  let ui := handleSelectRow "2" (handleSelectRow "2" (handleSelectRow "1" ui0)) in
  let st := mkAppState (take 2 mockData) ui "" in
  let st' := handleBulkAction BulkDelete None st in
  rowSelection ui = {[ "1" := true; "2" := false ]}
  ∧ selectedCount (rowSelection ui) = 1%nat
  ∧ tableData st' = []
  ∧ announcementMessage st' = "Deleted 2 deals".
Proof.
  intros ui0 ui st st'.
  assert (rowSelection ui = {[ "1" := true; "2" := false ]}) as Hsel.
  { by vm_compute. }
  split; [done|]. split; [by vm_compute|]. by vm_compute.
Qed.

(** ** Row delete *)

(** C10.  The row-level delete keeps exactly the records with another id,
    in their order, and leaves the view state untouched: the entry of the
    deleted id in the selection map and its membership in the expanded
    rows are what they were.  The bulk delete, in contrast, empties the
    selection map. *)
Theorem handleRowAction_delete_frame
    (dealId : string) (value : option string) (now : N) (st : AppState) :
  let st' := handleRowAction RowDelete dealId value now st in
  (∀ d, d ∈ tableData st' ↔ d ∈ tableData st ∧ id d ≠ dealId)
  ∧ sublist (tableData st') (tableData st)
  ∧ uiState st' = uiState st
  ∧ rowSelection (uiState st') !! dealId = rowSelection (uiState st) !! dealId
  ∧ (dealId ∈ expandedRows (uiState st') ↔ dealId ∈ expandedRows (uiState st))
  ∧ rowSelection (uiState (handleBulkAction BulkDelete value st)) = ∅.
Proof.
  simpl. split; [|split; [|done]].
  - intros d. rewrite list_elem_of_In, filter_In, <-list_elem_of_In.
    by rewrite negb_true_iff, bool_decide_eq_false.
  - induction (tableData st) as [|d l IH]; simpl; [done|].
    destruct (negb _); by constructor.
Qed.

(** ** Duplicate *)

Lemma str_app_cons (x : ascii) (a b : string) :
  String x a +:+ b = String x (a +:+ b).
Proof. reflexivity. Qed.

Lemma str_app_nil (b : string) : "" +:+ b = b.
Proof. reflexivity. Qed.

Lemma str_app_assoc (a b c : string) : (a +:+ b) +:+ c = a +:+ b +:+ c.
Proof.
  induction a as [|x a IH]; [done|]. by rewrite !str_app_cons, IH.
Qed.

Lemma str_app_length (a b : string) :
  String.length (a +:+ b) = (String.length a + String.length b)%nat.
Proof.
  induction a as [|x a IH]; [done|]. rewrite str_app_cons. simpl.
  by rewrite IH.
Qed.

Lemma noChar_app_mid c (a b : string) : noChar c (a +:+ String c b) = false.
Proof.
  induction a as [|x a IH].
  - rewrite str_app_nil. simpl. by rewrite bool_decide_eq_true_2.
  - rewrite str_app_cons. simpl. rewrite IH. apply andb_false_r.
Qed.

(** A string is split in one way only around the last occurrence of a
    character. *)
Lemma app_sep_inj c (s1 s2 d1 d2 : string) :
  noChar c d1 = true → noChar c d2 = true →
  s1 +:+ String c d1 = s2 +:+ String c d2 → s1 = s2 ∧ d1 = d2.
Proof.
  intros H1 H2. revert s2.
  induction s1 as [|a s1 IH]; intros [|b s2];
    rewrite ?str_app_cons, ?str_app_nil; intros Heq.
  - by injection Heq as ->.
  - injection Heq as -> ->. by rewrite noChar_app_mid in H1.
  - injection Heq as -> <-. by rewrite noChar_app_mid in H2.
  - injection Heq as -> Heq. destruct (IH _ Heq) as [-> ->]. done.
Qed.

Lemma pretty_N_go_noDash (x : N) (s : string) :
  noChar "-" s = true → noChar "-" (pretty_N_go x s) = true.
Proof.
  revert s. induction (N.lt_wf_0 x) as [x _ IH]; intros s Hs.
  destruct (decide (x = 0%N)) as [->|Hx].
  - by rewrite pretty_N_go_0.
  - rewrite pretty_N_go_step by lia. apply IH.
    + apply N.div_lt; lia.
    + cbn. rewrite Hs, andb_true_r.
      unfold pretty_N_char. by repeat case_match.
Qed.

Lemma pretty_N_noDash (x : N) : noChar "-" (pretty x) = true.
Proof.
  unfold pretty, pretty_N. case_decide; [done|].
  by apply pretty_N_go_noDash.
Qed.

Lemma copy_id_split (source p : string) :
  source +:+ "-copy-" +:+ p = (source +:+ "-copy") +:+ String "-" p.
Proof. by rewrite str_app_assoc. Qed.

(** The id of a copy determines both the id it was copied from and the
    clock reading. *)
Lemma copy_id_inj (source1 source2 : string) (stamp1 stamp2 : N) :
  source1 +:+ "-copy-" +:+ pretty stamp1
  = source2 +:+ "-copy-" +:+ pretty stamp2 →
  source1 = source2 ∧ stamp1 = stamp2.
Proof.
  rewrite !copy_id_split. intros Heq.
  apply app_sep_inj in Heq as [Hsrc Hst]; [|apply pretty_N_noDash..].
  apply (inj pretty) in Hst.
  change "-copy" with (String "-" "copy") in Hsrc.
  apply app_sep_inj in Hsrc as [? _]; done.
Qed.

Lemma stampsBelow_mono (lo hi : N) (store : list Deal) :
  (lo ≤ hi)%N → stampsBelow lo store → stampsBelow hi store.
Proof. intros Hle H d source stamp Hd Hid. specialize (H _ _ _ Hd Hid). lia. Qed.

(** No seed id has the form of a copy. *)
Lemma mockData_stampsBelow (now : N) : stampsBelow now mockData.
Proof.
  intros d source stamp Hd Hid. exfalso.
  assert (String.length (id d) = 1%nat) as Hlen.
  { unfold mockData in Hd. repeat (apply elem_of_cons in Hd as [->|Hd]; [done|]).
    by apply elem_of_nil in Hd. }
  rewrite Hid, !str_app_length in Hlen. simpl in Hlen. lia.
Qed.

Lemma find_id_Some dealId (store : list Deal) :
  dealId ∈ id <$> store →
  ∃ original,
    List.find (λ d, bool_decide (id d = dealId)) store = Some original
    ∧ original ∈ store ∧ id original = dealId.
Proof.
  intros (d & -> & Hd)%list_elem_of_fmap.
  destruct (List.find (λ d0, bool_decide (id d0 = id d)) store) as [o|] eqn:Hf.
  - exists o. apply find_some in Hf as [Hin Ho].
    apply bool_decide_eq_true in Ho. by rewrite list_elem_of_In.
  - apply list_elem_of_In in Hd.
    pose proof (find_none _ _ Hf _ Hd) as Hn. simpl in Hn.
    by apply bool_decide_eq_false in Hn.
Qed.

Lemma duplicate_unfold dealId value now st original :
  List.find (λ d, bool_decide (id d = dealId)) (tableData st) = Some original →
  tableData (handleRowAction RowDuplicate dealId value now st)
  = tableData st ++ [copyOf original dealId now].
Proof. intros Hfind. unfold handleRowAction. by rewrite Hfind. Qed.

Lemma copy_fresh original dealId now (store : list Deal) :
  stampsBelow now store → id (copyOf original dealId now) ∉ id <$> store.
Proof.
  intros Hstamps (d & Hd & Hdin)%list_elem_of_fmap. simpl in Hd.
  specialize (Hstamps d dealId now Hdin (eq_sym Hd)). lia.
Qed.

Lemma copy_keeps_NoDup original dealId now (store : list Deal) :
  stampsBelow now store → NoDup (id <$> store) →
  NoDup (id <$> store ++ [copyOf original dealId now]).
Proof.
  intros Hstamps Hnd. rewrite fmap_app. apply NoDup_app. split; [done|].
  split; [|apply NoDup_singleton].
  intros k Hk Hk'. apply list_elem_of_singleton in Hk'. subst k.
  by apply (copy_fresh original dealId now store).
Qed.

Lemma copy_keeps_stamps original dealId now later (store : list Deal) :
  stampsBelow now store → (now < later)%N →
  stampsBelow later (store ++ [copyOf original dealId now]).
Proof.
  intros Hstamps Hlater d source stamp Hd Heq.
  apply elem_of_app in Hd as [Hd|Hd].
  - specialize (Hstamps _ _ _ Hd Heq). lia.
  - apply list_elem_of_singleton in Hd. subst d. simpl in Heq.
    apply copy_id_inj in Heq as [_ <-]. done.
Qed.

(** C6 as the code has it.  For every store, every id of a record of the
    store and every clock reading [now], duplicating appends one record,
    so the store grows by exactly one, whatever ids it holds; the new
    record has the title of the first record with that id followed by
    " (Copy)" and the id [<id>-copy-<now>], and the records that were there
    are kept in place.  Only the freshness of the new id has a proviso:
    if every id of the store that has the form of a copy carries a stamp
    older than [now], the new id collides with no id of the store, ids
    that were pairwise distinct stay so, and the proviso holds again at
    every later clock reading.  The proviso holds of the seed data at
    every clock reading. *)
Theorem duplicate_spec
    (dealId : string) (value : option string) (now : N) (st : AppState) :
  dealId ∈ id <$> tableData st →
  let st' := handleRowAction RowDuplicate dealId value now st in
  (∃ original newDeal,
    List.find (λ d, bool_decide (id d = dealId)) (tableData st) = Some original
    ∧ original ∈ tableData st
    ∧ id original = dealId
    ∧ tableData st' = tableData st ++ [newDeal]
    ∧ length (tableData st') = S (length (tableData st))
    ∧ deal newDeal = deal original +:+ " (Copy)"
    ∧ id newDeal = dealId +:+ "-copy-" +:+ pretty now
    ∧ (stampsBelow now (tableData st) →
       (id newDeal ∉ id <$> tableData st)
       ∧ (NoDup (id <$> tableData st) → NoDup (id <$> tableData st'))
       ∧ ∀ later, (now < later)%N → stampsBelow later (tableData st')))
  ∧ stampsBelow now mockData.
Proof.
  intros Hin st'. split; [|apply mockData_stampsBelow].
  destruct (find_id_Some _ _ Hin) as (original & Hfind & Hor & Hid).
  exists original, (copyOf original dealId now).
  subst st'. rewrite (duplicate_unfold _ _ _ _ _ Hfind).
  split_and!; try done.
  { rewrite length_app. simpl. lia. }
  intros Hstamps. split; [by apply copy_fresh|]. split.
  - by apply copy_keeps_NoDup.
  - intros later Hlater. by apply copy_keeps_stamps.
Qed.

(** Duplicating the first seed record once more at the clock reading of
    its first copy: the proviso no longer holds, and the second copy is
    appended all the same. *)
Lemma duplicate_spec_witness :
  let st := mkAppState mockData (mkUIState ∅ [] ∅ [] [] noFilters [] ∅) "" in
  let st1 := handleRowAction RowDuplicate "1" None 1700000000000 st in
  let st2 := handleRowAction RowDuplicate "1" None 1700000000000 st1 in
  "1" ∈ id <$> tableData st1
  ∧ (∃ original newDeal,
      List.find (λ d, bool_decide (id d = "1")) (tableData st1) = Some original
      ∧ original ∈ tableData st1
      ∧ id original = "1"
      ∧ tableData st2 = tableData st1 ++ [newDeal]
      ∧ length (tableData st2) = S (length (tableData st1))
      ∧ deal newDeal = deal original +:+ " (Copy)"
      ∧ id newDeal = "1" +:+ "-copy-" +:+ pretty 1700000000000%N
      ∧ (stampsBelow 1700000000000 (tableData st1) →
         (id newDeal ∉ id <$> tableData st1)
         ∧ (NoDup (id <$> tableData st1) → NoDup (id <$> tableData st2))
         ∧ ∀ later, (1700000000000 < later)%N →
             stampsBelow later (tableData st2)))
  ∧ stampsBelow 1700000000000 mockData.
Proof.
  intros st st1 st2.
  assert ("1" ∈ id <$> tableData st1) as Hin by (simpl; left).
  split; [exact Hin|].
  exact (duplicate_spec "1" None 1700000000000 st1 Hin).
Defined.

(** C6 as stated fails: two duplications of record 1 at the same clock
    reading give both copies the same id. *)
Lemma duplicate_same_clock_collides :
  let st := mkAppState mockData (mkUIState ∅ [] ∅ [] [] noFilters [] ∅) "" in
  let st1 := handleRowAction RowDuplicate "1" None 1700000000000 st in
  let st2 := handleRowAction RowDuplicate "1" None 1700000000000 st1 in
  id <$> tableData st2
  = ["1"; "2"; "3"; "4"; "5"; "1-copy-1700000000000"; "1-copy-1700000000000"]
  ∧ ¬ NoDup (id <$> tableData st2).
Proof.
  intros st st1 st2.
  assert (id <$> tableData st2
          = ["1"; "2"; "3"; "4"; "5"; "1-copy-1700000000000";
             "1-copy-1700000000000"]) as Hids by (by vm_compute).
  split; [done|]. rewrite Hids. intros Hnd.
  do 5 (apply NoDup_cons in Hnd as [_ Hnd]).
  apply NoDup_cons in Hnd as [Hnotin _]. apply Hnotin. left.
Qed.

(** Repeated duplication from the seed data: as long as the clock
    strictly advances from one duplication to the next, all ids of the
    store stay pairwise distinct. *)
Lemma duplicateAll_NoDup_from (clicks : list (string * N)) (st : AppState) (lo : N) :
  NoDup (id <$> tableData st) →
  stampsBelow lo (tableData st) →
  Forall (λ t, (lo ≤ t)%N) (clicks.*2) →
  StronglySorted N.lt (clicks.*2) →
  NoDup (id <$> tableData (duplicateAll clicks st)).
Proof.
  revert st lo. induction clicks as [|[dealId now] clicks IH];
    intros st lo Hnd Hst Hlo Hsorted; [done|].
  rewrite fmap_cons in Hlo, Hsorted. simpl in Hlo, Hsorted.
  apply Forall_cons in Hlo as [Hnow _].
  apply StronglySorted_inv in Hsorted as [Hsorted Hlater].
  change (NoDup (id <$> tableData
            (duplicateAll clicks
               (handleRowAction RowDuplicate dealId None now st)))).
  assert (stampsBelow now (tableData st)) as Hst'
    by (by eapply stampsBelow_mono).
  destruct (decide (dealId ∈ id <$> tableData st)) as [Hin|Hout].
  - destruct (find_id_Some _ _ Hin) as (original & Hfind & _).
    apply (IH _ (N.succ now)); try done;
      rewrite ?(duplicate_unfold _ _ _ _ _ Hfind).
    + by apply copy_keeps_NoDup.
    + apply copy_keeps_stamps; [done | lia].
    + eapply Forall_impl; [exact Hlater|]. simpl. intros; lia.
  - assert (handleRowAction RowDuplicate dealId None now st = st) as ->.
    { unfold handleRowAction.
      destruct (List.find _ _) as [o|] eqn:Hf; [|done].
      apply find_some in Hf as [Ho Hid]. apply bool_decide_eq_true in Hid.
      destruct Hout. apply list_elem_of_fmap. exists o.
      by rewrite list_elem_of_In. }
    apply (IH _ now); try done.
    eapply Forall_impl; [exact Hlater|]. simpl. intros; lia.
Qed.

Lemma mockData_ids_NoDup : NoDup (id <$> mockData).
Proof.
  simpl. repeat (apply NoDup_cons; split;
    [intros H; repeat (apply elem_of_cons in H as [H|H]; [done|]);
       by apply elem_of_nil in H|]).
  apply NoDup_nil_2.
Qed.

(** X27.  From the seed data, duplications at strictly increasing clock
    readings keep all ids of the store pairwise distinct. *)
Lemma duplicateAll_seed_NoDup (clicks : list (string * N)) ui msg :
  StronglySorted N.lt (clicks.*2) →
  NoDup (id <$> tableData (duplicateAll clicks (mkAppState mockData ui msg))).
Proof.
  intros Hsorted. apply (duplicateAll_NoDup_from _ _ 0%N); simpl.
  - apply mockData_ids_NoDup.
  - apply mockData_stampsBelow.
  - apply Forall_forall. intros; lia.
  - done.
Qed.

(** ** Totals *)

Lemma fold_left_sum (f : Deal → Z) (rows : list Deal) (z : Z) :
  fold_left (λ sum d, sum + f d) rows z = z + foldr (λ d acc, f d + acc) 0 rows.
Proof.
  revert z. induction rows as [|d rows IH]; intros z; simpl; [lia|].
  rewrite IH. lia.
Qed.

Lemma breakdown_fold_lookup key (rows : list Deal) (acc : gmap string nat) k :
  default 0%nat
    (fold_left (λ acc d, <[key d := (default 0 (acc !! key d) + 1)%nat]> acc)
               rows acc !! k)
  = (default 0%nat (acc !! k) + countKey key k rows)%nat.
Proof.
  unfold countKey. revert acc.
  induction rows as [|d rows IH]; intros acc; simpl; [lia|].
  rewrite IH. case_bool_decide as Hk; simpl.
  - subst k. rewrite lookup_insert_eq. simpl. lia.
  - by rewrite lookup_insert_ne.
Qed.

Lemma breakdown_count key (rows : list Deal) k :
  default 0%nat (breakdown key rows !! k) = countKey key k rows.
Proof.
  unfold breakdown. by rewrite breakdown_fold_lookup, lookup_empty.
Qed.

Lemma countKey_le key k (rows : list Deal) :
  (countKey key k rows ≤ length rows)%nat.
Proof. unfold countKey. apply filter_length_le. Qed.

Lemma Qc_zero_ratio (x y : Qc) : (Qc_of_nat 0 / x * y = 0)%Qc.
Proof.
  assert (Qc_of_nat 0 = 0%Qc) as -> by (by apply Qc_is_canon).
  unfold Qcdiv. by rewrite !Qcmult_0_l.
Qed.

(** C8.  Over the visible rows: when there is at least one, the average
    value is the sum of their values divided by their number and the
    conversion rate is the number of rows in stage "Closed Won" divided by
    their number, times 100; when there is none, both are 0.  One
    "Closed Won" row out of the five seed rows gives 20. *)
Theorem totals_spec
    (rows tableData : list Deal) (rowSelection : gmap string bool) :
  let t := totals rows tableData rowSelection in
  let n := length rows in
  let won := countKey stage "Closed Won" rows in
  visible t = n
  ∧ dealValueSum t = valueSum rows
  ∧ (n ≠ 0%nat →
       averageDealValue t = (Qc_of_Z (valueSum rows) / Qc_of_nat n)%Qc
       ∧ conversionRate t = (Qc_of_nat won / Qc_of_nat n * Qc_of_Z 100)%Qc)
  ∧ (n = 0%nat → averageDealValue t = 0%Qc ∧ conversionRate t = 0%Qc)
  ∧ conversionRate (totals mockData mockData ∅) = Qc_of_Z 20.
Proof.
  intros t n won.
  assert (dealValueSum t = valueSum rows) as Hsum.
  { subst t. unfold totals, valueSum. simpl. rewrite fold_left_sum. lia. }
  assert (conversionRate t
          = match won with
            | S k => (Qc_of_nat won / Qc_of_nat n * Qc_of_Z 100)%Qc
            | O => 0%Qc
            end) as Hrate.
  { subst t won. unfold totals. simpl.
    rewrite <-(breakdown_count stage rows "Closed Won").
    by destruct (breakdown stage rows !! "Closed Won") as [[|k]|]. }
  split; [done|]. split; [done|]. split; [|split].
  - intros Hn. split.
    + subst t. unfold totals in *. simpl in *. rewrite Hsum.
      destruct (0 <? Z.of_nat (length rows)) eqn:Hpos; [done|].
      apply Z.ltb_ge in Hpos. subst n. lia.
    + rewrite Hrate. destruct won; [|done].
      by rewrite Qc_zero_ratio.
  - intros Hn. split.
    + subst t n. unfold totals. simpl. by rewrite Hn.
    + rewrite Hrate. pose proof (countKey_le stage "Closed Won" rows).
      fold won n in H. destruct won; [done|lia].
  - apply Qc_is_canon. by vm_compute.
Qed.

(** The totals of the seed rows and of an empty view. *)
Lemma totals_spec_witness :
  averageDealValue (totals mockData mockData ∅) = Qc_of_Z 83000
  ∧ conversionRate (totals [] mockData ∅) = 0%Qc.
Proof.
  split.
  - destruct (totals_spec mockData mockData ∅) as (_ & _ & H & _).
    destruct H as [-> _]; [done|]. apply Qc_is_canon. by vm_compute.
  - destruct (totals_spec [] mockData ∅) as (_ & _ & _ & H & _).
    by destruct H as [_ ->].
Defined.

(** ** Sort *)

(** *** [Array.prototype.sort] with a consistent comparator *)

Section array_sort.
Context {A : Type} (comparefn : A → A → Z).

Lemma sort_insert_perm (x : A) (l : list A) :
  sort_insert comparefn x l ≡ₚ x :: l.
Proof.
  induction l as [|y l IH]; simpl; [done|].
  destruct (comparefn x y <=? 0); [done|].
  rewrite IH. apply Permutation_swap.
Qed.

Lemma Array_sort_perm (l : list A) : Array_sort comparefn l ≡ₚ l.
Proof.
  induction l as [|x l IH]; simpl; [done|].
  by rewrite sort_insert_perm, IH.
Qed.

Hypothesis consistent : Consistent comparefn.

Let notAfter (a b : A) : Prop := comparefn a b ≤ 0.
Let tie (a x : A) : bool := comparefn a x =? 0.

Lemma tie_trans a x y : tie a x = true → tie a y = true → comparefn x y = 0.
Proof.
  destruct consistent as [Hanti Htrans]. unfold tie.
  rewrite !Z.eqb_eq. intros Hx Hy.
  pose proof (Hanti a x). pose proof (Hanti x y).
  pose proof (Htrans x a y). pose proof (Htrans y a x).
  pose proof (Hanti a y). lia.
Qed.

Lemma sort_insert_sorted (x : A) (l : list A) :
  StronglySorted notAfter l →
  StronglySorted notAfter (sort_insert comparefn x l).
Proof.
  destruct consistent as [Hanti Htrans].
  induction 1 as [|y l Hl IH Hy]; simpl.
  - repeat constructor.
  - destruct (comparefn x y <=? 0) eqn:Hxy.
    + apply Z.leb_le in Hxy. constructor; [by constructor|].
      constructor; [done|].
      eapply Forall_impl; [exact Hy|]. intros z Hz. by apply (Htrans x y z).
    + apply Z.leb_gt in Hxy. constructor; [done|].
      rewrite sort_insert_perm. constructor; [|done].
      unfold notAfter. rewrite (Hanti x y). lia.
Qed.

Lemma Array_sort_sorted (l : list A) :
  StronglySorted notAfter (Array_sort comparefn l).
Proof.
  induction l as [|x l IH]; simpl; [constructor|].
  by apply sort_insert_sorted.
Qed.

Lemma sort_insert_stable (a x : A) (l : list A) :
  List.filter (tie a) (sort_insert comparefn x l)
  = List.filter (tie a) (x :: l).
Proof.
  induction l as [|y l IH]; [done|]. cbn [sort_insert].
  destruct (comparefn x y <=? 0) eqn:Hxy; [done|].
  apply Z.leb_gt in Hxy. cbn [List.filter] in *. rewrite IH.
  destruct (tie a x) eqn:Hx, (tie a y) eqn:Hy; try done.
  pose proof (tie_trans _ _ _ Hx Hy). lia.
Qed.

Lemma Array_sort_stable (a : A) (l : list A) :
  List.filter (tie a) (Array_sort comparefn l) = List.filter (tie a) l.
Proof.
  induction l as [|x l IH]; [done|].
  cbn [Array_sort foldr]. fold (Array_sort comparefn l).
  rewrite sort_insert_stable. cbn [List.filter]. by rewrite IH.
Qed.

End array_sort.

(** *** The comparator of [sortedData] *)

Lemma lex_consistent {A} (c1 c2 : A → A → Z) :
  Consistent c1 → Consistent c2 → Consistent (lex c1 c2).
Proof.
  intros [Ha1 Ht1] [Ha2 Ht2]. unfold lex. split.
  - intros a b. rewrite (Ha1 a b).
    destruct (Z.eqb_spec (c1 a b) 0), (Z.eqb_spec (- c1 a b) 0);
      try lia. apply Ha2.
  - intros a b c.
    pose proof (Ha1 a b). pose proof (Ha1 b c). pose proof (Ha1 a c).
    pose proof (Ht1 a b c). pose proof (Ht1 b c a). pose proof (Ht1 c a b).
    pose proof (Ht2 a b c).
    destruct (Z.eqb_spec (c1 a b) 0), (Z.eqb_spec (c1 b c) 0),
      (Z.eqb_spec (c1 a c) 0); lia.
Qed.

Lemma compareDeals_cons sort rest a b :
  compareDeals (sort :: rest) a b
  = lex (compareDeals [sort]) (compareDeals rest) a b.
Proof.
  unfold lex. cbn [compareDeals].
  destruct (lowerBoth _ _) as [aVal bVal].
  destruct (js_lt aVal bVal), (js_lt bVal aVal),
    (decide (direction sort = asc)); done.
Qed.

Lemma string_compare_refl (s : string) : String.compare s s = Eq.
Proof.
  induction s as [|c s IH]; [done|]. simpl.
  unfold Ascii.compare. by rewrite N.compare_refl.
Qed.

Lemma string_notGt_le (x y : string) :
  String.compare x y ≠ Gt ↔ String.le x y.
Proof.
  unfold String.le, String.leb. by destruct (String.compare x y).
Qed.

Lemma compareDeals_single sort a b :
  compareDeals [sort] a b
  = sign (direction sort) * toZ (keyCompare (column sort) a b).
Proof.
  cbn [compareDeals]. unfold keyCompare, lowerBoth.
  destruct (getField (column sort) a) as [[x|m]|],
           (getField (column sort) b) as [[y|n]|];
    cbn [js_lt]; try (by destruct (direction sort)).
  - unfold String.ltb.
    rewrite (String.compare_antisym (Str.toLowerCase y) (Str.toLowerCase x)).
    destruct (String.compare (Str.toLowerCase x) (Str.toLowerCase y));
      by destruct (direction sort).
  - unfold Z.ltb. rewrite (Z.compare_antisym m n).
    destruct (m ?= n); by destruct (direction sort).
Qed.

(** Every column reads the same kind of value in every row. *)
Lemma getField_shape (col : string) :
  (∃ f : Deal → string, ∀ d, getField col d = Some (VStr (f d)))
  ∨ (∃ f : Deal → Z, ∀ d, getField col d = Some (VNum (f d)))
  ∨ (∀ d, getField col d = None).
Proof.
  unfold getField.
  repeat (destruct (String.eqb col _);
          [by (left; eexists; intros d; reflexivity)
           || by (right; left; eexists; intros d; reflexivity)|]).
  by right; right.
Qed.

Lemma keyCompare_antisym col a b :
  keyCompare col b a = CompOpp (keyCompare col a b).
Proof.
  unfold keyCompare.
  destruct (getField_shape col) as [[f Hf]|[[f Hf]|Hf]]; rewrite !Hf; try done.
  - apply String.compare_antisym.
  - apply Z.compare_antisym.
Qed.

Lemma keyCompare_trans col a b c :
  keyCompare col a b ≠ Gt → keyCompare col b c ≠ Gt → keyCompare col a c ≠ Gt.
Proof.
  unfold keyCompare.
  destruct (getField_shape col) as [[f Hf]|[[f Hf]|Hf]]; rewrite !Hf; try done.
  - rewrite !string_notGt_le. apply transitivity.
  - rewrite !Z.compare_le_iff. lia.
Qed.

Lemma compareDeals_single_consistent sort : Consistent (compareDeals [sort]).
Proof.
  split.
  - intros a b. rewrite !compareDeals_single, keyCompare_antisym.
    destruct (keyCompare (column sort) a b), (direction sort); done.
  - intros a b c. rewrite !compareDeals_single.
    pose proof (keyCompare_trans (column sort) a b c) as Hup.
    pose proof (keyCompare_trans (column sort) c b a) as Hdown.
    rewrite (keyCompare_antisym _ b c), (keyCompare_antisym _ a b),
      (keyCompare_antisym _ a c) in Hdown.
    destruct (keyCompare (column sort) a b), (keyCompare (column sort) b c),
      (keyCompare (column sort) a c), (direction sort);
      simpl in *; try lia; intros _ _;
      (by destruct Hup) || (by destruct Hdown).
Qed.

Lemma compareDeals_consistent sorts : Consistent (compareDeals sorts).
Proof.
  induction sorts as [|sort rest IH].
  - split; simpl; intros; lia.
  - pose proof (lex_consistent _ _ (compareDeals_single_consistent sort) IH)
      as [Hanti Htrans].
    split.
    + intros a b. rewrite !compareDeals_cons. apply Hanti.
    + intros a b c. rewrite !compareDeals_cons. apply Htrans.
Qed.

Lemma lower_char_idem (c : ascii) :
  Str.lower_char (Str.lower_char c) = Str.lower_char c.
Proof. by destruct c as [[] [] [] [] [] [] [] []]. Qed.

Lemma toLowerCase_idem (s : string) :
  Str.toLowerCase (Str.toLowerCase s) = Str.toLowerCase s.
Proof.
  induction s as [|c s IH]; [done|]. simpl. by rewrite lower_char_idem, IH.
Qed.

Lemma getField_foldCase col d :
  getField col (foldCase d)
  = match getField col d with
    | Some (VStr x) => Some (VStr (Str.toLowerCase x))
    | other => other
    end.
Proof.
  unfold getField. by repeat (destruct (String.eqb col _); [done|]).
Qed.

Lemma keyCompare_foldCase col a b :
  keyCompare col (foldCase a) (foldCase b) = keyCompare col a b.
Proof.
  unfold keyCompare. rewrite !getField_foldCase.
  destruct (getField col a) as [[x|m]|], (getField col b) as [[y|n]|];
    try done.
  by rewrite !toLowerCase_idem.
Qed.

Lemma compareDeals_foldCase sorts a b :
  compareDeals sorts (foldCase a) (foldCase b) = compareDeals sorts a b.
Proof.
  induction sorts as [|sort rest IH]; [done|].
  rewrite !compareDeals_cons. unfold lex.
  by rewrite IH, !compareDeals_single, keyCompare_foldCase.
Qed.

Lemma filteredData_sublist f (data : list Deal) :
  sublist (filteredData f data) data.
Proof.
  unfold filteredData. induction data as [|d l IH]; simpl; [done|].
  destruct (passesFilters f d); by constructor.
Qed.

Lemma toggleSort_thrice columnId :
  toggleSort columnId
    (toggleSort columnId (toggleSort columnId [])) = [].
Proof.
  unfold toggleSort. simpl.
  repeat (rewrite bool_decide_eq_true_2 by done; simpl). done.
Qed.

Lemma getField_unknown (name : string) (d : Deal) :
  name ∉ ["id"; "deal"; "activitiesTimeline"; "stage"; "dealValue";
          "contacts"; "owner"; "accounts"; "expectedClose"; "forecastValue"] →
  getField name d = None.
Proof.
  intros Hout. unfold getField.
  repeat match goal with
         | |- context [String.eqb name ?k] =>
             destruct (String.eqb_spec name k) as [->|_];
             [exfalso; apply Hout; set_solver|]
         end.
  done.
Qed.

(** C7.  The sorted view is a rearrangement of the filtered records in
    which no record comes after one that the comparator places later, and
    records that tie on every key keep the relative order they had in the
    filtered list.  The comparator of a specification is that of its first
    key, and that of the remaining keys on the ties of the first.  The
    comparator of one key reads that column of the two records: on each of
    the eight text columns it is the three-way comparison of the two
    lower-cased strings, on the two numeric columns that of the two
    numbers, with the smaller one first when the direction is ascending
    and the larger one first when it is descending; a column that is no
    member of a record ties all records.  The comparator does not see the
    case of letters.  With an empty specification, also one reached by
    clicking a column's header three times, the sorted view is the
    filtered list itself, which keeps the order of the record store. *)
Theorem sortedData_spec (sortSpec : list SortState) (rows : list Deal) :
  let out := sortedData sortSpec rows in
  out ≡ₚ rows
  ∧ StronglySorted (λ a b, compareDeals sortSpec a b ≤ 0) out
  ∧ (∀ a, List.filter (λ x, compareDeals sortSpec a x =? 0) out
          = List.filter (λ x, compareDeals sortSpec a x =? 0) rows)
  ∧ (∀ sort rest a b,
       compareDeals (sort :: rest) a b
       = if compareDeals [sort] a b =? 0 then compareDeals rest a b
         else compareDeals [sort] a b)
  ∧ (∀ a b, compareDeals sortSpec (foldCase a) (foldCase b)
            = compareDeals sortSpec a b)
  ∧ (∀ f store,
       let filtered := filteredData f store in
       sortedData [] filtered = filtered
       ∧ (∀ columnId ui,
            sortedData
              (sorts (handleSort columnId (handleSort columnId
                 (handleSort columnId (set_sorts [] ui))))) filtered
            = filtered)
       ∧ sublist filtered store)
  ∧ (∀ dir a b,
       Forall (λ '(name, field),
                 compareDeals [mkSortState name dir] a b
                 = sign dir * toZ (String.compare (Str.toLowerCase (field a))
                                                  (Str.toLowerCase (field b))))
         [("id", id); ("deal", deal);
          ("activitiesTimeline", activitiesTimeline); ("stage", stage);
          ("contacts", contacts); ("owner", owner); ("accounts", accounts);
          ("expectedClose", expectedClose)]
       ∧ Forall (λ '(name, field),
                   compareDeals [mkSortState name dir] a b
                   = sign dir * toZ (field a ?= field b))
           [("dealValue", dealValue); ("forecastValue", forecastValue)]
       ∧ ∀ name,
           name ∉ ["id"; "deal"; "activitiesTimeline"; "stage"; "dealValue";
                   "contacts"; "owner"; "accounts"; "expectedClose";
                   "forecastValue"] →
           compareDeals [mkSortState name dir] a b = 0)
  ∧ (∀ a b,
       (dealValue a < dealValue b →
        compareDeals [mkSortState "dealValue" asc] a b < 0
        ∧ compareDeals [mkSortState "dealValue" desc] a b > 0)
       ∧ (String.ltb (Str.toLowerCase (deal a)) (Str.toLowerCase (deal b)) = true →
          compareDeals [mkSortState "deal" asc] a b < 0
          ∧ compareDeals [mkSortState "deal" desc] a b > 0)).
Proof.
  intros out.
  assert (out = if Z.of_nat (length sortSpec) =? 0 then rows
                else Array_sort (compareDeals sortSpec) rows) as Hout
    by reflexivity.
  pose proof (compareDeals_consistent sortSpec) as Hcons.
  split_and!.
  - rewrite Hout. destruct (_ =? _); [done | apply Array_sort_perm].
  - rewrite Hout. destruct sortSpec as [|s l].
    + simpl. clear. induction rows; constructor; [done|].
      by apply Forall_forall.
    + by apply Array_sort_sorted.
  - intros a. rewrite Hout. destruct (_ =? _); [done|].
    by apply Array_sort_stable.
  - intros sort rest a b. apply compareDeals_cons.
  - apply compareDeals_foldCase.
  - intros f store filtered. split; [done|]. split.
    + intros columnId ui. unfold handleSort. simpl.
      by rewrite toggleSort_thrice.
    + apply filteredData_sublist.
  - intros dir a b. split_and!.
    + rewrite !Forall_cons, Forall_nil.
      split_and!; try done;
        match goal with
        | |- compareDeals [mkSortState ?name _] _ _ = _ =>
            exact (compareDeals_single (mkSortState name dir) a b)
        end.
    + rewrite !Forall_cons, Forall_nil.
      split_and!; try done;
        match goal with
        | |- compareDeals [mkSortState ?name _] _ _ = _ =>
            exact (compareDeals_single (mkSortState name dir) a b)
        end.
    + intros name Hname. rewrite compareDeals_single.
      cbn [column]. unfold keyCompare.
      rewrite !(getField_unknown name) by done. simpl. lia.
  - intros a b. split.
    + intros Hlt.
      rewrite (compareDeals_single (mkSortState "dealValue" asc) a b),
        (compareDeals_single (mkSortState "dealValue" desc) a b).
      change (keyCompare _ a b) with (dealValue a ?= dealValue b).
      apply Z.compare_lt_iff in Hlt. rewrite Hlt. simpl. lia.
    + unfold String.ltb. intros Hlt.
      rewrite (compareDeals_single (mkSortState "deal" asc) a b),
        (compareDeals_single (mkSortState "deal" desc) a b).
      change (keyCompare _ a b)
        with (String.compare (Str.toLowerCase (deal a)) (Str.toLowerCase (deal b))).
      destruct (String.compare _ _); try done.
Qed.

(** The seed rows by descending value, as the header of the value column
    orders them after two clicks. *)
Lemma sortedData_by_value_desc :
  dealValue <$> sortedData [mkSortState "dealValue" desc]
                           (filteredData noFilters mockData)
  = [125000; 95000; 85000; 65000; 45000].
Proof. reflexivity. Qed.

(** Titles are ordered without regard to case, and rows that tie keep
    their order. *)
Lemma sortedData_case_and_ties :
  let row i title := mkDeal i title "" "Proposal" 1 "" "" "" "" 1 in
  id <$> sortedData [mkSortState "deal" asc]
           [row "1" "beta"; row "2" "Alpha"; row "3" "BETA"; row "4" "alpha"]
  = ["2"; "4"; "1"; "3"].
Proof. reflexivity. Qed.

(** ** Persisted view state *)

Lemma loadSaved_cases (storage : Storage) :
  match storage with
  | StorageDenied => loadSaved storage = Throws "SecurityError"
  | StorageSlot None => loadSaved storage = Returns None
  | StorageSlot (Some text) =>
      if Str.truthy text then
        match JSON_parse text with
        | Returns v => loadSaved storage = Returns (Some v)
        | Throws e => loadSaved storage = Throws e
        end
      else loadSaved storage = Returns None
  end.
Proof.
  destruct storage as [|[text|]]; try done.
  unfold loadSaved. simpl.
  destruct (Str.truthy text); [|done]. by destruct (JSON_parse text).
Qed.

Lemma truthy_true (s : string) : s ≠ "" → Str.truthy s = true.
Proof.
  intros Hs. destruct (Str.truthy s) eqn:H; [done|].
  by apply truthy_spec in H.
Qed.

(** C9 as the code has it.  The initializer always returns and never
    throws.  It returns the default view state (no sorts, no filters, value
    range 0 to 200000) when there is no window, when the storage cannot be
    read, when the slot is absent or empty, and when the stored text does
    not parse.  A stored text that parses is returned as it was parsed,
    with no check of its shape. *)
Theorem initUIState_spec (env : Env) :
  ∃ v, initUIState env = Returns v
    ∧ (hasWindow env = false → v = defaultUIState)
    ∧ (localStorage env = StorageDenied → v = defaultUIState)
    ∧ (localStorage env = StorageSlot None → v = defaultUIState)
    ∧ (localStorage env = StorageSlot (Some "") → v = defaultUIState)
    ∧ (∀ text e, localStorage env = StorageSlot (Some text) →
         JSON_parse text = Throws e → v = defaultUIState)
    ∧ (∀ text parsed,
         hasWindow env = true →
         localStorage env = StorageSlot (Some text) → text ≠ "" →
         JSON_parse text = Returns parsed → v = parsed)
    ∧ matchesUIState defaultUIState = true
    ∧ member "sorts" defaultUIState = Some (JArr [])
    ∧ member "filters" defaultUIState
      = Some (JObj [("search", JStr ""); ("stage", JArr []);
                    ("owner", JArr []);
                    ("dealValueRange", JArr [JNum 0 0; JNum 200000 0])]).
Proof.
  destruct env as [window storage]. unfold initUIState. simpl.
  pose proof (loadSaved_cases storage) as Hload.
  pose proof truthy_true as Htrue.
  assert (Str.truthy "" = false) as Hempty by done.
  destruct window; [destruct storage as [|[text|]]|].
  - rewrite Hload. simpl. eexists; split; [done|]. repeat split; congruence.
  - destruct (Str.truthy text) eqn:Htruthy;
      [destruct (JSON_parse text) as [parsed|e] eqn:Hparse|];
      rewrite Hload; simpl; (eexists; split; [done|]);
      repeat split; try congruence; intros; simplify_eq; try congruence.
    match goal with H : _ ≠ "" |- _ => apply Htrue in H end. congruence.
  - rewrite Hload. simpl. eexists; split; [done|]. repeat split; congruence.
  - eexists; split; [done|]. repeat split; congruence.
Qed.

(** A slot holding text that is not JSON. *)
Lemma initUIState_spec_witness :
  initUIState (mkEnv true (StorageSlot (Some "{oops")))
  = Returns defaultUIState.
Proof.
  destruct (initUIState_spec (mkEnv true (StorageSlot (Some "{oops"))))
    as (v & -> & _ & _ & _ & _ & Hcorrupt & _).
  f_equal. by apply (Hcorrupt "{oops" "SyntaxError").
Defined.

(** C9 as stated fails on a blob that parses but is not a view state: the
    text 42 parses to a number, and the initializer returns that number. *)
Lemma initUIState_keeps_mismatch :
  let env := mkEnv true (StorageSlot (Some "42")) in
  JSON_parse "42" = Returns (JNum 42 0)
  ∧ matchesUIState (JNum 42 0) = false
  ∧ initUIState env = Returns (JNum 42 0)
  ∧ initUIState env ≠ Returns defaultUIState.
Proof. by vm_compute. Qed.

(** What was saved for the default view state loads as that state. *)
Lemma initUIState_loads_default :
  initUIState (mkEnv true (StorageSlot (Some defaultUIStateText)))
  = Returns defaultUIState.
Proof. by vm_compute. Qed.

(** An object of another shape is returned as it is, too. *)
Lemma initUIState_keeps_wrong_sorts :
  let text := "{" +:+ Json.quoted "sorts" +:+ ":5}" in
  initUIState (mkEnv true (StorageSlot (Some text)))
  = Returns (JObj [("sorts", JNum 5 0)])
  ∧ matchesUIState (JObj [("sorts", JNum 5 0)]) = false.
Proof. by vm_compute. Qed.

(** * Further properties of the handlers *)

(** ** Row selection *)

Lemma isSelected_insert (sel : gmap string bool) k b k' :
  isSelected (<[k := b]> sel) k' = if decide (k = k') then b else isSelected sel k'.
Proof.
  unfold isSelected. destruct (decide (k = k')) as [->|Hne].
  - by rewrite lookup_insert_eq.
  - by rewrite lookup_insert_ne.
Qed.

(** X1.  Ticking one row flips the selection status of that row and of no
    other, keeps every other entry of the map as it was, and never removes
    a key; a second tick gives every row its former status back. *)
Theorem handleSelectRow_toggle (rowId : string) (prev : UIState) :
  let old := rowSelection prev in
  let new := rowSelection (handleSelectRow rowId prev) in
  isSelected new rowId = negb (isSelected old rowId)
  ∧ (∀ k, k ≠ rowId → new !! k = old !! k)
  ∧ is_Some (new !! rowId)
  ∧ (∀ k, isSelected
            (rowSelection (handleSelectRow rowId (handleSelectRow rowId prev))) k
          = isSelected old k)
  ∧ handleSelectRow rowId prev = set_rowSelection new prev.
Proof.
  intros old new. subst new. unfold handleSelectRow. simpl. fold old.
  split; [|split; [|split; [|split; [|done]]]].
  - by rewrite isSelected_insert, decide_True.
  - intros k Hk. by rewrite lookup_insert_ne.
  - rewrite lookup_insert_eq. eauto.
  - intros k. rewrite !isSelected_insert.
    destruct (decide (rowId = k)) as [->|Hne]; [|done].
    by rewrite decide_True, negb_involutive.
Qed.

Lemma filter_length_perm {A} (p : A → bool) (l1 l2 : list A) :
  l1 ≡ₚ l2 → length (List.filter p l1) = length (List.filter p l2).
Proof.
  induction 1 as [|x l1 l2 _ IH|x y l|l1 l2 l3 _ IH1 _ IH2]; simpl.
  - done.
  - destruct (p x); simpl; by rewrite IH.
  - by destruct (p x), (p y).
  - by rewrite IH1.
Qed.

Lemma selectedCount_insert_fresh (sel : gmap string bool) k (b : bool) :
  sel !! k = None →
  selectedCount (<[k := b]> sel)
  = ((if b then 1 else 0) + selectedCount sel)%nat.
Proof.
  intros Hk. unfold selectedCount, Object_keys.
  rewrite (filter_length_perm _ _ (k :: (map_to_list sel).*1)).
  - simpl. rewrite isSelected_insert, decide_True by done.
    rewrite (filter_ext_in _ (λ k', isSelected sel k')).
    + by destruct b.
    + intros k' Hin. rewrite isSelected_insert.
      destruct (decide (k = k')) as [<-|]; [|done]. exfalso.
      apply list_elem_of_In, list_elem_of_fmap in Hin as ([k' v] & -> & Hin).
      apply elem_of_map_to_list in Hin. simpl in Hk. congruence.
  - rewrite map_to_list_insert by done. done.
Qed.

Lemma selectedCount_insert (sel : gmap string bool) k (b : bool) :
  (selectedCount (<[k := b]> sel) + (if isSelected sel k then 1 else 0)
   = (if b then 1 else 0) + selectedCount sel)%nat.
Proof.
  destruct (sel !! k) as [b0|] eqn:Hk.
  - rewrite <-(insert_delete_id sel k b0) by done.
    rewrite insert_insert_eq.
    rewrite !selectedCount_insert_fresh by apply lookup_delete_eq.
    rewrite isSelected_insert, decide_True by done. destruct b, b0; lia.
  - rewrite selectedCount_insert_fresh by done.
    unfold isSelected. rewrite Hk. simpl. lia.
Qed.

(** X2.  Ticking a row changes the number of selected rows by exactly one: up
    when the row was not selected, down when it was. *)
Theorem handleSelectRow_count (rowId : string) (prev : UIState) :
  let old := rowSelection prev in
  let new := rowSelection (handleSelectRow rowId prev) in
  if isSelected old rowId
  then S (selectedCount new) = selectedCount old
  else selectedCount new = S (selectedCount old).
Proof.
  intros old new. subst new. unfold handleSelectRow. simpl. fold old.
  pose proof (selectedCount_insert old rowId (negb (isSelected old rowId))).
  destruct (isSelected old rowId); simpl in *; lia.
Qed.

(** ** Row expansion *)

Lemma Set_from_fold (l acc : list string) :
  NoDup acc →
  NoDup (fold_left (λ acc x, if bool_decide (x ∈ acc) then acc else acc ++ [x])
                   l acc)
  ∧ ∀ x, x ∈ fold_left (λ acc x, if bool_decide (x ∈ acc) then acc
                                 else acc ++ [x]) l acc
         ↔ x ∈ acc ∨ x ∈ l.
Proof.
  revert acc. induction l as [|y l IH]; intros acc Hnd; simpl.
  - split; [done|]. intros x. rewrite elem_of_nil. tauto.
  - case_bool_decide as Hy.
    + destruct (IH acc Hnd) as [Hnd' Hin]. split; [done|].
      intros x. rewrite Hin, elem_of_cons.
      split; [tauto|]. intros [?|[->|?]]; tauto.
    + assert (NoDup (acc ++ [y])) as Hnd2.
      { apply NoDup_app. split; [done|]. split; [|apply NoDup_singleton].
        intros x Hx ->%list_elem_of_singleton. done. }
      destruct (IH _ Hnd2) as [Hnd' Hin]. split; [done|].
      intros x. rewrite Hin, elem_of_app, list_elem_of_singleton, elem_of_cons.
      tauto.
Qed.

Lemma Set_from_NoDup (l : list string) : NoDup (Set_from l).
Proof. apply Set_from_fold, NoDup_nil_2. Qed.

Lemma Set_from_elem (l : list string) x : x ∈ Set_from l ↔ x ∈ l.
Proof.
  unfold Set_from.
  destruct (Set_from_fold l [] (NoDup_nil_2)) as [_ ->].
  rewrite elem_of_nil. tauto.
Qed.

Lemma toggle_member (rowId : string) (l : list string) k :
  k ∈ (if bool_decide (rowId ∈ Set_from l)
       then List.filter (λ x, negb (bool_decide (x = rowId))) (Set_from l)
       else Set_from l ++ [rowId])
  ↔ if decide (k = rowId) then rowId ∉ l else k ∈ l.
Proof.
  case_bool_decide as Hin; rewrite Set_from_elem in Hin.
  - rewrite list_elem_of_In, filter_In, <-list_elem_of_In, Set_from_elem.
    rewrite negb_true_iff, bool_decide_eq_false.
    destruct (decide (k = rowId)) as [->|]; tauto.
  - rewrite elem_of_app, list_elem_of_singleton, Set_from_elem.
    destruct (decide (k = rowId)) as [->|]; tauto.
Qed.

(** X3.  Expanding or collapsing a row flips the membership of that row in the
    expanded rows and of no other, leaves a list without repetitions, and
    touches nothing else of the view state; doing it twice gives every row
    its former membership back. *)
Theorem toggleRowExpansion_toggle (rowId : string) (prev : UIState) :
  let old := expandedRows prev in
  let new := expandedRows (toggleRowExpansion rowId prev) in
  (rowId ∈ new ↔ rowId ∉ old)
  ∧ (∀ k, k ≠ rowId → k ∈ new ↔ k ∈ old)
  ∧ NoDup new
  ∧ (∀ k, k ∈ expandedRows
            (toggleRowExpansion rowId (toggleRowExpansion rowId prev))
          ↔ k ∈ old)
  ∧ toggleRowExpansion rowId prev = set_expandedRows new prev.
Proof.
  intros old new. subst new. unfold toggleRowExpansion. simpl. fold old.
  assert (∀ l k, k ∈ (if bool_decide (rowId ∈ Set_from l)
       then List.filter (λ x, negb (bool_decide (x = rowId))) (Set_from l)
       else Set_from l ++ [rowId])
     ↔ if decide (k = rowId) then rowId ∉ l else k ∈ l) as Hmem
    by (intros; apply toggle_member).
  split; [|split; [|split; [|split; [|done]]]].
  - rewrite Hmem. by rewrite decide_True.
  - intros k Hk. rewrite Hmem. by rewrite decide_False.
  - pose proof (Set_from_NoDup old) as Hnd. case_bool_decide as Hin.
    + revert Hnd. generalize (Set_from old). intros l Hnd.
      induction Hnd as [|x l Hx Hnd IH]; simpl; [constructor|].
      destruct (negb _); [|done]. constructor; [|done].
      rewrite list_elem_of_In, filter_In, <-list_elem_of_In. tauto.
    + apply NoDup_app. split; [done|]. split; [|apply NoDup_singleton].
      intros x Hx ->%list_elem_of_singleton. done.
  - intros k. rewrite Hmem.
    destruct (decide (k = rowId)) as [->|Hne].
    + rewrite Hmem, decide_True by done.
      destruct (decide (rowId ∈ old)); tauto.
    + rewrite Hmem. by rewrite decide_False.
Qed.

(** ** Select all, then delete *)

Lemma selectRows_size (rows : list Deal) :
  NoDup (id <$> rows) → size (selectRows rows) = length rows.
Proof.
  intros Hnd. rewrite <-size_dom.
  assert (dom (selectRows rows) = list_to_set (C:=gset string) (id <$> rows))
    as ->.
  { apply set_eq. intros k.
    rewrite elem_of_dom, elem_of_list_to_set, selectRows_lookup.
    destruct (decide (k ∈ id <$> rows)); split; try done;
      eauto || by intros [? ?]. }
  rewrite size_list_to_set by done. apply length_fmap.
Qed.

(** X4.  Selecting all visible rows, when not all of them were selected, and
    then deleting in bulk removes exactly the records that carry the id of
    a visible row, empties the selection, and, the visible ids being
    pairwise distinct, announces the number of visible rows. *)
Theorem selectAll_then_delete
    (rows store : list Deal) (ui : UIState) (msg : string)
    (value : option string) :
  ¬ (∀ r, r ∈ rows → isSelected (rowSelection ui) (id r) = true) →
  let st' := handleBulkAction BulkDelete value
               (mkAppState store (handleSelectAll rows ui) msg) in
  (∀ d, d ∈ tableData st' ↔ d ∈ store ∧ id d ∉ id <$> rows)
  ∧ rowSelection (uiState st') = ∅
  ∧ (NoDup (id <$> rows) →
       announcementMessage st'
       = "Deleted " +:+ pretty (length rows) +:+ " " +:+ plural (length rows)).
Proof.
  intros Hnot st'.
  assert (rowSelection (handleSelectAll rows ui) = selectRows rows) as Hsel.
  { unfold handleSelectAll. simpl.
    destruct (every _ rows) eqn:Hev; [|done].
    destruct Hnot. by apply (every_spec (λ row, isSelected _ (id row))). }
  destruct (handleBulkAction_delete value
              (mkAppState store (handleSelectAll rows ui) msg))
    as (Hmem & Hui & Hmsg).
  cbv zeta in Hmem, Hui, Hmsg. fold st' in Hmem, Hui, Hmsg.
  split; [|split].
  - intros d. etrans; [apply Hmem|]. cbn [uiState tableData].
    rewrite Hsel, selectRows_lookup.
    destruct (decide (id d ∈ id <$> rows)); split; intros [? ?]; done.
  - by rewrite Hui.
  - intros Hnd. etrans; [apply Hmsg|]. cbn [uiState].
    by rewrite Hsel, selectRows_size.
Qed.

(** Rows 1 and 2 visible and none selected. *)
Lemma selectAll_then_delete_witness :
  let ui := mkUIState ∅ [] ∅ [] [] noFilters [] ∅ in
  let st' := handleBulkAction BulkDelete None
               (mkAppState mockData (handleSelectAll (take 2 mockData) ui) "") in
  rowSelection (uiState st') = ∅.
Proof.
  intros ui.
  apply (selectAll_then_delete (take 2 mockData) mockData ui "" None).
  intros Hall.
  specialize (Hall (mkDeal "1" "Enterprise Software License" "" "Proposal"
    125000 "John Smith, Mary Johnson" "Alex Chen" "TechCorp Inc. - Enterprise"
    "2024-03-15" 112500)).
  discriminate Hall. left.
Defined.

(** ** Row actions *)

Lemma map_keep_ids (f : Deal → Deal) (p : Deal → bool) (l : list Deal) :
  (∀ d, id (f d) = id d) →
  id <$> List.map (λ d, if p d then f d else d) l = id <$> l.
Proof.
  intros Hf. induction l as [|d l IH]; simpl; [done|].
  f_equal; [|done]. by destruct (p d).
Qed.

Lemma map_untouched (f : Deal → Deal) (p : Deal → bool) (l : list Deal) :
  (∀ d, d ∈ l → p d = false) →
  List.map (λ d, if p d then f d else d) l = l.
Proof.
  intros Hp. induction l as [|d l IH]; simpl; [done|].
  rewrite (Hp d) by left. f_equal. apply IH. intros d' Hd'. apply Hp. by right.
Qed.

Lemma filter_all {A} (p : A → bool) (l : list A) :
  (∀ x, x ∈ l → p x = true) → List.filter p l = l.
Proof.
  intros Hp. induction l as [|x l IH]; simpl; [done|].
  rewrite (Hp x) by left. f_equal. apply IH. intros y Hy. apply Hp. by right.
Qed.

(** X5.  No row action touches the view state, and only [duplicate] and
    [delete] change which ids the store holds, and in which order. *)
Theorem handleRowAction_frame
    (action : RowAction) (dealId : string) (value : option string) (now : N)
    (st : AppState) :
  let st' := handleRowAction action dealId value now st in
  uiState st' = uiState st
  ∧ match action with
    | RowDuplicate | RowDelete => True
    | _ => id <$> tableData st' = id <$> tableData st
    end.
Proof.
  destruct action; simpl; try done.
  - by destruct (List.find _ _).
  - destruct value as [v|]; [|done]. destruct (Str.truthy v); [|done].
    simpl. split; [done|].
    by apply (map_keep_ids (set_owner v) (λ d, bool_decide (id d = dealId))).
  - destruct value as [v|]; [|done]. destruct (Str.truthy v); [|done].
    simpl. split; [done|].
    by apply (map_keep_ids (set_stage v) (λ d, bool_decide (id d = dealId))).
Qed.

(** X6.  A row action on an id that no record carries leaves the records as
    they are. *)
Theorem handleRowAction_missing
    (action : RowAction) (dealId : string) (value : option string) (now : N)
    (st : AppState) :
  dealId ∉ id <$> tableData st →
  tableData (handleRowAction action dealId value now st) = tableData st.
Proof.
  intros Hout.
  assert (∀ d, d ∈ tableData st → bool_decide (id d = dealId) = false) as Hno.
  { intros d Hd. apply bool_decide_eq_false. intros <-.
    apply Hout, list_elem_of_fmap. eauto. }
  destruct action; simpl; try done.
  - destruct (List.find _ _) as [o|] eqn:Hf; [|done].
    apply find_some in Hf as [Ho Hid]. apply list_elem_of_In in Ho.
    by rewrite (Hno o) in Hid.
  - destruct value as [v|]; [|done]. destruct (Str.truthy v); [|done].
    simpl. by apply (map_untouched (set_owner v)).
  - destruct value as [v|]; [|done]. destruct (Str.truthy v); [|done].
    simpl. by apply (map_untouched (set_stage v)).
  - apply filter_all. intros d Hd. by rewrite (Hno d).
Qed.

(** Deleting an id the seed data does not have. *)
Lemma handleRowAction_missing_witness :
  tableData (handleRowAction RowDelete "9" None 0
               (mkAppState mockData (mkUIState ∅ [] ∅ [] [] noFilters [] ∅) ""))
  = mockData.
Proof.
  apply (handleRowAction_missing RowDelete "9" None 0%N
           (mkAppState mockData (mkUIState ∅ [] ∅ [] [] noFilters [] ∅) "")).
  simpl. intros H.
  repeat (apply elem_of_cons in H as [H|H]; [done|]). by apply elem_of_nil in H.
Defined.

(** X7.  Deleting the copy a duplication has just made gives the store back, as
    long as the id of the copy was not in use. *)
Theorem duplicate_then_delete
    (dealId : string) (now : N) (st : AppState) :
  dealId ∈ id <$> tableData st →
  stampsBelow now (tableData st) →
  tableData
    (handleRowAction RowDelete (dealId +:+ "-copy-" +:+ pretty now) None now
       (handleRowAction RowDuplicate dealId None now st))
  = tableData st.
Proof.
  intros Hin Hstamps.
  destruct (find_id_Some _ _ Hin) as (original & Hfind & _).
  pose proof (duplicate_unfold dealId None now st original Hfind) as Hdup.
  remember (handleRowAction RowDuplicate dealId None now st) as st1.
  cbn [handleRowAction tableData]. rewrite Hdup, List.filter_app.
  cbn [List.filter copyOf id].
  rewrite bool_decide_eq_true_2 by done. cbn [negb]. rewrite app_nil_r.
  apply filter_all. intros d Hd. apply negb_true_iff, bool_decide_eq_false.
  intros Heq. apply (copy_fresh original dealId now _ Hstamps).
  apply list_elem_of_fmap. exists d. by rewrite Heq.
Qed.

Lemma duplicate_then_delete_witness :
  let st := mkAppState mockData (mkUIState ∅ [] ∅ [] [] noFilters [] ∅) "" in
  tableData
    (handleRowAction RowDelete ("3" +:+ "-copy-" +:+ pretty 1700000000000%N)
       None 1700000000000
       (handleRowAction RowDuplicate "3" None 1700000000000 st))
  = mockData.
Proof.
  intros st. apply (duplicate_then_delete "3" 1700000000000 st).
  - simpl. right. right. left.
  - apply mockData_stampsBelow.
Defined.

(** ** Bulk actions *)

(** X8.  The bulk actions other than [delete] never add, remove or reorder
    records and never touch the view state; [delete] only removes records
    and empties the selection. *)
Theorem handleBulkAction_frame
    (action : BulkAction) (value : option string) (st : AppState) :
  let st' := handleBulkAction action value st in
  match action with
  | BulkDelete =>
      sublist (tableData st') (tableData st)
      ∧ uiState st' = set_rowSelection ∅ (uiState st)
  | _ =>
      id <$> tableData st' = id <$> tableData st
      ∧ uiState st' = uiState st
  end.
Proof.
  destruct action; simpl; try done.
  - split; [|done]. induction (tableData st) as [|d l IH]; simpl; [done|].
    destruct (negb _); by constructor.
  - destruct value as [v|]; [|done]. destruct (Str.truthy v); [|done].
    simpl. split; [|done].
    by apply (map_keep_ids (set_stage _) (λ d, arr_includes _ (id d))).
  - destruct value as [v|]; [|done]. destruct (Str.truthy v); [|done].
    simpl. split; [|done].
    by apply (map_keep_ids (set_owner _) (λ d, arr_includes _ (id d))).
Qed.

Lemma arr_includes_keys {V} (o : gmap string V) k :
  arr_includes (Object_keys o) k = bool_decide (is_Some (o !! k)).
Proof.
  unfold arr_includes. apply bool_decide_ext, Object_keys_spec.
Qed.

Lemma lookupOr_absent (table : list (string * string)) (v : string) :
  v ∉ table.*1 → lookupOr table v = v.
Proof.
  unfold lookupOr. induction table as [|[k name] table IH]; [done|].
  rewrite fmap_cons, not_elem_of_cons. intros [Hne Hout].
  cbn [List.find fst]. destruct (String.eqb_spec k v) as [->|_]; [done|].
  by apply IH.
Qed.

Lemma lookupOr_present (table : list (string * string)) (v name : string) :
  NoDup table.*1 → (v, name) ∈ table → lookupOr table v = name.
Proof.
  unfold lookupOr. induction table as [|[k n] table IH]; intros Hnd Hin.
  - by apply elem_of_nil in Hin.
  - rewrite fmap_cons in Hnd. apply NoDup_cons in Hnd as [Hk Hnd].
    cbn [List.find fst]. apply elem_of_cons in Hin as [[= <- <-]|Hin].
    + by rewrite String.eqb_refl.
    + destruct (String.eqb_spec k v) as [->|_]; [|by apply IH].
      destruct Hk. apply list_elem_of_fmap. by exists (v, name).
Qed.

(** X9.  A bulk change of stage or owner with a non-empty value that is
    not the name of a member every object inherits gives every record
    whose id is a key of the selection map the display name the value
    stands for, or the value itself when it is not a known code, and
    leaves the other records alone; applying the same change once more
    changes no record.  Without a value, or with an empty one, the whole
    state stays as it is, announcement included. *)
Theorem handleBulkAction_change (value : option string) (st : AppState) :
  (∀ v, value = Some v → v ∉ Object_prototype_names) →
  let keyed d := bool_decide (is_Some (rowSelection (uiState st) !! id d)) in
  let st1 := handleBulkAction BulkChangeStage value st in
  let st2 := handleBulkAction BulkChangeOwner value st in
  match value with
  | Some (String c r as v) =>
      tableData st1
      = List.map (λ d, if keyed d then set_stage (lookupOr stageMap v) d
                       else d) (tableData st)
      ∧ tableData st2
        = List.map (λ d, if keyed d then set_owner (lookupOr ownerMap v) d
                         else d) (tableData st)
      ∧ tableData (handleBulkAction BulkChangeStage value st1) = tableData st1
      ∧ tableData (handleBulkAction BulkChangeOwner value st2) = tableData st2
      ∧ (v ∉ stageMap.*1 → lookupOr stageMap v = v)
      ∧ (v ∉ ownerMap.*1 → lookupOr ownerMap v = v)
      ∧ (∀ name, (v, name) ∈ stageMap → lookupOr stageMap v = name)
      ∧ (∀ name, (v, name) ∈ ownerMap → lookupOr ownerMap v = name)
  | _ => st1 = st ∧ st2 = st
  end.
Proof.
  intros _ keyed st1 st2. destruct value as [[|c r]|]; [done| |done].
  set (v := String c r) in *.
  assert (Str.truthy v = true) as Htruthy by done.
  assert (∀ (f : Deal → Deal) (o : gmap string bool) (l : list Deal),
            List.map (λ d, if arr_includes (Object_keys o) (id d)
                           then f d else d) l
            = List.map (λ d, if bool_decide (is_Some (o !! id d))
                             then f d else d) l) as Hkeys.
  { intros f o l. apply map_ext. intros d. by rewrite arr_includes_keys. }
  assert (∀ (f : Deal → Deal) (l : list Deal),
            (∀ d, id (f d) = id d) → (∀ d, f (f d) = f d) →
            List.map (λ d, if keyed d then f d else d)
              (List.map (λ d, if keyed d then f d else d) l)
            = List.map (λ d, if keyed d then f d else d) l) as Htwice.
  { intros f l Hid Hff. rewrite List.map_map. apply map_ext. intros d.
    subst keyed. cbv beta.
    destruct (bool_decide (is_Some (rowSelection (uiState st) !! id d)))
      eqn:Hd; [|by rewrite Hd].
    by rewrite (Hid d), Hd, Hff. }
  assert (tableData st1
          = List.map (λ d, if keyed d then set_stage (lookupOr stageMap v) d
                           else d) (tableData st)) as H1.
  { subst st1. cbn [handleBulkAction]. rewrite Htruthy. apply Hkeys. }
  assert (tableData st2
          = List.map (λ d, if keyed d then set_owner (lookupOr ownerMap v) d
                           else d) (tableData st)) as H2.
  { subst st2. cbn [handleBulkAction]. rewrite Htruthy. apply Hkeys. }
  split; [done|]. split; [done|]. split_and!.
  - assert (uiState st1 = uiState st) as Hui
      by (subst st1; cbn [handleBulkAction]; by rewrite Htruthy).
    cbn [handleBulkAction]. rewrite Htruthy. cbn [tableData].
    rewrite Hkeys, Hui, H1. by apply Htwice.
  - assert (uiState st2 = uiState st) as Hui
      by (subst st2; cbn [handleBulkAction]; by rewrite Htruthy).
    cbn [handleBulkAction]. rewrite Htruthy. cbn [tableData].
    rewrite Hkeys, Hui, H2. by apply Htwice.
  - apply lookupOr_absent.
  - apply lookupOr_absent.
  - intros name. apply lookupOr_present.
    apply (bool_decide_unpack _). by vm_compute.
  - intros name. apply lookupOr_present.
    apply (bool_decide_unpack _). by vm_compute.
Qed.

(** A bulk change of stage to a value that is no known code, with the
    first seed row ticked. *)
Lemma handleBulkAction_change_witness :
  let st := mkAppState mockData
              (mkUIState {[ "1" := true ]} [] ∅ [] [] noFilters [] ∅) "" in
  let keyed d := bool_decide (is_Some (rowSelection (uiState st) !! id d)) in
  let v := "On Hold" in
  let st1 := handleBulkAction BulkChangeStage (Some v) st in
  let st2 := handleBulkAction BulkChangeOwner (Some v) st in
  (∀ w, Some v = Some w → w ∉ Object_prototype_names)
  ∧ tableData st1
    = List.map (λ d, if keyed d then set_stage (lookupOr stageMap v) d
                     else d) (tableData st)
  ∧ tableData st2
    = List.map (λ d, if keyed d then set_owner (lookupOr ownerMap v) d
                     else d) (tableData st)
  ∧ tableData (handleBulkAction BulkChangeStage (Some v) st1) = tableData st1
  ∧ tableData (handleBulkAction BulkChangeOwner (Some v) st2) = tableData st2
  ∧ (v ∉ stageMap.*1 → lookupOr stageMap v = v)
  ∧ (v ∉ ownerMap.*1 → lookupOr ownerMap v = v)
  ∧ (∀ name, (v, name) ∈ stageMap → lookupOr stageMap v = name)
  ∧ (∀ name, (v, name) ∈ ownerMap → lookupOr ownerMap v = name).
Proof.
  intros st keyed v st1 st2.
  assert (∀ w, Some v = Some w → w ∉ Object_prototype_names) as Hv.
  { intros w [= <-]. apply (bool_decide_unpack _). by vm_compute. }
  split; [exact Hv|].
  exact (handleBulkAction_change (Some v) st Hv).
Defined.

(** ** Header clicks, continued *)

Lemma find_absent columnId (l : list SortState) e :
  columnId ∉ column <$> l → column e = columnId →
  List.find (λ s, bool_decide (column s = columnId)) (l ++ [e]) = Some e.
Proof.
  intros Habs He. induction l as [|s l IH]; simpl.
  - by rewrite bool_decide_eq_true_2.
  - rewrite fmap_cons, not_elem_of_cons in Habs. destruct Habs as [Hs Habs].
    rewrite bool_decide_eq_false_2 by done. by apply IH.
Qed.

Lemma flip_absent columnId (l : list SortState) :
  columnId ∉ column <$> l →
  List.map (λ s, if bool_decide (column s = columnId)
                 then mkSortState (column s) desc else s) l = l.
Proof.
  intros Habs. induction l as [|s l IH]; simpl; [done|].
  rewrite fmap_cons, not_elem_of_cons in Habs. destruct Habs as [Hs Habs].
  rewrite bool_decide_eq_false_2 by done. f_equal. by apply IH.
Qed.

Lemma others_absent columnId (l : list SortState) :
  columnId ∉ column <$> l →
  List.filter (otherColumn columnId) l = l.
Proof.
  intros Habs. apply filter_all. intros s Hs. unfold otherColumn.
  apply negb_true_iff, bool_decide_eq_false. intros Heq. apply Habs.
  apply list_elem_of_fmap. eauto.
Qed.

Lemma toggleSort_absent columnId (l : list SortState) :
  columnId ∉ column <$> l →
  toggleSort columnId l = l ++ [mkSortState columnId asc].
Proof.
  intros Habs. unfold toggleSort.
  fold (sortState columnId l). by rewrite (proj2 (sortState_None _ _) Habs).
Qed.

Lemma toggleSort_last_asc columnId (l : list SortState) :
  columnId ∉ column <$> l →
  toggleSort columnId (l ++ [mkSortState columnId asc])
  = l ++ [mkSortState columnId desc].
Proof.
  intros Habs. unfold toggleSort. rewrite find_absent by done. simpl.
  rewrite List.map_app, flip_absent by done. simpl.
  by rewrite bool_decide_eq_true_2.
Qed.

Lemma toggleSort_last_desc columnId (l : list SortState) :
  columnId ∉ column <$> l →
  toggleSort columnId (l ++ [mkSortState columnId desc]) = l.
Proof.
  intros Habs. unfold toggleSort. rewrite find_absent by done. simpl.
  fold (otherColumn columnId). rewrite List.filter_app, others_absent by done.
  simpl. unfold otherColumn. simpl.
  rewrite bool_decide_eq_true_2 by done. apply app_nil_r.
Qed.

(** X10.  Three clicks on the header of a column that is not a sort key lead
    through ascending and descending, both as the last key, back to the
    view state the first click started from. *)
Theorem handleSort_cycle (columnId : string) (prev : UIState) :
  columnId ∉ column <$> sorts prev →
  let once := handleSort columnId prev in
  let twice := handleSort columnId once in
  sorts once = sorts prev ++ [mkSortState columnId asc]
  ∧ sorts twice = sorts prev ++ [mkSortState columnId desc]
  ∧ handleSort columnId twice = prev.
Proof.
  intros Habs once twice.
  assert (sorts once = sorts prev ++ [mkSortState columnId asc]) as H1
    by (by apply toggleSort_absent).
  assert (sorts twice = sorts prev ++ [mkSortState columnId desc]) as H2.
  { subst twice. unfold handleSort at 1. cbn [sorts set_sorts].
    rewrite H1. by apply toggleSort_last_asc. }
  split; [done|]. split; [done|].
  unfold handleSort at 1. rewrite H2, toggleSort_last_desc by done.
  subst twice once. by destruct prev.
Qed.

Lemma handleSort_cycle_witness :
  let ui := mkUIState ∅ [] ∅ [] [] noFilters [mkSortState "owner" desc] ∅ in
  handleSort "stage" (handleSort "stage" (handleSort "stage" ui)) = ui.
Proof.
  intros ui. apply (handleSort_cycle "stage" ui). simpl.
  intros H. apply elem_of_cons in H as [H|H]; [done|].
  by apply elem_of_nil in H.
Defined.

Lemma flip_columns columnId (l : list SortState) :
  column <$> List.map (λ s, if bool_decide (column s = columnId)
                            then mkSortState (column s) desc else s) l
  = column <$> l.
Proof.
  induction l as [|s l IH]; simpl; [done|]. f_equal; [|done].
  by case_bool_decide.
Qed.

Lemma filter_fmap_NoDup {A B} `{EqDecision B} (f : A → B) (p : A → bool)
    (l : list A) :
  NoDup (f <$> l) → NoDup (f <$> List.filter p l).
Proof.
  induction l as [|x l IH]; simpl; [done|].
  rewrite NoDup_cons. intros [Hx Hnd].
  destruct (p x); simpl; [|by apply IH].
  apply NoDup_cons. split; [|by apply IH].
  intros (y & Hy & Hin)%list_elem_of_fmap. apply Hx.
  apply list_elem_of_fmap. exists y. split; [done|].
  apply list_elem_of_In, filter_In in Hin as [Hin _].
  by apply list_elem_of_In.
Qed.

(** X11.  A sort specification that names no column twice still names no column
    twice after a header click. *)
Theorem handleSort_NoDup (columnId : string) (prev : UIState) :
  NoDup (column <$> sorts prev) →
  NoDup (column <$> sorts (handleSort columnId prev)).
Proof.
  intros Hnd. simpl. unfold toggleSort.
  fold (sortState columnId (sorts prev)).
  destruct (sortState columnId (sorts prev)) as [e|] eqn:He.
  - destruct (decide (direction e = asc)).
    + by rewrite flip_columns.
    + by apply filter_fmap_NoDup.
  - apply sortState_None in He. rewrite fmap_app. apply NoDup_app.
    split; [done|]. split; [|apply NoDup_singleton].
    intros k Hk ->%list_elem_of_singleton. done.
Qed.

Lemma handleSort_NoDup_witness :
  NoDup (column <$> sorts (handleSort "stage"
           (mkUIState ∅ [] ∅ [] [] noFilters [mkSortState "owner" desc] ∅))).
Proof.
  apply (handleSort_NoDup "stage"). simpl. apply NoDup_singleton.
Defined.

(** ** The pipeline, continued *)

Section array_sort_pipeline.
Context {A : Type} (comparefn : A → A → Z).

Lemma Array_sort_fixed (l : list A) :
  StronglySorted (λ a b, comparefn a b ≤ 0) l → Array_sort comparefn l = l.
Proof.
  induction 1 as [|x l Hl IH Hx]; [done|].
  cbn [Array_sort foldr]. fold (Array_sort comparefn l). rewrite IH.
  destruct l as [|y l]; [done|]. simpl.
  apply Forall_cons in Hx as [Hxy _].
  by rewrite (proj2 (Z.leb_le _ _) Hxy).
Qed.

Hypothesis consistent : Consistent comparefn.

Lemma sort_insert_front (x : A) (l : list A) :
  Forall (λ z, comparefn x z ≤ 0) l → sort_insert comparefn x l = x :: l.
Proof.
  destruct l as [|y l]; [done|]. intros [Hxy _]%Forall_cons. simpl.
  by rewrite (proj2 (Z.leb_le _ _) Hxy).
Qed.

Lemma filter_sort_insert (p : A → bool) (x : A) (l : list A) :
  StronglySorted (λ a b, comparefn a b ≤ 0) l →
  List.filter p (sort_insert comparefn x l)
  = if p x then sort_insert comparefn x (List.filter p l)
    else List.filter p l.
Proof.
  destruct consistent as [Hanti Htrans].
  induction 1 as [|y l Hl IH Hy]; simpl.
  - by destruct (p x).
  - destruct (comparefn x y <=? 0) eqn:Hxy.
    + apply Z.leb_le in Hxy. cbn [List.filter].
      destruct (p x); [|done]. symmetry.
      apply (sort_insert_front x (List.filter p (y :: l))).
      apply Forall_forall. intros z Hz.
      apply list_elem_of_In, filter_In in Hz as [Hz _].
      apply list_elem_of_In, elem_of_cons in Hz as [->|Hz]; [done|].
      rewrite Forall_forall in Hy. by apply (Htrans x y z), Hy.
    + cbn [List.filter]. rewrite IH.
      destruct (p y), (p x); simpl; try done. by rewrite Hxy.
Qed.

Lemma filter_Array_sort (p : A → bool) (l : list A) :
  List.filter p (Array_sort comparefn l)
  = Array_sort comparefn (List.filter p l).
Proof.
  induction l as [|x l IH]; [done|].
  cbn [Array_sort foldr List.filter]. fold (Array_sort comparefn l).
  rewrite filter_sort_insert by (by apply Array_sort_sorted).
  rewrite IH. by destruct (p x).
Qed.

End array_sort_pipeline.

(** X12.  Sorting what is already sorted by the same specification changes
    nothing. *)
Theorem sortedData_idempotent (sortSpec : list SortState) (rows : list Deal) :
  sortedData sortSpec (sortedData sortSpec rows) = sortedData sortSpec rows.
Proof.
  unfold sortedData. destruct (_ =? _); [done|].
  apply Array_sort_fixed, Array_sort_sorted, compareDeals_consistent.
Qed.

(** X13.  Filter and sort can be applied in either order: sorting the filtered
    records gives the same list as filtering the sorted records. *)
Theorem filter_sort_commute
    (f : FilterState) (sortSpec : list SortState) (data : list Deal) :
  sortedData sortSpec (filteredData f data)
  = filteredData f (sortedData sortSpec data).
Proof.
  unfold sortedData, filteredData. destruct (_ =? _); [done|].
  symmetry. apply filter_Array_sort, compareDeals_consistent.
Qed.

(** X14.  With the filters cleared, the filtered view still holds only the
    records whose value lies between 0 and 200000; the seed records all
    do. *)
Theorem filteredData_cleared (ui : UIState) (data : list Deal) :
  (∀ d, d ∈ filteredData (filters (onClearFilters ui)) data
        ↔ d ∈ data ∧ 0 ≤ dealValue d ≤ 200000)
  ∧ filteredData (filters (onClearFilters ui)) mockData = mockData.
Proof.
  split; [|reflexivity]. intros d. simpl. unfold filteredData.
  rewrite list_elem_of_In, filter_In, <-list_elem_of_In, passesFilters_spec.
  simpl. intuition.
Qed.

Lemma toLowerCase_empty (q : string) :
  Str.truthy (Str.toLowerCase q) = Str.truthy q.
Proof. by destruct q. Qed.

(** X15.  The search does not see the case of the letters typed: two search
    strings that agree up to case select the same records. *)
Theorem search_ignores_case
    (q q' : string) (stages owners : list string) (range : Z * Z)
    (data : list Deal) :
  Str.toLowerCase q = Str.toLowerCase q' →
  filteredData (mkFilterState q stages owners range) data
  = filteredData (mkFilterState q' stages owners range) data.
Proof.
  intros Hq. unfold filteredData. apply filter_ext. intros d.
  unfold passesFilters. simpl.
  by rewrite <-(toLowerCase_empty q), <-(toLowerCase_empty q'), Hq.
Qed.

Lemma search_ignores_case_witness :
  filteredData (mkFilterState "CLOUD" [] [] (0, 200000)) mockData
  = filteredData (mkFilterState "cloud" [] [] (0, 200000)) mockData.
Proof. by apply (search_ignores_case "CLOUD" "cloud"). Defined.

(** ** Columns *)

Lemma orString_nonempty (a : option string) (b : string) :
  b ≠ "" → orString a b ≠ "".
Proof.
  intros Hb. unfold orString. destruct a as [s|]; [|done].
  destruct (Str.truthy s) eqn:Hs; [|done].
  intros ->. done.
Qed.

Lemma orNumber_nonzero (a : option Z) (b : Z) : b ≠ 0 → orNumber a b ≠ 0.
Proof.
  intros Hb. unfold orNumber. destruct a as [n|]; [|done].
  destruct (Z.eqb_spec n 0); done.
Qed.

Lemma template_labels_nonempty :
  Forall (λ t, t_label t ≠ "") availableTemplates.
Proof. repeat constructor; done. Qed.

Lemma dynamicColumn_Some (ui : UIState) (templateId : string) c :
  dynamicColumn ui templateId = Some c →
  dc_id c = templateId
  ∧ templateId ∈ t_id <$> availableTemplates
  ∧ dc_label c ≠ ""
  ∧ dc_width c ≠ 0
  ∧ ∀ item,
      List.find (λ col, bool_decide (col_id col = templateId)) (columnConfig ui)
      = Some item → col_visible item = true.
Proof.
  unfold dynamicColumn.
  destruct (List.find (λ t, bool_decide (t_id t = templateId))
                      availableTemplates) as [t|] eqn:Ht; [|done].
  apply find_some in Ht as [Hin Hid]. apply bool_decide_eq_true in Hid.
  apply list_elem_of_In in Hin.
  assert (t_label t ≠ "") as Hlabel.
  { pose proof template_labels_nonempty as H.
    rewrite Forall_forall in H. by apply H. }
  assert (templateId ∈ t_id <$> availableTemplates) as Htpl.
  { apply list_elem_of_fmap. eauto. }
  destruct (List.find _ (columnConfig ui)) as [item|] eqn:Hitem.
  - destruct (col_visible item) eqn:Hvis; simpl; [|done].
    intros [= <-]. simpl. repeat split; try done.
    + by apply orString_nonempty.
    + by apply orNumber_nonzero.
    + by intros ? [= <-].
  - intros [= <-]. simpl. repeat split; try done.
    + by apply orString_nonempty.
    + by apply orNumber_nonzero.
Qed.

Lemma omap_ids_sublist (ui : UIState) (l : list string) :
  sublist (dc_id <$> omap (dynamicColumn ui) l) l.
Proof.
  induction l as [|x l IH]; simpl; [done|].
  destruct (dynamicColumn ui x) as [c|] eqn:Hc; simpl.
  - apply dynamicColumn_Some in Hc as [-> _]. by constructor.
  - by constructor.
Qed.

(** X16.  The dynamic columns follow the order of the selected templates and
    leave some out: each one is a known template, has a label that is not
    empty and a width that is not zero, and is not a column whose
    descriptor is hidden. *)
Theorem getDynamicColumns_spec (ui : UIState) :
  let cols := getDynamicColumns ui in
  sublist (dc_id <$> cols) (selectedTemplates ui)
  ∧ Forall (λ c, dc_id c ∈ t_id <$> availableTemplates
                 ∧ dc_label c ≠ "" ∧ dc_width c ≠ 0
                 ∧ ∀ item,
                     List.find (λ col, bool_decide (col_id col = dc_id c))
                               (columnConfig ui) = Some item →
                     col_visible item = true) cols.
Proof.
  split; [apply omap_ids_sublist|].
  apply Forall_forall. intros c Hc. unfold getDynamicColumns in Hc.
  apply list_elem_of_omap in Hc as (t & _ & Hc).
  apply dynamicColumn_Some in Hc as (<- & ? & ? & ? & ?). done.
Qed.

(** X17.  After a resize the header of that column has the new width, unless
    the new width is 0, which counts as no width; the headers of the other
    columns keep theirs.  The width a header gets is never 0. *)
Theorem handleColumnResize_width
    (columnId : string) (width : Z) (prev : UIState) (c : ColumnConfig) :
  headerWidth (handleColumnResize columnId width prev) c
  = (if decide (col_id c = columnId)
     then if width =? 0
          then orNumber (col_width c) DEFAULT_COLUMN_WIDTHS_template
          else width
     else headerWidth prev c)
  ∧ headerWidth prev c ≠ 0
  ∧ handleColumnResize columnId width prev
    = set_columnWidths (columnWidths (handleColumnResize columnId width prev))
                       prev.
Proof.
  split; [|split; [|done]].
  - unfold headerWidth, handleColumnResize. simpl.
    destruct (decide (col_id c = columnId)) as [->|Hne].
    + by rewrite lookup_insert_eq.
    + by rewrite lookup_insert_ne.
  - unfold headerWidth. apply orNumber_nonzero, orNumber_nonzero. done.
Qed.

Lemma visible_toggle_off columnId (config : list ColumnConfig) :
  List.filter col_visible (onColumnToggle columnId false config)
  = List.filter (λ c, negb (bool_decide (col_id c = columnId)))
                (List.filter col_visible config).
Proof.
  unfold onColumnToggle. induction config as [|c l IH]; simpl; [done|].
  case_bool_decide as Hc; simpl.
  - rewrite IH. destruct (col_visible c); simpl; [|done].
    by rewrite bool_decide_eq_true_2.
  - rewrite IH. destruct (col_visible c); simpl; [|done].
    by rewrite bool_decide_eq_false_2.
Qed.

Lemma toggle_ids columnId v (config : list ColumnConfig) :
  col_id <$> onColumnToggle columnId v config = col_id <$> config.
Proof.
  unfold onColumnToggle. induction config as [|c l IH]; simpl; [done|].
  f_equal; [|done]. by case_bool_decide.
Qed.

Lemma toggle_twice columnId v w (config : list ColumnConfig) :
  onColumnToggle columnId w (onColumnToggle columnId v config)
  = onColumnToggle columnId w config.
Proof.
  unfold onColumnToggle. rewrite List.map_map. apply map_ext. intros c.
  destruct (bool_decide (col_id c = columnId)) eqn:Hc; simpl; by rewrite Hc.
Qed.

(** X18.  Switching a column off in the column manager takes exactly the
    columns with that id out of the visible columns, in place; the
    descriptors keep their order and ids, and only the last of several
    switches of the same column counts. *)
Theorem onColumnToggle_spec
    (columnId : string) (v w : bool) (config : list ColumnConfig) :
  List.filter col_visible (onColumnToggle columnId false config)
  = List.filter (λ c, negb (bool_decide (col_id c = columnId)))
                (List.filter col_visible config)
  ∧ col_id <$> onColumnToggle columnId v config = col_id <$> config
  ∧ onColumnToggle columnId w (onColumnToggle columnId v config)
    = onColumnToggle columnId w config
  ∧ (∀ c, c ∈ onColumnToggle columnId v config → col_id c = columnId →
          col_visible c = v).
Proof.
  split; [apply visible_toggle_off|]. split; [apply toggle_ids|].
  split; [apply toggle_twice|].
  intros c Hc Hid. unfold onColumnToggle in Hc.
  apply list_elem_of_In, in_map_iff in Hc as (c0 & <- & _).
  revert Hid. case_bool_decide as H0; simpl; [done|]. intros ?. done.
Qed.

(** ** Column actions *)

(** X19.  The [sort] action of a column menu replaces the whole sort
    specification by that one column, whatever it was before; a header
    click afterwards continues the cycle from there.  A value other than
    asc or desc, or none, leaves the whole state as it is.  The records are
    never touched. *)
Theorem handleColumnAction_sort
    (columnId : string) (value : option string) (st : AppState) :
  let st' := handleColumnAction ColSort columnId value st in
  tableData st' = tableData st
  ∧ match value with
    | Some v =>
        if String.eqb v "asc" then
          sorts (uiState st') = [mkSortState columnId asc]
          ∧ sorts (handleSort columnId (uiState st'))
            = [mkSortState columnId desc]
        else if String.eqb v "desc" then
          sorts (uiState st') = [mkSortState columnId desc]
          ∧ sorts (handleSort columnId (uiState st')) = []
        else st' = st
    | None => st' = st
    end.
Proof.
  unfold handleColumnAction. destruct value as [v|]; [|done].
  destruct (String.eqb v "asc"); [|destruct (String.eqb v "desc")];
    cbn [tableData uiState]; try done.
  - split; [done|]. split; [done|].
    apply (toggleSort_last_asc columnId []), not_elem_of_nil.
  - split; [done|]. split; [done|].
    apply (toggleSort_last_desc columnId []), not_elem_of_nil.
Qed.

(** X20.  The [hide] action of a column menu takes the columns with that id out
    of the visible columns and changes nothing else: not the records, not
    the order or the ids of the descriptors, not the sort specification or
    the selection.  Hiding again changes nothing. *)
Theorem handleColumnAction_hide
    (columnId : string) (value : option string) (st : AppState) :
  let st' := handleColumnAction ColHide columnId value st in
  visibleColumns (uiState st')
  = List.filter (λ c, negb (bool_decide (col_id c = columnId)))
                (visibleColumns (uiState st))
  ∧ col_id <$> columnConfig (uiState st')
    = col_id <$> columnConfig (uiState st)
  ∧ uiState st' = set_columnConfig (columnConfig (uiState st')) (uiState st)
  ∧ tableData st' = tableData st
  ∧ handleColumnAction ColHide columnId value st' = st'.
Proof.
  simpl. fold (onColumnToggle columnId false (columnConfig (uiState st))).
  unfold visibleColumns. simpl.
  split; [apply visible_toggle_off|]. split; [apply toggle_ids|].
  split; [done|]. split; [done|].
  unfold set_columnConfig. simpl.
  fold (onColumnToggle columnId false
          (onColumnToggle columnId false (columnConfig (uiState st)))).
  by rewrite toggle_twice.
Qed.

(** ** Column order *)

Lemma spliceIn_length {A} (start : nat) (x : A) (l : list A) :
  length (spliceIn start x l) = S (length l).
Proof.
  unfold spliceIn. rewrite length_app. simpl.
  rewrite length_take, length_drop. lia.
Qed.

Lemma reorder_in_range (fromIndex toIndex : nat) (config : list ColumnConfig) x :
  config !! fromIndex = Some x →
  onColumnReorder fromIndex toIndex config
  = Some <$> spliceIn toIndex x (delete fromIndex config).
Proof.
  intros Hx. unfold onColumnReorder, spliceOut, spliceIn. rewrite Hx.
  by rewrite fmap_app, fmap_cons, fmap_take, fmap_drop.
Qed.

(** X21.  Moving a column from one position to another, both counted from the
    front.  With a column at the source position, the result is a
    rearrangement of the descriptors with that column at the target
    position, or last when the target is past the end, and moving it back
    restores the old order.  With no column at the source position the
    result has one member more, which is undefined. *)
Theorem onColumnReorder_spec
    (fromIndex toIndex : nat) (config : list ColumnConfig) :
  match config !! fromIndex with
  | Some x =>
      ∃ l', onColumnReorder fromIndex toIndex config = Some <$> l'
        ∧ l' ≡ₚ config
        ∧ l' !! (toIndex `min` (length config - 1))%nat = Some x
        ∧ (toIndex < length config →
             onColumnReorder toIndex fromIndex l' = Some <$> config)%nat
  | None =>
      length (onColumnReorder fromIndex toIndex config) = S (length config)
      ∧ None ∈ onColumnReorder fromIndex toIndex config
  end.
Proof.
  destruct (config !! fromIndex) as [x|] eqn:Hx.
  - pose proof (lookup_lt_Some _ _ _ Hx) as Hlt.
    set (rest := delete fromIndex config).
    assert (length rest = (length config - 1)%nat) as Hrest.
    { subst rest. rewrite length_delete by eauto. lia. }
    exists (spliceIn toIndex x rest). split; [by apply reorder_in_range|].
    split; [|split].
    + unfold spliceIn. rewrite <-Permutation_middle, take_drop.
      subst rest. symmetry. by apply delete_Permutation.
    + unfold spliceIn.
      rewrite <-Hrest, <-(length_take rest toIndex).
      apply list_lookup_middle. done.
    + intros Hto.
      assert (spliceIn toIndex x rest !! toIndex = Some x) as Hat.
      { unfold spliceIn. apply list_lookup_middle.
        rewrite length_take. lia. }
      rewrite (reorder_in_range _ _ _ x Hat). f_equal.
      assert (delete toIndex (spliceIn toIndex x rest) = rest) as ->.
      { unfold spliceIn.
        assert (length (take toIndex rest) = toIndex) as Hlen
          by (rewrite length_take; lia).
        rewrite <-Hlen at 1. rewrite delete_middle. apply take_drop. }
      unfold spliceIn. subst rest. rewrite delete_take_drop.
      rewrite take_app_length' by (rewrite length_take; lia).
      rewrite drop_app_length' by (rewrite length_take; lia).
      by apply take_drop_middle.
  - apply lookup_ge_None in Hx. unfold onColumnReorder, spliceOut.
    rewrite (proj2 (lookup_ge_None _ _) Hx).
    assert (delete fromIndex config = config) as ->.
    { rewrite delete_take_drop, take_ge, drop_ge by lia. apply app_nil_r. }
    split.
    + by rewrite spliceIn_length, length_fmap.
    + unfold spliceIn. apply elem_of_app. right. left.
Qed.

(** ** Keyboard navigation *)

(** X22.  An arrow key moves the focus by at most one cell, along one axis, and
    a focus inside the grid stays inside it. *)
Theorem handleKeyboardNavigation_bounds
    (maxRow maxCol : Z) (direction : Arrow) (focusedCell : Cell) :
  0 ≤ cell_row focusedCell ≤ maxRow →
  0 ≤ cell_col focusedCell ≤ maxCol →
  let next := handleKeyboardNavigation maxRow maxCol direction focusedCell in
  0 ≤ cell_row next ≤ maxRow
  ∧ 0 ≤ cell_col next ≤ maxCol
  ∧ Z.abs (cell_row next - cell_row focusedCell)
    + Z.abs (cell_col next - cell_col focusedCell) ≤ 1.
Proof. intros Hrow Hcol. destruct direction; simpl; lia. Qed.

Lemma handleKeyboardNavigation_bounds_witness :
  handleKeyboardNavigation 4 6 ArrowDown (mkCell 4 2) = mkCell 4 2
  ∧ 0 ≤ cell_row (handleKeyboardNavigation 4 6 ArrowUp (mkCell 0 2)) ≤ 4.
Proof.
  split; [reflexivity|].
  apply (handleKeyboardNavigation_bounds 4 6 ArrowUp (mkCell 0 2)); simpl; lia.
Defined.

(** ** Totals, continued *)





Lemma conversionRate_value (rows store : list Deal) (sel : gmap string bool) :
  conversionRate (totals rows store sel)
  = match countKey stage "Closed Won" rows with
    | S k => (Qc_of_nat (S k) / Qc_of_nat (length rows) * Qc_of_Z 100)%Qc
    | O => 0%Qc
    end.
Proof.
  unfold totals. simpl.
  rewrite <-(breakdown_count stage rows "Closed Won").
  by destruct (breakdown stage rows !! "Closed Won") as [[|k]|].
Qed.

Lemma selectedCount_le (sel : gmap string bool) : (selectedCount sel ≤ size sel)%nat.
Proof.
  unfold selectedCount. rewrite <-Object_keys_length. apply filter_length_le.
Qed.

Lemma Qc_of_nat_nonneg (n : nat) : (0 ≤ Qc_of_nat n)%Qc.
Proof.
  rewrite <-Z2Qc_inj_0. unfold Qc_of_nat.
  apply (proj1 (Z2Qc_inj_le 0 (Z.of_nat n))). lia.
Qed.

Lemma Qc_of_nat_pos (n : nat) : (0 < n)%nat → (0 < Qc_of_nat n)%Qc.
Proof.
  intros Hn. rewrite <-Z2Qc_inj_0. unfold Qc_of_nat.
  apply (proj1 (Z2Qc_inj_lt 0 (Z.of_nat n))). lia.
Qed.

(** X24.  The conversion rate lies between 0 and 100, and it is positive
    exactly when some visible row is in stage "Closed Won"; the number of
    selected rows is at most the number of keys of the selection map; the
    total is the number of records of the store. *)
Theorem totals_bounds (rows store : list Deal) (sel : gmap string bool) :
  let t := totals rows store sel in
  (0 ≤ conversionRate t)%Qc
  ∧ (conversionRate t ≤ Qc_of_Z 100)%Qc
  ∧ ((0 < conversionRate t)%Qc
     ↔ ∃ d, d ∈ rows ∧ stage d = "Closed Won")
  ∧ (selected t ≤ size sel)%nat
  ∧ total t = length store.
Proof.
  intros t.
  assert (0 < Qc_of_Z 100)%Qc as H100
    by (rewrite <-Z2Qc_inj_0; by apply (proj1 (Z2Qc_inj_lt 0 100))).
  split; [|split; [|split; [|split; [apply selectedCount_le|done]]]].
  - subst t. rewrite conversionRate_value.
    destruct (countKey stage "Closed Won" rows) as [|k] eqn:Hwon; [done|].
    pose proof (countKey_le stage "Closed Won" rows) as Hle.
    apply Qcmult_nonneg_nonneg; [|by apply Qclt_le_weak]. unfold Qcdiv.
    apply Qcmult_nonneg_nonneg.
    + apply Qc_of_nat_nonneg.
    + apply Qclt_le_weak, Qcinv_pos, Qc_of_nat_pos. lia.
  - subst t. rewrite conversionRate_value.
    destruct (countKey stage "Closed Won" rows) as [|k] eqn:Hwon;
      [by apply Qclt_le_weak|].
    pose proof (countKey_le stage "Closed Won" rows) as Hle.
    assert (0 < Qc_of_nat (length rows))%Qc as Hn
      by (apply Qc_of_nat_pos; lia).
    rewrite <-(Qcmult_1_l (Qc_of_Z 100)) at 2.
    apply Qcmult_le_mono_nonneg_r; [by apply Qclt_le_weak|].
    rewrite <-(Qcmult_inv_r (Qc_of_nat (length rows))).
    + unfold Qcdiv. apply Qcmult_le_mono_nonneg_r.
      * by apply Qclt_le_weak, Qcinv_pos.
      * unfold Qc_of_nat. apply (proj1 (Z2Qc_inj_le _ _)). lia.
    + intros H0. rewrite H0 in Hn. by apply Qclt_not_eq in Hn.
  - subst t. rewrite conversionRate_value.
    pose proof (countKey_le stage "Closed Won" rows) as Hle.
    assert ((0 < countKey stage "Closed Won" rows)%nat
            ↔ ∃ d, d ∈ rows ∧ stage d = "Closed Won") as <-.
    { unfold countKey. split.
      - intros Hpos.
        destruct (List.filter (λ d, bool_decide (stage d = "Closed Won")) rows)
          as [|d l] eqn:Hf; [simpl in Hpos; lia|].
        assert (In d (List.filter
                  (λ d, bool_decide (stage d = "Closed Won")) rows)) as Hin
          by (rewrite Hf; left; done).
        apply filter_In in Hin as [Hin Hd]. exists d.
        rewrite list_elem_of_In. by apply bool_decide_eq_true in Hd.
      - intros (d & Hin & Hd).
        assert (In d (List.filter
                  (λ d, bool_decide (stage d = "Closed Won")) rows)) as Hf.
        { apply filter_In. split; [by apply list_elem_of_In|].
          by apply bool_decide_eq_true. }
        destruct (List.filter _ rows); [done | simpl; lia]. }
    destruct (countKey stage "Closed Won" rows) as [|k] eqn:Hwon.
    + split; [|lia]. intros H0. by apply Qclt_not_eq in H0.
    + split; [lia|]. intros _.
      apply Qcmult_pos_pos; [|done]. unfold Qcdiv. apply Qcmult_pos_pos.
      * apply Qc_of_nat_pos. lia.
      * apply Qcinv_pos, Qc_of_nat_pos. lia.
Qed.

(** ** Writing and reading JSON *)

(** Induction over a JSON value with the hypothesis for every element of
    an array and every member of an object. *)
Fixpoint json_strong_ind (P : json → Prop)
    (Hnull : P JNull) (Hbool : ∀ b, P (JBool b)) (Hnum : ∀ m e, P (JNum m e))
    (Hstr : ∀ s, P (JStr s))
    (Harr : ∀ xs, List.Forall P xs → P (JArr xs))
    (Hobj : ∀ ms, List.Forall (λ kv, P (snd kv)) ms → P (JObj ms))
    (v : json) : P v :=
  match v with
  | JNull => Hnull
  | JBool b => Hbool b
  | JNum m e => Hnum m e
  | JStr s => Hstr s
  | JArr xs =>
      Harr xs
        ((fix go (xs : list json) : List.Forall P xs :=
            match xs with
            | [] => @List.Forall_nil json P
            | x :: rest =>
                @List.Forall_cons json P x rest
                  (json_strong_ind P Hnull Hbool Hnum Hstr Harr Hobj x)
                  (go rest)
            end) xs)
  | JObj ms =>
      Hobj ms
        ((fix go (ms : list (string * json))
              : List.Forall (λ kv, P (snd kv)) ms :=
            match ms with
            | [] => @List.Forall_nil (string * json) (λ kv, P (snd kv))
            | kv :: rest =>
                @List.Forall_cons (string * json) (λ kv, P (snd kv)) kv rest
                  (json_strong_ind P Hnull Hbool Hnum Hstr Harr Hobj (snd kv))
                  (go rest)
            end) ms)
  end.

(** *** The scanner on written text *)

Lemma str_app_nil_r (s : string) : s +:+ "" = s.
Proof. induction s as [|c s IH]; [done|]. by rewrite str_app_cons, IH. Qed.

Lemma rev_app_app (s a b : string) :
  String.rev_app (String.rev_app s a) b = String.rev_app a (s +:+ b).
Proof.
  revert a b. induction s as [|c s IH]; intros a b; [done|].
  simpl. rewrite IH. simpl. by rewrite str_app_cons.
Qed.

Lemma rev_rev_app (s : string) : String.rev (String.rev_app s "") = s.
Proof.
  unfold String.rev. rewrite rev_app_app. simpl. apply str_app_nil_r.
Qed.

Lemma scan_emit m c r m' ts tr :
  Json.scanStep m c = Some (m', ts) → Json.scan m' r = Some tr →
  Json.scan m (String c r) = Some (ts ++ tr).
Proof. intros Hstep Hr. simpl. by rewrite Hstep, Hr. Qed.

Lemma scan_quiet m s m' r :
  quiet m s = Some m' → Json.scan m (s +:+ r) = Json.scan m' r.
Proof.
  revert m. induction s as [|c s IH]; intros m.
  - simpl. by intros [= ->].
  - rewrite str_app_cons. cbn [quiet Json.scan].
    destruct (Json.scanStep m c) as [[m1 [|t ts]]|]; try done.
    intros Hq. rewrite (IH _ Hq). by destruct (Json.scan m' r).
Qed.

Lemma quiet_app m a b :
  quiet m (a +:+ b) = match quiet m a with Some m' => quiet m' b | None => None end.
Proof.
  revert m. induction a as [|c a IH]; intros m; [done|].
  rewrite str_app_cons. cbn [quiet].
  destruct (Json.scanStep m c) as [[m1 [|t ts]]|]; try done.
Qed.

Lemma quiet_escapeChar (c : ascii) (text : string) :
  quiet (Json.LStr text) (JsonOut.escapeChar c)
  = Some (Json.LStr (String c text)).
Proof. by destruct c as [[] [] [] [] [] [] [] []]. Qed.

Lemma quiet_escape (s text : string) :
  quiet (Json.LStr text) (JsonOut.escape s)
  = Some (Json.LStr (String.rev_app s text)).
Proof.
  revert text. induction s as [|c s IH]; intros text; [done|].
  simpl. rewrite quiet_app, quiet_escapeChar. apply IH.
Qed.

Lemma scan_string (s rest : string) tr :
  Json.scan Json.LNormal rest = Some tr →
  Json.scan Json.LNormal (JsonOut.quoteString s +:+ rest)
  = Some (Json.TScalar (JStr s) :: tr).
Proof.
  intros Hrest. unfold JsonOut.quoteString. rewrite str_app_cons.
  rewrite (scan_emit _ _ _ (Json.LStr "") [] (Json.TScalar (JStr s) :: tr));
    [done|done|].
  rewrite str_app_assoc, (scan_quiet _ _ _ _ (quiet_escape s "")).
  rewrite str_app_cons, str_app_nil.
  rewrite (scan_emit _ _ _ Json.LNormal [Json.TScalar (JStr s)] tr);
    [done| |done].
  simpl. by rewrite rev_rev_app.
Qed.

Lemma digit_cases (d : N) :
  (d < 10)%N →
  d = 0%N ∨ d = 1%N ∨ d = 2%N ∨ d = 3%N ∨ d = 4%N ∨ d = 5%N ∨ d = 6%N
  ∨ d = 7%N ∨ d = 8%N ∨ d = 9%N.
Proof. lia. Qed.

Lemma digit_char (d : N) :
  (d < 10)%N →
  Json.digitVal (pretty_N_char d) = Some d
  ∧ Json.isNumChar (pretty_N_char d) = true
  ∧ Json.scanNormal (pretty_N_char d)
    = Some (Json.LNum (String (pretty_N_char d) ""), [])
  ∧ ∀ r, match String (pretty_N_char d) r with
         | String "-"%char r' => (true, r')
         | s => (false, s)
         end = (false, String (pretty_N_char d) r).
Proof.
  intros Hd.
  destruct (digit_cases d Hd) as [->|[->|[->|[->|[->|[->|[->|[->|[->| ->]]]]]]]]];
    done.
Qed.

Lemma digitsValue_snoc (ds : list N) (d : N) :
  Json.digitsValue (ds ++ [d]) = 10 * Json.digitsValue ds + Z.of_N d.
Proof. unfold Json.digitsValue. by rewrite fold_left_app. Qed.

Lemma digitsString_snoc (ds : list N) (d : N) (s : string) :
  digitsString (ds ++ [d]) +:+ s
  = digitsString ds +:+ String (pretty_N_char d) s.
Proof.
  induction ds as [|x ds IH]; [done|].
  simpl. by rewrite !str_app_cons, IH.
Qed.

(** The digits [pretty] writes for a natural number: its decimal
    expansion, without a leading 0. *)
Lemma pretty_N_go_digits (x : N) (s : string) :
  ∃ ds, pretty_N_go x s = digitsString ds +:+ s
    ∧ Forall (λ d, (d < 10)%N) ds
    ∧ Json.digitsValue ds = Z.of_N x
    ∧ match ds with [] => x = 0%N | d :: _ => d ≠ 0%N end.
Proof.
  revert s. induction (N.lt_wf_0 x) as [x _ IH]; intros s.
  destruct (decide (x = 0%N)) as [->|Hx].
  - exists []. by rewrite pretty_N_go_0.
  - rewrite pretty_N_go_step by lia.
    destruct (IH (x `div` 10)%N) with (s := String (pretty_N_char (x `mod` 10)) s)
      as (ds & -> & Hall & Hval & Hhead).
    { apply N.div_lt; lia. }
    exists (ds ++ [(x `mod` 10)%N]). split; [by rewrite digitsString_snoc|].
    split; [|split].
    + apply Forall_app. split; [done|]. repeat constructor.
      apply N.mod_lt. done.
    + rewrite digitsValue_snoc, Hval.
      pose proof (N.div_mod x 10). lia.
    + destruct ds as [|d ds]; simpl; [|done].
      subst. simpl in Hval. pose proof (N.div_mod x 10). lia.
Qed.

Lemma pretty_N_digits (x : N) :
  ∃ d ds, pretty x = digitsString (d :: ds)
    ∧ Forall (λ d, (d < 10)%N) (d :: ds)
    ∧ Json.digitsValue (d :: ds) = Z.of_N x
    ∧ (ds = [] ∨ d ≠ 0%N).
Proof.
  unfold pretty, pretty_N. case_decide as Hx.
  - subst. exists 0%N, []. split_and!; try done; [|by left].
    by repeat constructor.
  - destruct (pretty_N_go_digits x "") as (ds & Htext & Hall & Hval & Hhead).
    rewrite str_app_nil_r in Htext.
    destruct ds as [|d ds]; [done|]. exists d, ds. split_and!; try done.
    by right.
Qed.

Lemma spanDigits_digits (ds : list N) :
  Forall (λ d, (d < 10)%N) ds → Json.spanDigits (digitsString ds) = (ds, "").
Proof.
  induction 1 as [|d ds Hd _ IH]; [done|].
  simpl. destruct (digit_char d Hd) as (-> & _). by rewrite IH.
Qed.

Lemma parseNumber_tail (negative : bool) (d : N) (ds : list N) :
  Forall (λ d, (d < 10)%N) (d :: ds) → ds = [] ∨ d ≠ 0%N →
  (let '(intDigits, s2) := Json.spanDigits (digitsString (d :: ds)) in
   let intOk :=
     match intDigits with
     | [] => false
     | [_] => true
     | d :: _ => negb (d =? 0)%N
     end in
   let fraction :=
     match s2 with
     | String "."%char r =>
         let '(ds, rest) := Json.spanDigits r in
         match ds with [] => None | _ => Some (ds, rest) end
     | _ => Some ([], s2)
     end in
   match fraction with
   | None => None
   | Some (fracDigits, s3) =>
       let exponent :=
         match s3 with
         | String c r =>
             if bool_decide (c = "e"%char) || bool_decide (c = "E"%char) then
               let '(expNegative, r1) :=
                 match r with
                 | String "-"%char r' => (true, r')
                 | String "+"%char r' => (false, r')
                 | _ => (false, r)
                 end in
               let '(ds, rest) := Json.spanDigits r1 in
               match ds with
               | [] => None
               | _ => Some ((if expNegative : bool then - Json.digitsValue ds
                             else Json.digitsValue ds), rest)
               end
             else Some (0, s3)
         | EmptyString => Some (0, s3)
         end in
       match exponent with
       | Some (e, EmptyString) =>
           if intOk then
             let m := Json.digitsValue (intDigits ++ fracDigits) in
             Some (JNum (if negative : bool then - m else m)
                        (e - Z.of_nat (length fracDigits)))
           else None
       | _ => None
       end
   end)
  = Some (JNum (if negative then - Json.digitsValue (d :: ds)
                else Json.digitsValue (d :: ds)) 0).
Proof.
  intros Hall Hhead. rewrite spanDigits_digits by done.
  cbv zeta iota beta. rewrite app_nil_r.
  assert (match d :: ds with
          | [] => false
          | [_] => true
          | d0 :: _ :: _ => negb (d0 =? 0)%N
          end = true) as ->.
  { destruct ds as [|d' ds]; [done|]. destruct Hhead as [?|Hd]; [done|].
    apply negb_true_iff, N.eqb_neq. done. }
  done.
Qed.

Lemma parseNumber_digits (negative : bool) (d : N) (ds : list N) :
  Forall (λ d, (d < 10)%N) (d :: ds) → ds = [] ∨ d ≠ 0%N →
  Json.parseNumber
    (if negative then String "-" (digitsString (d :: ds))
     else digitsString (d :: ds))
  = Some (JNum (if negative then - Json.digitsValue (d :: ds)
                else Json.digitsValue (d :: ds)) 0).
Proof.
  intros Hall Hhead.
  rewrite <-(parseNumber_tail negative d ds Hall Hhead).
  destruct negative; [reflexivity|].
  pose proof Hall as Hall'. apply Forall_cons in Hall' as [Hd _].
  destruct (digit_cases d Hd) as [->|[->|[->|[->|[->|[->|[->|[->|[->| ->]]]]]]]]];
    reflexivity.
Qed.

Lemma pretty_Z_text (m : Z) :
  ∃ (negative : bool) d ds,
    pretty m = (if negative then String "-" (digitsString (d :: ds))
                else digitsString (d :: ds))
    ∧ Forall (λ d, (d < 10)%N) (d :: ds)
    ∧ (ds = [] ∨ d ≠ 0%N)
    ∧ m = (if negative then - Json.digitsValue (d :: ds)
           else Json.digitsValue (d :: ds)).
Proof.
  destruct m as [|p|p].
  - exists false, 0%N, []. split_and!; try done; [|by left].
    by repeat constructor.
  - destruct (pretty_N_digits (N.pos p)) as (d & ds & Htext & Hall & Hval & Hh).
    exists false, d, ds. split_and!; try done; by rewrite Hval.
  - destruct (pretty_N_digits (N.pos p)) as (d & ds & Htext & Hall & Hval & Hh).
    exists true, d, ds. split_and!; try done; [|by rewrite Hval].
    change (pretty (Z.neg p)) with ("-" +:+ pretty (N.pos p)).
    by rewrite Htext.
Qed.

Lemma parseNumber_pretty (m : Z) :
  Json.parseNumber (pretty m) = Some (JNum m 0).
Proof.
  destruct (pretty_Z_text m) as (negative & d & ds & -> & Hall & Hh & Hm).
  rewrite parseNumber_digits by done. by rewrite <-Hm.
Qed.

Lemma quiet_digits (lexeme : string) (ds : list N) :
  Forall (λ d, (d < 10)%N) ds →
  quiet (Json.LNum lexeme) (digitsString ds)
  = Some (Json.LNum (String.rev_app (digitsString ds) lexeme)).
Proof.
  intros Hall. revert lexeme.
  induction Hall as [|d ds Hd _ IH]; intros lexeme; [done|].
  cbn [digitsString quiet Json.scanStep].
  destruct (digit_char d Hd) as (_ & -> & _). apply IH.
Qed.

Lemma quiet_number (m : Z) :
  quiet Json.LNormal (pretty m)
  = Some (Json.LNum (String.rev_app (pretty m) "")).
Proof.
  destruct (pretty_Z_text m) as (negative & d & ds & -> & Hall & _).
  pose proof Hall as Hall'. apply Forall_cons in Hall' as [Hd Hds].
  destruct negative.
  - cbn [quiet]. change (Json.scanStep Json.LNormal "-")
      with (Some (Json.LNum "-", @nil Json.token)).
    cbv iota beta. by rewrite quiet_digits.
  - cbn [digitsString quiet Json.scanStep].
    destruct (digit_char d Hd) as (_ & _ & -> & _).
    by rewrite quiet_digits.
Qed.

Lemma scan_number_end (lexeme rest : string) v tr :
  Json.parseNumber (String.rev lexeme) = Some v →
  endsNumber rest →
  Json.scan Json.LNormal rest = Some tr →
  Json.scan (Json.LNum lexeme) rest = Some (Json.TScalar v :: tr).
Proof.
  intros Hv Hend Hrest. destruct rest as [|c r]; simpl in *.
  - rewrite Hv. by injection Hrest as <-.
  - rewrite Hend, Hv.
    destruct (Json.scanNormal c) as [[m' ts]|]; [|done].
    destruct (Json.scan m' r) as [tr'|]; [|done].
    by injection Hrest as <-.
Qed.

Lemma scan_number (m : Z) (rest : string) tr :
  endsNumber rest →
  Json.scan Json.LNormal rest = Some tr →
  Json.scan Json.LNormal (pretty m +:+ rest)
  = Some (Json.TScalar (JNum m 0) :: tr).
Proof.
  intros Hend Hrest. rewrite (scan_quiet _ _ _ _ (quiet_number m)).
  apply scan_number_end; [|done..].
  by rewrite rev_rev_app, parseNumber_pretty.
Qed.

Lemma printTokens_app (a b : list Json.token) :
  JsonOut.printTokens (a ++ b)
  = JsonOut.printTokens a +:+ JsonOut.printTokens b.
Proof.
  induction a as [|t a IH]; [done|]. simpl. by rewrite IH, str_app_assoc.
Qed.

Lemma printable_arr (xs : list json) :
  printable (JArr xs) ↔ Forall printable xs.
Proof.
  induction xs as [|x xs IH]; simpl.
  - split; [constructor | done].
  - rewrite Forall_cons. simpl in IH. by rewrite IH.
Qed.

Lemma printable_obj (ms : list (string * json)) :
  printable (JObj ms)
  ↔ NoDup (fst <$> ms) ∧ Forall (λ kv, printable (snd kv)) ms.
Proof.
  simpl. apply and_iff_compat_l.
  induction ms as [|kv ms IH]; simpl.
  - split; [constructor | done].
  - by rewrite Forall_cons, IH.
Qed.

(** *** The scanner reads back the tokens that were written *)

Ltac str_norm :=
  repeat (rewrite str_app_assoc || rewrite str_app_cons
          || rewrite str_app_nil || rewrite str_app_nil_r).

Lemma scan_punct (c : ascii) (t : Json.token) (rest : string) tr :
  Json.scanNormal c = Some (Json.LNormal, [t]) →
  Json.scan Json.LNormal rest = Some tr →
  Json.scan Json.LNormal (String c rest) = Some (t :: tr).
Proof. intros Hc Hrest. by apply (scan_emit _ _ _ Json.LNormal [t] tr). Qed.

Lemma scan_more_elements (xs : list json) (rest : string) tr :
  List.Forall scansBack xs → Forall printable xs →
  Json.scan Json.LNormal rest = Some tr →
  Json.scan Json.LNormal
    (JsonOut.printTokens (JsonOut.moreElements JsonOut.tokens xs)
       +:+ String "]" rest)
  = Some (JsonOut.moreElements JsonOut.tokens xs ++ Json.TRBracket :: tr).
Proof.
  intros IH Hp Hrest. induction IH as [|x xs IHx _ IHxs].
  - cbn [JsonOut.moreElements JsonOut.printTokens]. str_norm.
    by apply scan_punct.
  - apply Forall_cons in Hp as [Hx Hxs].
    cbn [JsonOut.moreElements JsonOut.printTokens JsonOut.printToken].
    rewrite printTokens_app. str_norm.
    rewrite <-app_comm_cons, <-app_assoc.
    apply scan_punct; [done|].
    apply (IHx Hx); [|by apply IHxs].
    by destruct xs.
Qed.

Lemma scan_more_members (ms : list (string * json)) (rest : string) tr :
  List.Forall (λ kv, scansBack (snd kv)) ms →
  Forall (λ kv, printable (snd kv)) ms →
  Json.scan Json.LNormal rest = Some tr →
  Json.scan Json.LNormal
    (JsonOut.printTokens (JsonOut.moreMembers JsonOut.tokens ms)
       +:+ String "}" rest)
  = Some (JsonOut.moreMembers JsonOut.tokens ms ++ Json.TRBrace :: tr).
Proof.
  intros IH Hp Hrest. induction IH as [|kv ms IHx _ IHms].
  - cbn [JsonOut.moreMembers JsonOut.printTokens]. str_norm.
    by apply scan_punct.
  - apply Forall_cons in Hp as [Hx Hms].
    cbn [JsonOut.moreMembers JsonOut.printTokens JsonOut.printToken].
    rewrite printTokens_app. str_norm.
    rewrite <-!app_comm_cons, <-app_assoc.
    apply scan_punct; [done|].
    rewrite <-str_app_cons. apply scan_string.
    apply scan_punct; [done|].
    apply (IHx Hx); [|by apply IHms].
    by destruct ms.
Qed.

Lemma scan_tokens (v : json) : scansBack v.
Proof.
  induction v as [|b|m e|s|xs IH|ms IH] using json_strong_ind;
    intros Hp rest tr Hend Hrest.
  - cbn [JsonOut.tokens JsonOut.printTokens JsonOut.printToken]. str_norm.
    simpl. by rewrite Hrest.
  - destruct b;
      cbn [JsonOut.tokens JsonOut.printTokens JsonOut.printToken]; str_norm;
      simpl; by rewrite Hrest.
  - destruct Hp as [-> _].
    cbn [JsonOut.tokens JsonOut.printTokens JsonOut.printToken].
    rewrite str_app_nil_r. by apply scan_number.
  - cbn [JsonOut.tokens JsonOut.printTokens JsonOut.printToken].
    rewrite str_app_nil_r. by apply scan_string.
  - apply printable_arr in Hp. destruct IH as [|x xs IHx IHxs].
    + cbn [JsonOut.tokens JsonOut.printTokens JsonOut.printToken]. str_norm.
      simpl. by rewrite Hrest.
    + apply Forall_cons in Hp as [Hx Hxs].
      cbn [JsonOut.tokens JsonOut.printTokens JsonOut.printToken].
      rewrite !printTokens_app.
      cbn [JsonOut.printTokens JsonOut.printToken]. str_norm.
      rewrite <-app_comm_cons, <-!app_assoc.
      apply scan_punct; [done|].
      apply (IHx Hx); [|by apply scan_more_elements].
      by destruct xs.
  - apply printable_obj in Hp as [_ Hp]. destruct IH as [|kv ms IHx IHms].
    + cbn [JsonOut.tokens JsonOut.printTokens JsonOut.printToken]. str_norm.
      simpl. by rewrite Hrest.
    + apply Forall_cons in Hp as [Hx Hms].
      cbn [JsonOut.tokens JsonOut.printTokens JsonOut.printToken].
      rewrite !printTokens_app.
      cbn [JsonOut.printTokens JsonOut.printToken]. str_norm.
      rewrite <-!app_comm_cons, <-!app_assoc.
      apply scan_punct; [done|].
      rewrite <-str_app_cons. apply scan_string.
      apply scan_punct; [done|].
      apply (IHx Hx); [|by apply scan_more_members].
      by destruct ms.
Qed.

(** *** The parser rebuilds the value from its tokens *)

Lemma parseStep_scalar st first v :
  Json.parseStep (Json.PValue st first) (Json.TScalar v) = Json.complete v st.
Proof. by destruct st as [|[[|e es]|ms k] st], first. Qed.

Lemma parseStep_open_array st first :
  Json.parseStep (Json.PValue st first) Json.TLBracket
  = Some (Json.PValue (Json.FArr [] :: st) true).
Proof. by destruct st as [|[[|e es]|ms k] st], first. Qed.

Lemma parseStep_open_object st first :
  Json.parseStep (Json.PValue st first) Json.TLBrace
  = Some (Json.PKey (Json.FObj [] None :: st) true).
Proof. by destruct st as [|[[|e es]|ms k] st], first. Qed.

Lemma parseStep_key ms st first k :
  Json.parseStep (Json.PKey (Json.FObj ms None :: st) first)
                 (Json.TScalar (JStr k))
  = Some (Json.PColon (Json.FObj ms (Some k) :: st)).
Proof. by destruct first. Qed.

Lemma setMember_fresh k v (ms : list (string * json)) :
  k ∉ fst <$> ms → Json.setMember k v ms = ms ++ [(k, v)].
Proof.
  induction ms as [|[k' v'] ms IH]; [done|].
  rewrite fmap_cons, not_elem_of_cons. intros [Hne Hk]. simpl.
  rewrite (proj2 (String.eqb_neq k k')) by done. by rewrite IH.
Qed.

Lemma parse_scalar v st first rest :
  Json.parseTokens (Json.PValue st first) (Json.TScalar v :: rest)
  = match Json.complete v st with
    | Some p => Json.parseTokens p rest
    | None => None
    end.
Proof. cbn [Json.parseTokens]. by rewrite parseStep_scalar. Qed.

Lemma parse_more_elements (xs es : list json) st rest :
  List.Forall parsesBack xs → Forall printable xs →
  Json.parseTokens (Json.PAfter (Json.FArr es :: st))
    (JsonOut.moreElements JsonOut.tokens xs ++ Json.TRBracket :: rest)
  = match Json.complete (JArr (rev es ++ xs)) st with
    | Some p => Json.parseTokens p rest
    | None => None
    end.
Proof.
  intros IH Hp. revert es. induction IH as [|x xs IHx _ IHxs]; intros es.
  - simpl. by rewrite app_nil_r.
  - apply Forall_cons in Hp as [Hx Hxs].
    cbn [JsonOut.moreElements]. rewrite <-app_comm_cons.
    cbn [Json.parseTokens Json.parseStep]. rewrite <-app_assoc.
    rewrite (IHx Hx). cbn [Json.complete].
    rewrite (IHxs Hxs). simpl. by rewrite <-app_assoc.
Qed.

Lemma parse_more_members (ms acc : list (string * json)) st rest :
  List.Forall (λ kv, parsesBack (snd kv)) ms →
  Forall (λ kv, printable (snd kv)) ms →
  NoDup (fst <$> acc ++ ms) →
  Json.parseTokens (Json.PAfter (Json.FObj acc None :: st))
    (JsonOut.moreMembers JsonOut.tokens ms ++ Json.TRBrace :: rest)
  = match Json.complete (JObj (acc ++ ms)) st with
    | Some p => Json.parseTokens p rest
    | None => None
    end.
Proof.
  intros IH Hp. revert acc.
  induction IH as [|[k v] ms IHx _ IHms]; intros acc Hnd.
  - simpl. by rewrite app_nil_r.
  - apply Forall_cons in Hp as [Hx Hms].
    cbn [JsonOut.moreMembers fst snd]. rewrite <-!app_comm_cons.
    cbn [Json.parseTokens Json.parseStep]. rewrite <-app_assoc.
    simpl in IHx. rewrite (IHx Hx). cbn [Json.complete].
    rewrite setMember_fresh.
    + rewrite (IHms Hms); [by rewrite <-app_assoc|].
      by rewrite <-app_assoc.
    + rewrite fmap_app, fmap_cons in Hnd.
      apply NoDup_app in Hnd as (_ & Hnd & _). intros Hk.
      apply (Hnd k Hk). left.
Qed.

Lemma parse_tokens (v : json) : parsesBack v.
Proof.
  induction v as [|b|m e|s|xs IH|ms IH] using json_strong_ind;
    intros Hp stack first rest.
  - apply parse_scalar.
  - apply parse_scalar.
  - apply parse_scalar.
  - apply parse_scalar.
  - apply printable_arr in Hp. destruct IH as [|x xs IHx IHxs].
    + cbn [JsonOut.tokens app Json.parseTokens].
      by rewrite parseStep_open_array.
    + apply Forall_cons in Hp as [Hx Hxs].
      cbn [JsonOut.tokens]. rewrite <-app_comm_cons.
      cbn [Json.parseTokens]. rewrite parseStep_open_array.
      rewrite <-!app_assoc. rewrite (IHx Hx). cbn [Json.complete app].
      by rewrite parse_more_elements.
  - apply printable_obj in Hp as [Hnd Hp]. destruct IH as [|[k v] ms IHx IHms].
    + cbn [JsonOut.tokens app Json.parseTokens].
      by rewrite parseStep_open_object.
    + apply Forall_cons in Hp as [Hx Hms].
      cbn [JsonOut.tokens fst snd]. rewrite <-!app_comm_cons.
      cbn [Json.parseTokens]. rewrite parseStep_open_object.
      cbn [Json.parseStep]. rewrite <-!app_assoc.
      simpl in IHx. rewrite (IHx Hx). cbn [Json.complete Json.setMember app].
      by rewrite (parse_more_members ms [(k, v)]).
Qed.

(** Reading what was written gives the value back. *)
Theorem JSON_roundtrip (v : json) :
  printable v → JSON_parse (JSON_stringify v) = Returns v.
Proof.
  intros Hp. unfold JSON_parse, JSON_stringify.
  rewrite <-(str_app_nil_r (JsonOut.printTokens _)).
  rewrite (scan_tokens v Hp "" []) by done.
  rewrite (parse_tokens v Hp [] false []). done.
Qed.

(** ** Saving and loading the view state *)

Lemma encodeMap_keys {V} (f : V → json) (m : gmap string V) :
  fst <$> ((λ kv, (fst kv, f (snd kv))) <$> map_to_list m)
  = fst <$> map_to_list m.
Proof. rewrite <-list_fmap_compose. by apply list_fmap_ext. Qed.

Lemma printable_encodeMap {V} (f : V → json) (m : gmap string V) :
  (∀ x, x ∈ snd <$> map_to_list m → printable (f x)) →
  printable (encodeMap f m).
Proof.
  intros Hf. apply printable_obj. split.
  - rewrite encodeMap_keys. apply NoDup_fst_map_to_list.
  - apply Forall_fmap, Forall_forall. intros kv Hkv. simpl. apply Hf.
    apply list_elem_of_fmap. eauto.
Qed.

Lemma printable_encodeStrings (l : list string) : printable (encodeStrings l).
Proof. apply printable_arr, Forall_fmap, Forall_forall. done. Qed.

Lemma printable_encodeNumber (n : Z) :
  Z.abs n < 10 ^ 21 → printable (encodeNumber n).
Proof. done. Qed.

Lemma NoDup_literal (l : list string) : bool_decide (NoDup l) = true → NoDup l.
Proof. apply bool_decide_eq_true. Qed.

Lemma printable_encodeColumnConfig (c : ColumnConfig) :
  (∀ w, col_width c = Some w → Z.abs w < 10 ^ 21) →
  printable (encodeColumnConfig c).
Proof.
  intros Hw. apply printable_obj. split.
  - by destruct (col_locked c), (col_width c); apply NoDup_literal.
  - destruct (col_locked c), (col_width c) as [w|]; simpl;
      rewrite !Forall_cons, Forall_nil; cbn [snd]; split_and!; try done;
      by apply printable_encodeNumber, Hw.
Qed.

Lemma printable_encodeUIState (ui : UIState) :
  Forall (λ n, Z.abs n < 10 ^ 21) (numbersOf ui) →
  printable (encodeUIState ui).
Proof.
  unfold numbersOf. rewrite !Forall_app, !Forall_forall.
  intros (Hwidths & Hcols & Hrange).
  apply printable_obj. split; [by apply NoDup_literal|].
  rewrite !Forall_cons, Forall_nil. cbn [snd]. split_and!; [..|done].
  - by apply printable_encodeMap.
  - apply printable_arr, Forall_fmap, Forall_forall. intros c Hc.
    apply printable_encodeColumnConfig. intros w Hw. apply Hcols.
    apply list_elem_of_omap. eauto.
  - by apply printable_encodeMap.
  - apply printable_encodeStrings.
  - apply printable_encodeStrings.
  - apply printable_obj. split; [by apply NoDup_literal|].
    rewrite !Forall_cons, Forall_nil. cbn [snd].
    split_and!; try apply printable_encodeStrings; try done.
    apply printable_arr. rewrite !Forall_cons, Forall_nil.
    split_and!; [..|done]; apply printable_encodeNumber, Hrange.
    + left.
    + right. left.
  - apply printable_arr, Forall_fmap, Forall_forall. intros s _.
    apply printable_obj. split; [by apply NoDup_literal|].
    by rewrite !Forall_cons, Forall_nil.
  - apply printable_encodeMap. intros n Hn.
    by apply printable_encodeNumber, Hwidths.
Qed.

Lemma stringify_object_truthy (ms : list (string * json)) :
  Str.truthy (JSON_stringify (JObj ms)) = true.
Proof. by destruct ms. Qed.

(** X25.  Saving never throws and always yields the updated state, whether or
    not the write went through: afterwards the storage either is as it
    was, or holds the text of the new state. *)
Theorem saveUIState_always_updates
    (updater : UIState → UIState) (capacity : option nat) (env : Env)
    (prevState : UIState) :
  ∃ env',
    saveUIState updater capacity env prevState
    = Returns (updater prevState, env')
    ∧ hasWindow env' = hasWindow env
    ∧ (localStorage env' = localStorage env
       ∨ localStorage env'
         = StorageSlot
             (Some (JSON_stringify (encodeUIState (updater prevState))))).
Proof.
  unfold saveUIState. destruct env as [[] storage]; simpl.
  - destruct storage as [|content]; simpl; [by eexists; eauto|].
    destruct capacity as [room|]; [destruct (_ <? _)%nat|]; simpl;
      eexists; split_and!; eauto.
  - eexists; eauto.
Qed.

Lemma saveUIState_written
    (updater : UIState → UIState) (capacity : option nat)
    (content : option string) (prevState : UIState) :
  (∀ room, capacity = Some room →
     (String.length (JSON_stringify (encodeUIState (updater prevState)))
      ≤ room)%nat) →
  saveUIState updater capacity (mkEnv true (StorageSlot content)) prevState
  = Returns (updater prevState,
             mkEnv true (StorageSlot
               (Some (JSON_stringify (encodeUIState (updater prevState)))))).
Proof.
  unfold saveUIState. cbv zeta.
  generalize (JSON_stringify (encodeUIState (updater prevState))).
  intros text Hroom. simpl. destruct capacity as [room|]; [|done].
  specialize (Hroom room eq_refl).
  by rewrite (proj2 (Nat.ltb_ge _ _) Hroom).
Qed.

(** X26.  What a successful save writes, the next start of the page loads: the
    initializer then returns the saved view state, as encoded. *)
Theorem save_then_load
    (updater : UIState → UIState) (capacity : option nat)
    (content : option string) (prevState : UIState) :
  let newState := updater prevState in
  let text := JSON_stringify (encodeUIState newState) in
  Forall (λ n, Z.abs n < 10 ^ 21) (numbersOf newState) →
  (∀ room, capacity = Some room → (String.length text ≤ room)%nat) →
  ∃ env',
    saveUIState updater capacity (mkEnv true (StorageSlot content)) prevState
    = Returns (newState, env')
    ∧ initUIState env' = Returns (encodeUIState newState).
Proof.
  intros newState text Hsmall Hroom.
  exists (mkEnv true (StorageSlot (Some text))). split.
  - by apply saveUIState_written.
  - pose proof (JSON_roundtrip (encodeUIState newState)
                  (printable_encodeUIState newState Hsmall)) as Hparse.
    pose proof (stringify_object_truthy
                  [("rowSelection", encodeMap JBool (rowSelection newState));
                   ("columnConfig",
                    JArr (encodeColumnConfig <$> columnConfig newState));
                   ("headerValues", encodeMap JStr (headerValues newState));
                   ("selectedTemplates",
                    encodeStrings (selectedTemplates newState));
                   ("expandedRows", encodeStrings (expandedRows newState));
                   ("filters", encodeFilters (filters newState));
                   ("sorts", JArr (encodeSort <$> sorts newState));
                   ("columnWidths",
                    encodeMap encodeNumber (columnWidths newState))])
      as Htruthy.
    fold (encodeUIState newState) in Htruthy. fold text in Hparse, Htruthy.
    clearbody text. unfold initUIState, loadSaved.
    cbn [hasWindow localStorage getItem mbind outcome_bind bind tryCatch].
    rewrite Htruthy, Hparse. done.
Qed.

Lemma save_then_load_witness :
  let ui := mkUIState ∅ [] ∅ [] [] noFilters [] ∅ in
  ∃ env',
    saveUIState (handleSort "stage") None (mkEnv true (StorageSlot None)) ui
    = Returns (handleSort "stage" ui, env')
    ∧ initUIState env' = Returns (encodeUIState (handleSort "stage" ui)).
Proof.
  intros ui.
  apply (save_then_load (handleSort "stage") None None ui).
  - unfold numbersOf. simpl. rewrite map_to_list_empty. simpl.
    repeat constructor; done.
  - intros room Hroom. discriminate Hroom.
Defined.

(** The default view state, written as types, is the object the
    initializer falls back to. *)
Lemma encode_default :
  encodeUIState (mkUIState ∅ [] ∅ [] [] noFilters [] ∅) = defaultUIState.
Proof. by vm_compute. Qed.

(** Two duplications a millisecond apart, from the seed data. *)
Lemma duplicateAll_seed_NoDup_witness :
  NoDup (id <$> tableData
    (duplicateAll [("1", 1700000000000%N); ("1", 1700000000001%N)]
       (mkAppState mockData (mkUIState ∅ [] ∅ [] [] noFilters [] ∅) ""))).
Proof.
  apply (duplicateAll_seed_NoDup
           [("1", 1700000000000%N); ("1", 1700000000001%N)]).
  simpl. repeat constructor.
Defined.

(** ** The contacts cell *)

Lemma rev_app_string (piece s : string) :
  String.rev_app piece s = String.rev piece +:+ s.
Proof.
  unfold String.rev. revert s. induction piece as [|c p IH]; intros s; [done|].
  simpl. rewrite (IH (String c s)), (IH (String c "")).
  by rewrite str_app_assoc, str_app_cons, str_app_nil.
Qed.

Lemma join_cons (x : string) (l : list string) :
  l ≠ [] → join_contacts (x :: l) = x +:+ ", " +:+ join_contacts l.
Proof. by destruct l. Qed.

Lemma split_go_nonempty (s piece : string) : split_go s piece ≠ [].
Proof.
  revert piece. induction s as [|c r IH]; intros piece; [done|].
  simpl. destruct r as [|c' r']; [done|].
  destruct (_ && _); [done|]. apply IH.
Qed.

Lemma join_split_go (n : nat) (s piece : string) :
  (String.length s ≤ n)%nat →
  join_contacts (split_go s piece) = String.rev piece +:+ s.
Proof.
  revert s piece. induction n as [|n IH]; intros s piece Hn.
  - destruct s; [|simpl in Hn; lia]. simpl. by rewrite str_app_nil_r.
  - destruct s as [|c r]; [simpl; by rewrite str_app_nil_r|].
    simpl in Hn. cbn [split_go]. destruct r as [|c' r'].
    + cbn [split_go join_contacts].
      exact (rev_app_string piece (String c "")).
    + destruct (bool_decide (c = ","%char) && bool_decide (c' = " "%char))
        eqn:Hsep.
      * apply andb_true_iff in Hsep as [->%bool_decide_eq_true
                                        ->%bool_decide_eq_true].
        rewrite join_cons by apply split_go_nonempty.
        rewrite (IH r' "") by (simpl in Hn; lia).
        by rewrite str_app_nil.
      * rewrite (IH (String c' r') (String c piece)) by lia.
        change (String.rev (String c piece))
          with (String.rev_app piece (String c "")).
        by rewrite rev_app_string, str_app_assoc.
Qed.

(** X28.  The contacts cell hands the editor the pieces of the contacts string
    and stores the pieces joined again: splitting never gives an empty
    list, and joining what was split gives the string back. *)
Theorem contacts_roundtrip (s : string) :
  split_contacts s ≠ []
  ∧ join_contacts (split_contacts s) = s
  ∧ split_contacts "John Smith, Mary Johnson"
    = ["John Smith"; "Mary Johnson"].
Proof.
  split; [apply split_go_nonempty|]. split; [|reflexivity].
  unfold split_contacts.
  by rewrite (join_split_go (String.length s) s "").
Qed.
